(** * Script-to-audio synthesis pipeline of [src/podcast/text_to_speech.py]

    A shallow embedding of the two text-to-speech generators
    ([PodcastTTSGenerator], the fixed-voice Kokoro engine, and
    [ChatterboxTTSGenerator], the voice-cloning engine) together with the
    properties their specification states about them, and of the script
    validation of [src/podcast/script_generator.py] that produces the
    scripts they run on.

    Conventions.
    - A Python [str] is a [string]; every character stands for one code
      point below 256.
    - A Python [int] is a [Z]; [len] results are [nat].
    - Calls that leave the repository (the neural models, [soundfile],
      the file system, [torch]) are parameters gathered in records; a call
      that may raise returns a [res]. *)

From Stdlib Require Import Ascii QArith.
From stdpp Require Import base option list strings gmap pretty.

Open Scope Z_scope.

(** ** Exceptions and results *)

Inductive exn : Type :=
| StopIteration
| IndexError
| ValueError
| ImportError
| FileNotFoundError
| OSError
| RuntimeError.

Inductive res (A : Type) : Type :=
| Ok (a : A)
| Raise (e : exn).
Arguments Ok {A} a.
Arguments Raise {A} e.

Definition is_ok {A} (r : res A) : bool :=
  match r with Ok _ => true | Raise _ => false end.

(** ** The [str] methods used by the pipeline *)

Module Str.

(** [str.isspace] on one code point: TAB..CR, FS..US, SPACE, NEL, NBSP. *)
Definition isspace (c : ascii) : bool :=
  let n := nat_of_ascii c in
  ((9 <=? n) && (n <=? 13) || (28 <=? n) && (n <=? 32)
   || (n =? 133) || (n =? 160))%nat.

Definition is_empty (s : string) : bool :=
  match s with EmptyString => true | String _ _ => false end.

Fixpoint lstrip (s : string) : string :=
  match s with
  | EmptyString => EmptyString
  | String c s' => if isspace c then lstrip s' else s
  end.

Fixpoint rstrip (s : string) : string :=
  match s with
  | EmptyString => EmptyString
  | String c s' =>
      match rstrip s' with
      | EmptyString => if isspace c then EmptyString else String c EmptyString
      | r => String c r
      end
  end.

(** [s.strip()] *)
Definition strip (s : string) : string := rstrip (lstrip s).

(** [s.endswith(suffix)] *)
Fixpoint endswith (s suffix : string) : bool :=
  if String.eqb s suffix then true
  else match s with
       | EmptyString => false
       | String _ s' => endswith s' suffix
       end.

(** [s.endswith((a, b, ...))] *)
Definition endswith_any (s : string) (suffixes : list string) : bool :=
  existsb (endswith s) suffixes.

(** [s.replace(old, new)] for a non-empty [old]: occurrences are replaced
    from left to right and never overlap; [skip] counts the characters of
    the occurrence just replaced that are still to be passed over. *)
Fixpoint replace_from (old new : string) (skip : nat) (s : string) : string :=
  match s with
  | EmptyString => EmptyString
  | String c s' =>
      match skip with
      | S k => replace_from old new k s'
      | O =>
          if String.prefix old s
          then new +:+ replace_from old new (String.length old - 1) s'
          else String c (replace_from old new 0 s')
      end
  end.

Definition replace (old new s : string) : string := replace_from old new 0 s.

(** [s.split()]: the maximal runs of non-whitespace characters. *)
Fixpoint split (s : string) : list string :=
  match s with
  | EmptyString => []
  | String c s' =>
      if isspace c then split s'
      else match s' with
           | EmptyString => [String c EmptyString]
           | String c' _ =>
               if isspace c' then String c EmptyString :: split s'
               else match split s' with
                    | w :: ws => String c w :: ws
                    | [] => [String c EmptyString]
                    end
           end
  end.

(** [s.lower()] on one code point below 256: A-Z and the Latin-1 capitals. *)
Definition lower_char (c : ascii) : ascii :=
  let n := nat_of_ascii c in
  if ((65 <=? n) && (n <=? 90)
      || (192 <=? n) && (n <=? 222) && negb (n =? 215))%nat
  then ascii_of_nat (n + 32) else c.

Fixpoint map_chars (f : ascii -> ascii) (s : string) : string :=
  match s with
  | EmptyString => EmptyString
  | String c s' => String (f c) (map_chars f s')
  end.

Definition lower (s : string) : string := map_chars lower_char s.

(** The characters of [s] that are not whitespace. *)
Fixpoint remove_ws (s : string) : string :=
  match s with
  | EmptyString => EmptyString
  | String c s' => if isspace c then remove_ws s' else String c (remove_ws s')
  end.

Fixpoint has_ws (s : string) : bool :=
  match s with
  | EmptyString => false
  | String c s' => isspace c || has_ws s'
  end.

(** [''.join(parts)] *)
Definition concat (parts : list string) : string :=
  foldr String.app EmptyString parts.

End Str.

(** ** Text Normalizer *)

Definition terminals : list string := ["."; "!"; "?"].

(** [PodcastTTSGenerator._clean_text_for_tts] *)
Definition _clean_text_for_tts (text : string) : string :=
  let clean_text := Str.strip text in
  let clean_text := Str.replace "..." "." clean_text in
  let clean_text := Str.replace "!!" "!" clean_text in
  let clean_text := Str.replace "??" "?" clean_text in
  if negb (Str.endswith_any clean_text terminals)
  then clean_text +:+ "."
  else clean_text.

(** ** Phase Splitter *)

Module Re.

(** The class [[.!?]] of the sentence delimiter. *)
Definition is_terminal (c : ascii) : bool :=
  match c with
  | "."%char | "!"%char | "?"%char => true
  | _ => false
  end.

(** Length of the longest prefix of [s] whose characters satisfy [p]. *)
Fixpoint span_len (p : ascii -> bool) (s : string) : nat :=
  match s with
  | EmptyString => O
  | String c s' => if p c then S (span_len p s') else O
  end.

Fixpoint drop (n : nat) (s : string) : string :=
  match n, s with
  | S k, String _ s' => drop k s'
  | _, _ => s
  end.

(** Length of the match of [[.!?]+\s+] anchored at the start of [s], and
    [0] when there is none.  Both repetitions are greedy; the two classes
    are disjoint, so giving back characters of the first run never helps
    and the greedy attempt decides the match. *)
Definition match_len (s : string) : nat :=
  let np := span_len is_terminal s in
  let ns := span_len Str.isspace (drop np s) in
  if ((0 <? np) && (0 <? ns))%nat then (np + ns)%nat else O.

(** [re.split(r'[.!?]+\s+', s)]: the text between the successive leftmost
    matches, with the (possibly empty) pieces before the first and after
    the last one.  [skip] counts the characters of the current match that
    are still to be passed over. *)
Fixpoint split_from (skip : nat) (s : string) : list string :=
  match s with
  | EmptyString => [EmptyString]
  | String c s' =>
      match skip with
      | S k => split_from k s'
      | O =>
          match match_len s with
          | S k => EmptyString :: split_from k s'
          | O =>
              match split_from O s' with
              | piece :: pieces => String c piece :: pieces
              | [] => [String c EmptyString]
              end
          end
      end
  end.

Definition split (s : string) : list string := split_from O s.

End Re.

(** [len(s)] as a Python [int]. *)
Definition len (s : string) : Z := Z.of_nat (String.length s).

(** One turn of [for sentence in sentences] over [(phases, current_phase)]. *)
Definition sentence_step (max_chars_per_phase : Z)
    (st : list string * string) (sentence : string) : list string * string :=
  let '(phases, current_phase) := st in
  let sentence := Str.strip sentence in
  if Str.is_empty sentence then st
  else
    let sentence :=
      if negb (Str.endswith_any sentence terminals)
      then sentence +:+ "." else sentence in
    if (len current_phase + len sentence >? max_chars_per_phase)
       && negb (Str.is_empty current_phase)
    then (phases ++ [Str.strip current_phase], sentence)
    else (phases,
          if negb (Str.is_empty current_phase)
          then current_phase +:+ " " +:+ sentence else sentence).

(** The first loop with the flush that follows it. *)
Definition sentence_phases (max_chars_per_phase : Z)
    (sentences : list string) : list string :=
  let '(phases, current_phase) :=
    foldl (sentence_step max_chars_per_phase) ([], EmptyString) sentences in
  if negb (Str.is_empty (Str.strip current_phase))
  then phases ++ [Str.strip current_phase]
  else phases.

(** One turn of [for word in words] over [(final_phases, current_chunk)]. *)
Definition word_step (max_chars_per_phase : Z)
    (st : list string * string) (word : string) : list string * string :=
  let '(final_phases, current_chunk) := st in
  if (len current_chunk + len word + 1 >? max_chars_per_phase)
     && negb (Str.is_empty current_chunk)
  then (final_phases ++ [Str.strip current_chunk], word)
  else (final_phases,
        if negb (Str.is_empty current_chunk)
        then current_chunk +:+ " " +:+ word else word).

(** [len(phase) > max_chars_per_phase * 1.5].  The right-hand side is a
    float; the product is exact for every bound below 2^51 and Python
    compares an int with a float exactly, so the test is
    [2 * len(phase) > 3 * max_chars_per_phase]. *)
Definition very_long (max_chars_per_phase : Z) (phase : string) : bool :=
  2 * len phase >? 3 * max_chars_per_phase.

(** The word loop of one very long phase, started from [final_phases]. *)
Definition word_chunks (max_chars_per_phase : Z)
    (final_phases : list string) (phase : string) : list string :=
  let words := Str.split phase in
  let '(final_phases, current_chunk) :=
    foldl (word_step max_chars_per_phase) (final_phases, EmptyString) words in
  if negb (Str.is_empty (Str.strip current_chunk))
  then final_phases ++ [Str.strip current_chunk]
  else final_phases.

(** One turn of [for phase in phases] over [final_phases]. *)
Definition phase_step (max_chars_per_phase : Z)
    (final_phases : list string) (phase : string) : list string :=
  if very_long max_chars_per_phase phase
  then word_chunks max_chars_per_phase final_phases phase
  else final_phases ++ [phase].

(** [ChatterboxTTSGenerator._split_text_into_phases] *)
Definition _split_text_into_phases (text : string)
    (max_chars_per_phase : Z) : list string :=
  let sentences := Re.split text in
  let phases := sentence_phases max_chars_per_phase sentences in
  foldl (phase_step max_chars_per_phase) [] phases.

(** ** Effects: a state and exception monad *)

(** A computation reads and updates a state of type [St] and either
    returns a value or raises; the state reached when an exception is
    raised is kept, as in Python. *)
Definition io (St A : Type) : Type := St -> St * res A.

Definition ret {St A} (a : A) : io St A := fun s => (s, Ok a).

Definition raise {St A} (e : exn) : io St A := fun s => (s, Raise e).

Definition lift {St A} (r : res A) : io St A := fun s => (s, r).

Definition bind {St A B} (m : io St A) (k : A -> io St B) : io St B :=
  fun s =>
    match m s with
    | (s', Ok a) => k a s'
    | (s', Raise e) => (s', Raise e)
    end.

Definition get {St} : io St St := fun s => (s, Ok s).

Definition modify {St} (f : St -> St) : io St unit := fun s => (f s, Ok tt).

(** [try: m except Exception as e: h e] *)
Definition try_except {St A} (m : io St A) (h : exn -> io St A) : io St A :=
  fun s =>
    match m s with
    | (s', Ok a) => (s', Ok a)
    | (s', Raise e) => h e s'
    end.

(** [try: m finally: f] *)
Definition try_finally {St A} (m : io St A) (f : io St unit) : io St A :=
  fun s =>
    let '(s', r) := m s in
    match f s' with
    | (s'', Ok _) => (s'', r)
    | (s'', Raise e) => (s'', Raise e)
    end.

(** [for x in l: body x] *)
Fixpoint for_each {St A} (body : A -> io St unit) (l : list A) : io St unit :=
  match l with
  | [] => ret tt
  | x :: l' => bind (body x) (fun _ => for_each body l')
  end.

Declare Scope io_scope.
Delimit Scope io_scope with io.
Notation "'do' x <- m ; k" := (bind m (fun x => k))
  (at level 20, x name, m at level 100, k at level 200) : io_scope.
Notation "m ;; k" := (bind m (fun _ => k))
  (at level 100, k at level 200, right associativity) : io_scope.

(** [enumerate(l)] *)
Definition enumerate {A} (l : list A) : list (nat * A) :=
  zip (seq 0 (length l)) l.

(** ** Paths and file names *)

(** [os.path.join(a, b)] of [posixpath]. *)
Definition path_join (a b : string) : string :=
  if String.prefix "/" b then b
  else if Str.is_empty a || Str.endswith a "/" then a +:+ b
  else a +:+ "/" +:+ b.

Fixpoint zeros (n : nat) : string :=
  match n with O => EmptyString | S k => String "0" (zeros k) end.

(** [f"{n:03d}"] for [n >= 0]. *)
Definition format_03d (n : nat) : string :=
  let digits := pretty n in
  zeros (3 - String.length digits) +:+ digits.

(** [f"segment_{i+1:03d}_{speaker.replace(' ', '_').lower()}.wav"] *)
Definition segment_filename (i : nat) (speaker : string) : string :=
  "segment_" +:+ format_03d (i + 1) +:+ "_"
  +:+ Str.lower (Str.replace " " "_" speaker) +:+ ".wav".

Definition combined_filename : string := "complete_podcast.wav".

(** ** Data model *)

(** [PodcastScript]; a line is a [dict], kept as its items in insertion
    order. *)
Record PodcastScript : Type := {
  script : list (list (string * string));
  source_document : string;
  total_lines : Z;
  estimated_duration : string
}.

(** [next(iter(line_dict.items()))] *)
Definition first_item (line_dict : list (string * string))
  : res (string * string) :=
  match line_dict with
  | [] => Raise StopIteration
  | item :: _ => Ok item
  end.

(** Samples are floats; only the value [0.0] of [np.zeros] and
    [torch.zeros] is ever built by the pipeline itself. *)
Class Sample (A : Type) : Type := zero : A.

Module AudioSegment.
Record t (A : Type) : Type := mk {
  speaker : string;
  text : string;
  audio_data : list A;
  duration : Q;
  file_path : string
}.
Arguments mk {A}.
Arguments speaker {A}.
Arguments text {A}.
Arguments audio_data {A}.
Arguments duration {A}.
Arguments file_path {A}.
End AudioSegment.

(** The operating system as the pipeline sees it: whether
    [Path(d).mkdir(parents=True, exist_ok=True)] succeeds, whether
    [sf.write] to a path succeeds, and [os.path.exists]. *)
Record Os : Type := {
  mkdir : string -> res unit;
  sf_writable : string -> bool;
  os_path_exists : string -> bool
}.

(** The state of one generation run: the sound files on disk (samples
    and sample rate by path) and the two local lists of
    [generate_podcast_audio]. *)
Record run (A : Type) : Type := mkrun {
  disk : gmap string (list A * positive);
  audio_segments : list (AudioSegment.t A);
  output_files : list string
}.
Arguments mkrun {A}.
Arguments disk {A}.
Arguments audio_segments {A}.
Arguments output_files {A}.

(** [sf.write(path, data, samplerate)].  A write that succeeds leaves
    the samples and the rate at the path.  A write that fails is kept as
    an [OSError] with the disk as it was; which exception [soundfile]
    raises and what it leaves of the file are not modelled. *)
Definition sf_write {A} (os : Os) (path : string) (data : list A)
    (samplerate : positive) : io (run A) unit :=
  fun st =>
    if sf_writable os path
    then (mkrun (<[path := (data, samplerate)]> (disk st))
                (audio_segments st) (output_files st), Ok tt)
    else (st, Raise OSError).

(** [int(num/den * rate)] for the pause durations 0.2, 0.3 and 0.5: the
    float product truncates to the integer quotient for every sample
    rate below 2^50. *)
Definition pause_samples (num den : Z) (rate : positive) : nat :=
  Z.to_nat (num * Z.pos rate / den).

(** [np.concatenate(arrays)] of one-dimensional arrays. *)
Definition np_concatenate {A} (arrays : list (list A)) : res (list A) :=
  match arrays with
  | [] => Raise ValueError
  | _ => Ok (concat arrays)
  end.

(** The loop of [_combine_audio_segments], the same in both engines:
    [combined_audio] after the turn for [(i, segment)]. *)
Definition combine_step {A} (n : nat) (pause_audio : list A)
    (combined_audio : list (list A)) (p : nat * AudioSegment.t A)
  : list (list A) :=
  let '(i, segment) := p in
  let combined_audio := combined_audio ++ [AudioSegment.audio_data segment] in
  if Z.of_nat i <? Z.of_nat n - 1
  then combined_audio ++ [pause_audio]
  else combined_audio.

(** ** Fixed-voice engine *)

Module PodcastTTSGenerator.

(** The fields of the generator; [pipeline clean_text voice] is the list
    of audio chunks the Kokoro pipeline yields, or the exception it
    raises.  Sample rates are positive. *)
Record t (A : Type) : Type := mk {
  sample_rate : positive;
  pipeline : string -> string -> res (list (list A));
  default_voice : string
}.
Arguments mk {A}.
Arguments sample_rate {A}.
Arguments pipeline {A}.
Arguments default_voice {A}.

Section Methods.
Context {A : Type} `{Sample A}.
Variable os : Os.
Variable self : t A.

Definition _generate_single_segment (speaker text : string)
  : res (list A) :=
  let voice := default_voice self in
  let clean_text := _clean_text_for_tts text in
  match pipeline self clean_text voice with
  | Raise e => Raise e
  | Ok combined_audio =>
      match combined_audio with
      | [audio] => Ok audio
      | _ => np_concatenate combined_audio
      end
  end.

Definition _combine_audio_segments (segments : list (AudioSegment.t A))
    (output_dir : string) : io (run A) string :=
  try_except
    (let pause_samples := pause_samples 2 10 (sample_rate self) in
     let pause_audio := replicate pause_samples zero in
     let combined_audio :=
       foldl (combine_step (length segments) pause_audio) []
             (enumerate segments) in
     do final_audio <- lift (np_concatenate combined_audio);
     let combined_path := path_join output_dir combined_filename in
     sf_write os combined_path final_audio (sample_rate self);;
     ret combined_path)%io
    (fun e => raise e).

(** The body of the [try] of one turn of the main loop. *)
Definition try_segment (output_dir : string) (combine_audio : bool)
    (i : nat) (speaker dialogue : string) : io (run A) unit :=
  (do segment_audio <- lift (_generate_single_segment speaker dialogue);
   let segment_path := path_join output_dir (segment_filename i speaker) in
   sf_write os segment_path segment_audio (sample_rate self);;
   modify (fun st => mkrun (disk st) (audio_segments st)
                           (output_files st ++ [segment_path]));;
   if combine_audio
   then
     let audio_segment :=
       AudioSegment.mk speaker dialogue segment_audio
         (Qmake (Z.of_nat (length segment_audio)) (sample_rate self))
         segment_path in
     modify (fun st => mkrun (disk st) (audio_segments st ++ [audio_segment])
                             (output_files st))
   else ret tt)%io.

(** One turn of [for i, line_dict in enumerate(podcast_script.script)]. *)
Definition segment_turn (output_dir : string) (combine_audio : bool)
    (p : nat * list (string * string)) : io (run A) unit :=
  let '(i, line_dict) := p in
  (do item <- lift (first_item line_dict);
   let '(speaker, dialogue) := item in
   try_except (try_segment output_dir combine_audio i speaker dialogue)
              (fun _ => ret tt))%io.

Definition generate_podcast_audio (podcast_script : PodcastScript)
    (output_dir : string) (combine_audio : bool) : io (run A) (list string) :=
  (lift (mkdir os output_dir);;
   modify (fun st => mkrun (disk st) [] []);;
   for_each (segment_turn output_dir combine_audio)
            (enumerate (script podcast_script));;
   do st <- get;
   (if combine_audio && negb (bool_decide (audio_segments st = []))
    then
      do combined_path <-
        _combine_audio_segments (audio_segments st) output_dir;
      modify (fun st => mkrun (disk st) (audio_segments st)
                              (output_files st ++ [combined_path]))
    else ret tt);;
   do st <- get;
   ret (output_files st))%io.

End Methods.
End PodcastTTSGenerator.

(** ** Voice-cloning engine *)

(** A value of the global [torch.load]: the library's own function, or
    the closure [patched_torch_load] that forwards to [inner] with
    [map_location] defaulting to the generator's device. *)
Inductive loader : Type :=
| library_load
| patched_torch_load (inner : loader).

(** A loaded [ChatterboxTTS]: its sample rate [sr] and
    [generate text audio_prompt_path], a waveform of shape [(1, T)] kept
    as its [T] samples, or the exception raised. *)
Record Model (A : Type) : Type := {
  model_sr : positive;
  generate : string -> option string -> res (list A)
}.
Arguments model_sr {A}.
Arguments generate {A}.

(** What [torch] and [chatterbox] offer on this machine;
    [from_pretrained load device] is [ChatterboxTTS.from_pretrained]
    called while [torch.load] is [load]. *)
Record Torch (A : Type) : Type := {
  CHATTERBOX_AVAILABLE : bool;
  cuda_is_available : bool;
  mps_is_available : bool;
  from_pretrained : loader -> string -> res (Model A)
}.
Arguments CHATTERBOX_AVAILABLE {A}.
Arguments cuda_is_available {A}.
Arguments mps_is_available {A}.
Arguments from_pretrained {A}.

(** The process-wide state touched by construction: the global
    [torch.load], [os.environ], and the record of every
    [from_pretrained] call (device asked for, [torch.load] at that time). *)
Record process : Type := mkprocess {
  torch_load : loader;
  environ : gmap string string;
  load_calls : list (string * loader)
}.

Module ChatterboxTTSGenerator.

Record t (A : Type) : Type := mk {
  device : string;
  original_torch_load : loader;
  model : Model A;
  sr : positive;
  reference_audio_path : option string
}.
Arguments mk {A}.
Arguments device {A}.
Arguments original_torch_load {A}.
Arguments model {A}.
Arguments sr {A}.
Arguments reference_audio_path {A}.

Section Methods.
Context {A : Type} `{Sample A}.
Variable torch : Torch A.
Variable os : Os.

Definition _detect_device : string :=
  if cuda_is_available torch then "cuda"
  else if mps_is_available torch then "mps"
  else "cpu".

(** [_apply_device_fixes]: returns what is stored in
    [self.original_torch_load]. *)
Definition _apply_device_fixes : io process loader :=
  (do p <- get;
   let original_torch_load := torch_load p in
   modify (fun p => mkprocess (patched_torch_load original_torch_load)
                              (environ p) (load_calls p));;
   ret original_torch_load)%io.

(** [_restore_torch_load]; the attribute is always present when the
    constructor calls it. *)
Definition _restore_torch_load (original_torch_load : loader)
  : io process unit :=
  modify (fun p => mkprocess original_torch_load (environ p) (load_calls p)).

(** [ChatterboxTTS.from_pretrained(device=device)] *)
Definition load_model (device : string) : io process (Model A) :=
  fun p =>
    (mkprocess (torch_load p) (environ p)
               (load_calls p ++ [(device, torch_load p)]),
     from_pretrained torch (torch_load p) device).

(** [__init__]; the fields [device], [model] and [sr] set on the way are
    the components of the value of the [try] statement. *)
Definition __init__ (device : option string) : io process (t A) :=
  (if negb (CHATTERBOX_AVAILABLE torch) then raise ImportError
   else
     modify (fun p => mkprocess (torch_load p)
               (<["PYTORCH_ENABLE_MPS_FALLBACK" := "1"]> (environ p))
               (load_calls p));;
     let device :=
       match device with
       | Some d => if Str.is_empty d then _detect_device else d
       | None => _detect_device
       end in
     do original_torch_load <- _apply_device_fixes;
     do loaded <-
       try_finally
         (try_except
            (do model <- load_model device;
             ret (device, model, model_sr model))
            (fun e =>
               if negb (String.eqb device "cpu")
               then
                 do model <- load_model "cpu";
                 ret ("cpu", model, model_sr model)
               else raise e))
         (_restore_torch_load original_torch_load);
     let '(device, model, sr) := loaded in
     ret (mk device original_torch_load model sr None))%io.

Definition set_reference_audio (audio_path : string) : io (t A) unit :=
  (if negb (os_path_exists os audio_path) then raise FileNotFoundError
   else
     modify (fun self => mk (device self) (original_torch_load self)
                            (model self) (sr self) (Some audio_path)))%io.

Variable self : t A.

(** [for phase in phases]: the waveforms generated so far, or the first
    exception. *)
Fixpoint generate_phases (phases : list string)
    (segment_audio_parts : list (list A)) : res (list (list A)) :=
  match phases with
  | [] => Ok segment_audio_parts
  | phase :: phases' =>
      let r :=
        match reference_audio_path self with
        | Some path =>
            if negb (Str.is_empty path)
            then generate (model self) phase (Some path)
            else generate (model self) phase None
        | None => generate (model self) phase None
        end in
      match r with
      | Raise e => Raise e
      | Ok wav => generate_phases phases' (segment_audio_parts ++ [wav])
      end
  end.

(** The waveform of one line from its parts; [squeeze().cpu().numpy()]
    leaves the samples as they are. *)
Definition join_phases (segment_audio_parts : list (list A))
  : res (list A) :=
  if (1 <? length segment_audio_parts)%nat
  then
    let pause_samples := pause_samples 3 10 (sr self) in
    let pause_audio := replicate pause_samples zero in
    match segment_audio_parts with
    | [] => Raise IndexError
    | first :: rest =>
        Ok (foldl (fun segment_audio part =>
                     segment_audio ++ pause_audio ++ part) first rest)
    end
  else
    match segment_audio_parts with
    | [] => Raise IndexError
    | first :: _ => Ok first
    end.

Definition _combine_audio_segments (segments : list (AudioSegment.t A))
    (output_dir : string) : io (run A) string :=
  try_except
    (let pause_samples := pause_samples 5 10 (sr self) in
     let pause_audio := replicate pause_samples zero in
     let combined_audio :=
       foldl (combine_step (length segments) pause_audio) []
             (enumerate segments) in
     do final_audio <- lift (np_concatenate combined_audio);
     let combined_path := path_join output_dir combined_filename in
     sf_write os combined_path final_audio (sr self);;
     ret combined_path)%io
    (fun e => raise e).

(** The body of the [try] of one turn of the main loop. *)
Definition try_segment (output_dir : string) (combine_audio : bool)
    (i : nat) (speaker dialogue : string) : io (run A) unit :=
  (let phases := _split_text_into_phases dialogue 800 in
   do segment_audio_parts <- lift (generate_phases phases []);
   do segment_audio_np <- lift (join_phases segment_audio_parts);
   let segment_path := path_join output_dir (segment_filename i speaker) in
   sf_write os segment_path segment_audio_np (sr self);;
   modify (fun st => mkrun (disk st) (audio_segments st)
                           (output_files st ++ [segment_path]));;
   if combine_audio
   then
     let audio_segment :=
       AudioSegment.mk speaker dialogue segment_audio_np
         (Qmake (Z.of_nat (length segment_audio_np)) (sr self))
         segment_path in
     modify (fun st => mkrun (disk st) (audio_segments st ++ [audio_segment])
                             (output_files st))
   else ret tt)%io.

(** One turn of [for i, line_dict in enumerate(podcast_script.script)]. *)
Definition segment_turn (output_dir : string) (combine_audio : bool)
    (p : nat * list (string * string)) : io (run A) unit :=
  let '(i, line_dict) := p in
  (do item <- lift (first_item line_dict);
   let '(speaker, dialogue) := item in
   try_except (try_segment output_dir combine_audio i speaker dialogue)
              (fun _ => ret tt))%io.

Definition generate_podcast_audio (podcast_script : PodcastScript)
    (output_dir : string) (combine_audio : bool) : io (run A) (list string) :=
  (lift (mkdir os output_dir);;
   modify (fun st => mkrun (disk st) [] []);;
   for_each (segment_turn output_dir combine_audio)
            (enumerate (script podcast_script));;
   do st <- get;
   (if combine_audio && negb (bool_decide (audio_segments st = []))
    then
      do combined_path <-
        _combine_audio_segments (audio_segments st) output_dir;
      modify (fun st => mkrun (disk st) (audio_segments st)
                              (output_files st ++ [combined_path]))
    else ret tt);;
   do st <- get;
   ret (output_files st))%io.

End Methods.
End ChatterboxTTSGenerator.

(** ** The text both engines share

    The two [generate_podcast_audio] and the two
    [_combine_audio_segments] differ only in how the waveform of one line
    is obtained ([synth]), in the sample rate ([rate]) and in the length
    of the pause between segments ([pause]).  [Engine] is their common
    text over these three; each method is shown below to be an instance
    of it, so that the properties are proved once. *)

Definition segment_path (output_dir : string) (i : nat) (speaker : string)
  : string :=
  path_join output_dir (segment_filename i speaker).

Definition combined_path (output_dir : string) : string :=
  path_join output_dir combined_filename.

(** The waveform of one line in the voice-cloning engine. *)
Definition chatterbox_synth {A} `{Sample A} (self : ChatterboxTTSGenerator.t A)
    (speaker dialogue : string) : res (list A) :=
  match ChatterboxTTSGenerator.generate_phases self
          (_split_text_into_phases dialogue 800) [] with
  | Ok segment_audio_parts =>
      ChatterboxTTSGenerator.join_phases self segment_audio_parts
  | Raise e => Raise e
  end.

Module Engine.
Section Engine.
Context {A : Type} `{Sample A}.
Variable os : Os.
Variable synth : string -> string -> res (list A).
Variable rate : positive.
Variable pause : nat.

Definition combine (segments : list (AudioSegment.t A))
    (output_dir : string) : io (run A) string :=
  try_except
    (let pause_audio := replicate pause zero in
     let combined_audio :=
       foldl (combine_step (length segments) pause_audio) []
             (enumerate segments) in
     do final_audio <- lift (np_concatenate combined_audio);
     sf_write os (combined_path output_dir) final_audio rate;;
     ret (combined_path output_dir))%io
    (fun e => raise e).

Definition try_segment (output_dir : string) (combine_audio : bool)
    (i : nat) (speaker dialogue : string) : io (run A) unit :=
  (do segment_audio <- lift (synth speaker dialogue);
   let segment_path := segment_path output_dir i speaker in
   sf_write os segment_path segment_audio rate;;
   modify (fun st => mkrun (disk st) (audio_segments st)
                           (output_files st ++ [segment_path]));;
   if combine_audio
   then
     let audio_segment :=
       AudioSegment.mk speaker dialogue segment_audio
         (Qmake (Z.of_nat (length segment_audio)) rate) segment_path in
     modify (fun st => mkrun (disk st) (audio_segments st ++ [audio_segment])
                             (output_files st))
   else ret tt)%io.

Definition segment_turn (output_dir : string) (combine_audio : bool)
    (p : nat * list (string * string)) : io (run A) unit :=
  let '(i, line_dict) := p in
  (do item <- lift (first_item line_dict);
   let '(speaker, dialogue) := item in
   try_except (try_segment output_dir combine_audio i speaker dialogue)
              (fun _ => ret tt))%io.

Definition generate (podcast_script : PodcastScript)
    (output_dir : string) (combine_audio : bool) : io (run A) (list string) :=
  (lift (mkdir os output_dir);;
   modify (fun st => mkrun (disk st) [] []);;
   for_each (segment_turn output_dir combine_audio)
            (enumerate (script podcast_script));;
   do st <- get;
   (if combine_audio && negb (bool_decide (audio_segments st = []))
    then
      do combined_path <- combine (audio_segments st) output_dir;
      modify (fun st => mkrun (disk st) (audio_segments st)
                              (output_files st ++ [combined_path]))
    else ret tt);;
   do st <- get;
   ret (output_files st))%io.

(** The segment a line yields when its turn goes through: the waveform
    was synthesized and its file written. *)
Definition attempt (output_dir : string)
    (p : nat * list (string * string)) : option (AudioSegment.t A) :=
  let '(i, line_dict) := p in
  match line_dict with
  | [] => None
  | (speaker, dialogue) :: _ =>
      match synth speaker dialogue with
      | Ok segment_audio =>
          if sf_writable os (segment_path output_dir i speaker)
          then Some (AudioSegment.mk speaker dialogue segment_audio
                       (Qmake (Z.of_nat (length segment_audio)) rate)
                       (segment_path output_dir i speaker))
          else None
      | Raise _ => None
      end
  end.

(** The segments of the lines that succeed, in script order. *)
Definition produced (output_dir : string)
    (lines : list (list (string * string))) : list (AudioSegment.t A) :=
  omap (attempt output_dir) (enumerate lines).

Definition succeeded_paths (output_dir : string)
    (lines : list (list (string * string))) : list string :=
  map AudioSegment.file_path (produced output_dir lines).

(** Every line of the script succeeds. *)
Definition all_succeed (output_dir : string)
    (lines : list (list (string * string))) : bool :=
  forallb (fun p => bool_decide (is_Some (attempt output_dir p)))
          (enumerate lines).

(** The state after the turn that produced [segment]. *)
Definition record_segment (combine_audio : bool) (st : run A)
    (segment : AudioSegment.t A) : run A :=
  mkrun (<[AudioSegment.file_path segment
          := (AudioSegment.audio_data segment, rate)]> (disk st))
        (audio_segments st ++ (if combine_audio then [segment] else []))
        (output_files st ++ [AudioSegment.file_path segment]).

(** The disk after the segment files were written. *)
Definition store (d : gmap string (list A * positive))
    (segments : list (AudioSegment.t A)) : gmap string (list A * positive) :=
  foldl (fun d segment =>
           <[AudioSegment.file_path segment
             := (AudioSegment.audio_data segment, rate)]> d)
        d segments.

End Engine.
End Engine.

(** The shared notions at each engine. *)
Definition kokoro_attempt {A} (os : Os) (self : PodcastTTSGenerator.t A) :=
  Engine.attempt os (PodcastTTSGenerator._generate_single_segment self)
    (PodcastTTSGenerator.sample_rate self).

Definition kokoro_produced {A} (os : Os) (self : PodcastTTSGenerator.t A) :=
  Engine.produced os (PodcastTTSGenerator._generate_single_segment self)
    (PodcastTTSGenerator.sample_rate self).

Definition kokoro_all_succeed {A} (os : Os) (self : PodcastTTSGenerator.t A) :=
  Engine.all_succeed os (PodcastTTSGenerator._generate_single_segment self)
    (PodcastTTSGenerator.sample_rate self).

Definition chatterbox_attempt {A} `{Sample A} (os : Os)
    (self : ChatterboxTTSGenerator.t A) :=
  Engine.attempt os (chatterbox_synth self) (ChatterboxTTSGenerator.sr self).

Definition chatterbox_produced {A} `{Sample A} (os : Os)
    (self : ChatterboxTTSGenerator.t A) :=
  Engine.produced os (chatterbox_synth self) (ChatterboxTTSGenerator.sr self).

Definition chatterbox_all_succeed {A} `{Sample A} (os : Os)
    (self : ChatterboxTTSGenerator.t A) :=
  Engine.all_succeed os (chatterbox_synth self)
    (ChatterboxTTSGenerator.sr self).

(** The path of the segment file of each line, whatever its outcome. *)
Definition all_paths (output_dir : string)
    (lines : list (list (string * string))) : list string :=
  map (fun p : nat * list (string * string) =>
         segment_path output_dir p.1
           match p.2 with (speaker, _) :: _ => speaker | [] => EmptyString end)
      (enumerate lines).

(** The combined waveform as the specification words it: the waveforms
    put end to end with one [gap] between each two neighbours and none
    after the last. *)
Fixpoint with_gaps {A} (gap : list A) (waves : list (list A)) : list A :=
  match waves with
  | [] => []
  | [w] => w
  | w :: rest => w ++ gap ++ with_gaps gap rest
  end.

Definition total_samples {A} (waves : list (list A)) : nat :=
  foldr (fun w n => (length w + n)%nat) O waves.

(** ** Definitions used to state the properties *)

(** The last character of a string, if any. *)
Fixpoint last_char (s : string) : option ascii :=
  match s with
  | EmptyString => None
  | String c EmptyString => Some c
  | String _ s' => last_char s'
  end.

(** Whitespace-only strings, the empty one included. *)
Fixpoint all_ws (s : string) : bool :=
  match s with
  | EmptyString => true
  | String c s' => Str.isspace c && all_ws s'
  end.

(** [sentence] with the full stop the sentence loop appends when it does
    not end in a terminal. *)
Definition terminated (sentence : string) : string :=
  if negb (Str.endswith_any sentence terminals)
  then sentence +:+ "." else sentence.

(** The sentences of a text as the sentence loop sees them: the pieces
    of the regular-expression split, stripped, the empty ones dropped. *)
Definition sentence_content (text : string) : list string :=
  filter (fun s => s <> EmptyString) (map Str.strip (Re.split text)).

(** The first [n] characters of [s]. *)
Fixpoint take_chars (n : nat) (s : string) : string :=
  match n, s with
  | S k, String c s' => String c (take_chars k s')
  | _, _ => EmptyString
  end.

(** [d] is, as a whole, one match of the sentence delimiter. *)
Definition is_delimiter (d : string) : bool :=
  negb (Str.is_empty d) && (Re.match_len d =? String.length d)%nat.

(** [pieces] put back together with [delims] between them. *)
Fixpoint interleave (pieces delims : list string) : string :=
  match pieces, delims with
  | [], _ => EmptyString
  | piece :: pieces', d :: delims' =>
      piece +:+ d +:+ interleave pieces' delims'
  | piece :: pieces', [] => piece +:+ Str.concat pieces'
  end.

(** The words of a list of strings, in order. *)
Definition words_of (parts : list string) : list string :=
  flat_map Str.split parts.

(** The words held by a loop state [(phases, current)]. *)
Definition held (st : list string * string) : list string :=
  words_of st.1 ++ Str.split st.2.

(** [device or self._detect_device()]: the device construction starts
    with. *)
Definition resolved_device {A} (torch : Torch A) (device : option string)
  : string :=
  match device with
  | Some d =>
      if Str.is_empty d then ChatterboxTTSGenerator._detect_device torch
      else d
  | None => ChatterboxTTSGenerator._detect_device torch
  end.

(** The outcome of a run in which exactly the lines behind [segments]
    succeeded: what is returned, and which files the run wrote. *)
Definition partial_run {A} (os : Os) (output_dir : string)
    (combine_audio : bool) (segments : list (AudioSegment.t A))
    (st : run A) (out : run A * res (list string)) : Prop :=
  let paths := map AudioSegment.file_path segments in
  out.2 = (if combine_audio && negb (bool_decide (segments = []))
           then if sf_writable os (combined_path output_dir)
                then Ok (paths ++ [combined_path output_dir])
                else Raise OSError
           else Ok paths)
  /\ output_files out.1
     = match out.2 with Ok returned => returned | Raise _ => paths end
  /\ (forall segment, segment ∈ segments ->
        is_Some (disk out.1 !! AudioSegment.file_path segment))
  /\ (forall path, path ∉ paths -> path <> combined_path output_dir ->
        disk out.1 !! path = disk st !! path).

(** ** Concrete objects for the examples *)

#[export] Instance sample_Z : Sample Z := 0.

Definition demo_os : Os := {|
  mkdir := fun _ => Ok tt;
  sf_writable := fun _ => true;
  os_path_exists := fun path =>
    String.eqb path "voice.wav" || String.eqb path "other.wav"
|}.

(** A pipeline that fails on one particular line. *)
Definition demo_kokoro : PodcastTTSGenerator.t Z :=
  PodcastTTSGenerator.mk 10
    (fun text voice =>
       if String.eqb text "Boom." then Raise RuntimeError
       else Ok [[1; 2; 3]])
    "af_heart".

Definition demo_model : Model Z := {|
  model_sr := 10;
  generate := fun text audio_prompt_path =>
    if String.eqb text "Boom." then Raise RuntimeError else Ok [4; 5]
|}.

Definition demo_chatterbox : ChatterboxTTSGenerator.t Z :=
  ChatterboxTTSGenerator.mk "cpu" library_load demo_model 10 None.

Definition empty_script : PodcastScript :=
  {| script := []; source_document := "Test"; total_lines := 0;
     estimated_duration := "0 minutes" |}.

Definition demo_script : PodcastScript :=
  {| script := [[("Speaker", "Hello there.")]; [("Speaker", "Bye.")]];
     source_document := "Test"; total_lines := 2;
     estimated_duration := "1 minute" |}.

Definition failing_script : PodcastScript :=
  {| script := [[("Speaker", "Hello there.")]; [("Speaker", "Boom.")];
                [("Speaker", "Bye.")]];
     source_document := "Test"; total_lines := 3;
     estimated_duration := "1 minute" |}.

Definition fresh_run : run Z := mkrun ∅ [] [].

(** A machine with a GPU on which the model loads on the CPU only. *)
Definition demo_torch : Torch Z := {|
  CHATTERBOX_AVAILABLE := true;
  cuda_is_available := true;
  mps_is_available := false;
  from_pretrained := fun load device =>
    if String.eqb device "cpu" then Ok demo_model else Raise RuntimeError
|}.

Definition demo_process : process := mkprocess library_load ∅ [].

Definition demo_segments : list (AudioSegment.t Z) :=
  [AudioSegment.mk "Speaker" "Hi." [1; 2] (Qmake 2 10)
     "out/segment_001_speaker.wav";
   AudioSegment.mk "Speaker" "Bye." [3] (Qmake 1 10)
     "out/segment_002_speaker.wav"].

(** ** Script validation of [src/podcast/script_generator.py] *)

(** A value of a line object as [json.loads] returns it: a [str], or
    anything else (number, boolean, [None], list, object). *)
Inductive json_value : Type :=
| JString (s : string)
| JOther.

(** An element of the [script] array: a [dict], kept as its items in
    insertion order, or another value. *)
Inductive json_item : Type :=
| JDict (items : list (string * json_value))
| JNotDict.

(** The exceptions the validation can end with: the [ValueError] it
    raises itself, and the [AttributeError] of [dialogue.strip()] on a
    value that is not a [str]. *)
Inductive script_exn : Type :=
| ScriptValueError
| ScriptAttributeError.

Module PodcastScriptGenerator.

(** [for item in script] of [_validate_and_clean_script], over
    [cleaned_script]. *)
Fixpoint validate_loop (script : list json_item)
    (cleaned_script : list (list (string * string)))
  : script_exn + list (list (string * string)) :=
  match script with
  | [] => inr cleaned_script
  | item :: script' =>
      match item with
      | JDict [(speaker, dialogue)] =>
          let speaker := Str.strip speaker in
          let speaker :=
            if negb (bool_decide (Str.lower speaker ∈ ["speaker"]))
            then "Speaker" else speaker in
          match dialogue with
          | JOther => inl ScriptAttributeError
          | JString dialogue =>
              let dialogue := Str.strip dialogue in
              if Str.is_empty dialogue
              then validate_loop script' cleaned_script
              else
                let dialogue :=
                  if negb (Str.endswith_any dialogue ["."; "!"; "?"])
                  then dialogue +:+ "." else dialogue in
                validate_loop script'
                  (cleaned_script ++ [[(speaker, dialogue)]])
          end
      | _ => validate_loop script' cleaned_script
      end
  end.

Definition _validate_and_clean_script (script : list json_item)
  : script_exn + list (list (string * string)) :=
  match validate_loop script [] with
  | inl e => inl e
  | inr cleaned_script =>
      if (length cleaned_script <? 2)%nat then inl ScriptValueError
      else inr cleaned_script
  end.

End PodcastScriptGenerator.

(** A line as the validation leaves it: one entry, whose speaker lowers
    to [speaker] and has no whitespace at its ends, and whose dialogue
    is not empty, has no whitespace at its ends and ends in a terminal. *)
Definition clean_line (line_dict : list (string * string)) : Prop :=
  exists speaker dialogue,
    line_dict = [(speaker, dialogue)]
    /\ Str.lower speaker = "speaker" /\ Str.strip speaker = speaker
    /\ dialogue <> EmptyString /\ Str.strip dialogue = dialogue
    /\ Str.endswith_any dialogue terminals = true.

(** An item the validation keeps: a [dict] of one entry whose value is a
    string with something other than whitespace in it. *)
Definition usable (item : json_item) : bool :=
  match item with
  | JDict [(_, JString dialogue)] => negb (all_ws dialogue)
  | _ => false
  end.

(** An item the validation fails on: a [dict] of one entry whose value
    is not a string. *)
Definition ill_typed (item : json_item) : bool :=
  match item with
  | JDict [(_, JOther)] => true
  | _ => false
  end.

(** A line of a script as the item [json.loads] would give for it. *)
Definition as_item (line_dict : list (string * string)) : json_item :=
  JDict (map (fun entry : string * string => (entry.1, JString entry.2))
             line_dict).

(** A response with a renamed speaker, a stray value, a blank line and
    a line that needs nothing. *)
Definition demo_items : list json_item :=
  [JDict [("Host", JString "  Hello there  ")]; JNotDict;
   JDict [("Speaker", JString "   ")];
   JDict [("Speaker", JString "Bye.")]].

(** ** Construction of the fixed-voice engine *)

(** The calls construction makes outside the repository, in the order
    they are made. *)
Inductive external_call : Type :=
| Mkdir (path : string)
| SpacyDownload (model_name : string)
| SnapshotDownload (repo_id : string) (cache_dir : option string)
| KPipelineCall (lang_code repo_id : string).

(** The process as construction sees it: [os.environ] and the record of
    the outside calls made so far. *)
Record host : Type := mkhost {
  os_environ : gmap string string;
  calls : list external_call
}.

(** What is installed on the machine.  [KPipeline], [is_package] and
    [snapshot_download] are [None] when their import failed.  A
    [pathlib.Path] is kept as its [str]: [path_str s] is [str(Path(s))],
    [path_div p name] is [str(Path(p) / name)] and [path_home] is
    [str(Path.home())]; [path_mkdir p] is
    [Path(p).mkdir(parents=True, exist_ok=True)].  [Path.home()] and
    [is_package] are taken to return, and the outside calls to leave
    [os.environ] alone. *)
Record Kokoro (A : Type) : Type := {
  KPipeline :
    option (string -> string -> res (string -> string -> res (list (list A))));
  path_home : string;
  path_str : string -> string;
  path_div : string -> string -> string;
  path_mkdir : string -> res unit;
  is_package : option (string -> bool);
  spacy_download : string -> res unit;
  snapshot_download : option (string -> option string -> res unit)
}.
Arguments KPipeline {A}.
Arguments path_home {A}.
Arguments path_str {A}.
Arguments path_div {A}.
Arguments path_mkdir {A}.
Arguments is_package {A}.
Arguments spacy_download {A}.
Arguments snapshot_download {A}.

Module KokoroInit.
Section Methods.
Context {A : Type}.
Variable kokoro : Kokoro A.

Definition call (c : external_call) : io host unit :=
  modify (fun h => mkhost (os_environ h) (calls h ++ [c])).

(** [os.getenv(name, default)] *)
Definition getenv (h : host) (name default : string) : string :=
  match os_environ h !! name with Some value => value | None => default end.

(** [os.environ.setdefault(name, value)] *)
Definition setdefault (name value : string) : io host unit :=
  modify (fun h =>
            match os_environ h !! name with
            | Some _ => h
            | None => mkhost (<[name := value]> (os_environ h)) (calls h)
            end).

Definition mkdir_parents (path : string) : io host unit :=
  (call (Mkdir path);; lift (path_mkdir kokoro path))%io.

(** [Path(os.getenv("PODCAST_CACHE_DIR", Path.home() / ".podsite_cache"))] *)
Definition cache_root (h : host) : string :=
  match os_environ h !! "PODCAST_CACHE_DIR" with
  | Some value => path_str kokoro value
  | None => path_div kokoro (path_home kokoro) ".podsite_cache"
  end.

Definition _configure_cache_dirs : io host unit :=
  (do h <- get;
   let cache_root := cache_root h in
   mkdir_parents cache_root;;
   let hf_cache := path_div kokoro cache_root "huggingface" in
   let kokoro_cache := path_div kokoro cache_root "kokoro" in
   mkdir_parents hf_cache;;
   mkdir_parents kokoro_cache;;
   setdefault "HF_HOME" hf_cache;;
   setdefault "KOKORO_HOME" kokoro_cache;;
   setdefault "KOKORO_REPO_ID" "hexgrad/Kokoro-82M")%io.

Definition _ensure_spacy_model : io host unit :=
  match is_package kokoro with
  | None => ret tt
  | Some is_package =>
      let model_name := "en_core_web_sm" in
      if is_package model_name then ret tt
      else
        try_except
          (call (SpacyDownload model_name);;
           lift (spacy_download kokoro model_name))%io
          (fun _ => ret tt)
  end.

Definition _warm_kokoro_cache : io host unit :=
  match snapshot_download kokoro with
  | None => ret tt
  | Some snapshot_download =>
      (do h <- get;
       let repo_id := getenv h "KOKORO_REPO_ID" "hexgrad/Kokoro-82M" in
       try_except
         (let cache_dir := os_environ h !! "HF_HOME" in
          call (SnapshotDownload repo_id cache_dir);;
          lift (snapshot_download repo_id cache_dir))
         (fun _ => ret tt))%io
  end.

(** [PodcastTTSGenerator.__init__]; the sample rate is positive. *)
Definition __init__ (lang_code : string) (sample_rate : positive)
  : io host (PodcastTTSGenerator.t A) :=
  match KPipeline kokoro with
  | None => raise ImportError
  | Some KPipeline =>
      (_configure_cache_dirs;;
       _ensure_spacy_model;;
       _warm_kokoro_cache;;
       do h <- get;
       let repo_id := getenv h "KOKORO_REPO_ID" "hexgrad/Kokoro-82M" in
       call (KPipelineCall lang_code repo_id);;
       do pipeline <- lift (KPipeline lang_code repo_id);
       ret (PodcastTTSGenerator.mk sample_rate pipeline "af_heart"))%io
  end.

End Methods.
End KokoroInit.

(** The three directories [_configure_cache_dirs] makes can be made. *)
Definition cache_dirs_ok {A} (kokoro : Kokoro A) (h : host) : Prop :=
  let root := KokoroInit.cache_root kokoro h in
  path_mkdir kokoro root = Ok tt
  /\ path_mkdir kokoro (path_div kokoro root "huggingface") = Ok tt
  /\ path_mkdir kokoro (path_div kokoro root "kokoro") = Ok tt.

(** The value [_configure_cache_dirs] gives a variable that has none. *)
Definition cache_default {A} (kokoro : Kokoro A) (h : host) (name : string)
  : option string :=
  let root := KokoroInit.cache_root kokoro h in
  if String.eqb name "HF_HOME"
  then Some (path_div kokoro root "huggingface")
  else if String.eqb name "KOKORO_HOME"
  then Some (path_div kokoro root "kokoro")
  else if String.eqb name "KOKORO_REPO_ID" then Some "hexgrad/Kokoro-82M"
  else None.

(** A machine with everything installed on which the downloads fail. *)
Definition demo_host_kokoro : Kokoro Z := {|
  KPipeline := Some (fun lang_code repo_id =>
                       Ok (fun text voice => Ok [[1; 2; 3]]));
  path_home := "/home/me";
  path_str := fun s => s;
  path_div := fun p name => p +:+ "/" +:+ name;
  path_mkdir := fun _ => Ok tt;
  is_package := Some (fun _ => false);
  spacy_download := fun _ => Raise RuntimeError;
  snapshot_download := Some (fun _ _ => Raise OSError)
|}.

Definition demo_host : host :=
  mkhost (<["HF_HOME" := "/data/hf"]> ∅) [].

(** ** Further definitions used to state properties *)

(** A non-empty string with no whitespace at either end. *)
Definition tight (s : string) : bool :=
  match s with
  | EmptyString => false
  | String c _ => negb (Str.isspace c)
  end
  && match last_char s with
     | Some c => negb (Str.isspace c)
     | None => false
     end.

(** [sep.join(parts)] *)
Fixpoint join_with (sep : string) (parts : list string) : string :=
  match parts with
  | [] => EmptyString
  | [x] => x
  | x :: rest => x +:+ sep +:+ join_with sep rest
  end.

(** A string that is empty or ends in whitespace. *)
Definition ends_blank (s : string) : bool :=
  match last_char s with
  | None => true
  | Some c => Str.isspace c
  end.

(** [audio_prompt_path] as the phase loop passes it: the reference path
    when one is set and is not the empty string. *)
Definition active_prompt {A} (self : ChatterboxTTSGenerator.t A)
  : option string :=
  match ChatterboxTTSGenerator.reference_audio_path self with
  | Some path => if negb (Str.is_empty path) then Some path else None
  | None => None
  end.

(** Decimal digits, to read the number back out of a file name. *)
Definition is_digit (c : ascii) : bool :=
  match Ascii.is_nat c with Some _ => true | None => false end.

Fixpoint all_digits (s : string) : bool :=
  match s with
  | EmptyString => true
  | String c s' => is_digit c && all_digits s'
  end.

(** The number a string of decimal digits stands for, read after [acc]. *)
Fixpoint digits_value (acc : N) (s : string) : N :=
  match s with
  | EmptyString => acc
  | String c s' =>
      digits_value (acc * 10 + N.of_nat (default O (Ascii.is_nat c))) s'
  end.

(** [old in s] *)
Fixpoint occurs (old s : string) : bool :=
  String.prefix old s
  || match s with
     | EmptyString => false
     | String _ s' => occurs old s'
     end.

(** A script whose second line has lost its entry. *)
Definition broken_script : PodcastScript :=
  {| script := [[("Speaker", "Hello there.")]; []; [("Speaker", "Bye.")]];
     source_document := "Test"; total_lines := 3;
     estimated_duration := "1 minute" |}.

(** [p] is a chunk of [phase] cut at word boundaries: a run of
    consecutive words of [phase] joined by single spaces, within the
    bound unless it is one word. *)
Definition chunk_of (max_chars_per_phase : Z) (phase p : string) : Prop :=
  exists before words after,
    Str.split phase = before ++ words ++ after
    /\ words <> []
    /\ p = join_with " " words
    /\ (len p <= max_chars_per_phase
        \/ (exists w, words = [w]) /\ Str.has_ws p = false).

(** [phase] is built from a run of consecutive sentences of [text],
    each with its terminal, joined by single spaces; it is within the
    bound, counted without the last joining space, unless it is one
    sentence. *)
Definition built_from (max_chars_per_phase : Z) (text phase : string)
  : Prop :=
  exists before sentences after,
    sentence_content text = before ++ sentences ++ after
    /\ sentences <> []
    /\ phase = join_with " " (map terminated sentences)
    /\ (len phase <= max_chars_per_phase + 1 \/ exists s, sentences = [s]).

(** The pieces of a group, each through [f], joined by single spaces. *)
Definition joined (f : string -> string) (g : list string) : string :=
  join_with " " (map f g).


(** ** The content of a text, stated on the text itself *)

(** One of [.], [!] and [?]. *)
Definition sentence_end (c : ascii) : bool :=
  Ascii.eqb c "." || Ascii.eqb c "!" || Ascii.eqb c "?".

Fixpoint all_sentence_ends (s : string) : bool :=
  match s with
  | EmptyString => true
  | String c s' => sentence_end c && all_sentence_ends s'
  end.

(** A sentence delimiter: one or more of [.], [!] and [?] followed by
    one or more whitespace characters. *)
Definition delimiter (d : string) : Prop :=
  exists marks blanks,
    d = marks +:+ blanks
    /\ marks <> EmptyString /\ all_sentence_ends marks = true
    /\ blanks <> EmptyString /\ all_ws blanks = true.

(** Somewhere in [s] one of [.], [!], [?] is directly followed by
    whitespace: a delimiter ends and begins there. *)
Fixpoint has_break (s : string) : bool :=
  match s with
  | String a (String b _ as s') =>
      sentence_end a && Str.isspace b || has_break s'
  | _ => false
  end.

Definition starts_blank (s : string) : bool :=
  match s with
  | String c _ => Str.isspace c
  | EmptyString => false
  end.

Definition ends_in_mark (s : string) : bool :=
  match last_char s with
  | Some c => sentence_end c
  | None => false
  end.

(** [pieces] and [delims] are a text cut at all its delimiters, taken
    from the left and as long as they can be: a piece holds no
    delimiter, a piece before a delimiter does not end in [.], [!] or
    [?], and a piece after one does not start with whitespace. *)
Fixpoint cut_at_delimiters (pieces delims : list string) : Prop :=
  match pieces with
  | [] => False
  | piece :: pieces' =>
      has_break piece = false
      /\ match delims with
         | [] => pieces' = []
         | d :: delims' =>
             ends_in_mark piece = false /\ delimiter d
             /\ starts_blank (hd EmptyString pieces') = false
             /\ cut_at_delimiters pieces' delims'
         end
  end.

(** What the phases hold of one piece: nothing of a blank piece, and
    otherwise its characters other than whitespace, with a full stop
    after them unless they end in [.], [!] or [?]. *)
Definition kept (piece : string) : string :=
  let content := Str.remove_ws piece in
  if Str.is_empty content then EmptyString
  else if ends_in_mark content then content else content +:+ ".".

(** A script none of whose lines the demonstration engines can
    synthesize. *)
Definition silent_script : PodcastScript :=
  {| script := [[("Speaker", "Boom.")]; [("Speaker", "Boom.")]];
     source_document := "Test"; total_lines := 2;
     estimated_duration := "1 minute" |}.

(** * Properties *)

(** ** Strings *)

Lemma str_app_cons c s t : String c s +:+ t = String c (s +:+ t).
Proof. reflexivity. Qed.

Lemma str_app_nil_l s : EmptyString +:+ s = s.
Proof. reflexivity. Qed.

Lemma str_app_nil_r s : s +:+ EmptyString = s.
Proof. induction s as [|c s IH]; [done|]. by rewrite str_app_cons, IH. Qed.

Lemma str_app_assoc s t u : (s +:+ t) +:+ u = s +:+ (t +:+ u).
Proof. induction s as [|c s IH]; [done|]. by rewrite !str_app_cons, IH. Qed.

Lemma str_length_app s t :
  String.length (s +:+ t) = (String.length s + String.length t)%nat.
Proof. induction s as [|c s IH]; [done|]. rewrite str_app_cons. simpl. lia. Qed.

Lemma len_app s t : len (s +:+ t) = len s + len t.
Proof. unfold len. rewrite str_length_app. lia. Qed.

Lemma len_nonneg s : 0 <= len s.
Proof. unfold len. lia. Qed.

Lemma is_empty_true s : Str.is_empty s = true -> s = EmptyString.
Proof. by destruct s. Qed.

Lemma last_char_app s c : last_char (s +:+ String c EmptyString) = Some c.
Proof.
  induction s as [|a s IH]; [done|].
  rewrite str_app_cons. simpl.
  destruct (s +:+ String c EmptyString) eqn:E; [by destruct s | exact IH].
Qed.

Lemma endswith_refl s : Str.endswith s s = true.
Proof. destruct s; cbn [Str.endswith]; by rewrite String.eqb_refl. Qed.

Lemma endswith_app s suffix : Str.endswith (s +:+ suffix) suffix = true.
Proof.
  induction s as [|c s IH]; [apply endswith_refl|].
  rewrite str_app_cons. cbn [Str.endswith]. rewrite IH.
  by destruct (String.eqb _ _).
Qed.

Lemma endswith_char_last s c :
  Str.endswith s (String c EmptyString) = true -> last_char s = Some c.
Proof.
  induction s as [|a s IH]; [done|].
  cbn [Str.endswith].
  destruct (String.eqb_spec (String a s) (String c EmptyString)) as [E|_].
  - by injection E as -> ->.
  - intros Hs. specialize (IH Hs). destruct s; [done|]. exact IH.
Qed.

Lemma endswith_terminal_last s :
  Str.endswith_any s terminals = true ->
  exists c, last_char s = Some c /\ Re.is_terminal c = true.
Proof.
  unfold Str.endswith_any, terminals. simpl.
  rewrite !orb_true_iff.
  intros [E|[E|[E|E]]]; [| | |done];
    apply endswith_char_last in E; eauto.
Qed.

Lemma lstrip_all_ws s : all_ws s = true -> Str.lstrip s = EmptyString.
Proof.
  induction s as [|c s IH]; [done|]. simpl.
  intros [Hc Hs]%andb_true_iff. rewrite Hc. auto.
Qed.

(** ** Text Normalizer *)

Example clean_demo1 :
  _clean_text_for_tts "  Wait... what??  " = "Wait. what?".
Proof. reflexivity. Qed.

Example clean_demo2 : _clean_text_for_tts "hello" = "hello.".
Proof. reflexivity. Qed.

Example clean_demo3 : _clean_text_for_tts "a....b!!!" = "a..b!!".
Proof. reflexivity. Qed.

(** C4. For every input string, the Text Normalizer returns a string
    whose last character is a full stop, an exclamation mark or a
    question mark. *)
Theorem clean_text_ends_in_terminal (text : string) :
  exists c, last_char (_clean_text_for_tts text) = Some c
            /\ Re.is_terminal c = true.
Proof.
  unfold _clean_text_for_tts.
  set (clean_text := Str.replace "??" "?" _).
  destruct (Str.endswith_any clean_text terminals) eqn:E; simpl.
  - by apply endswith_terminal_last.
  - exists "."%char. split; [apply last_char_app | done].
Qed.

(** C10. The Text Normalizer is a total function on strings, and on
    every input made of whitespace only, the empty string included, it
    returns the one-character string of a full stop. *)
Theorem clean_text_of_blank (text : string) :
  all_ws text = true -> _clean_text_for_tts text = ".".
Proof.
  intros Hws. unfold _clean_text_for_tts, Str.strip.
  by rewrite (lstrip_all_ws _ Hws).
Qed.

Lemma clean_text_of_blank_witness :
  all_ws "  " = true /\ _clean_text_for_tts "  " = ".".
Proof.
  split; [reflexivity | apply (clean_text_of_blank "  "); reflexivity].
Defined.

(** ** Phase Splitter: strips, words and examples *)

Lemma length_lstrip s : (String.length (Str.lstrip s) <= String.length s)%nat.
Proof.
  induction s as [|c s IH]; simpl; [lia|].
  destruct (Str.isspace c); simpl; lia.
Qed.

Lemma length_rstrip s : (String.length (Str.rstrip s) <= String.length s)%nat.
Proof.
  induction s as [|c s IH]; simpl; [lia|].
  destruct (Str.rstrip s); [destruct (Str.isspace c)|]; simpl in *; lia.
Qed.

Lemma len_strip s : len (Str.strip s) <= len s.
Proof.
  unfold len, Str.strip.
  pose proof (length_rstrip (Str.lstrip s)). pose proof (length_lstrip s). lia.
Qed.

Lemma rstrip_no_ws s : Str.has_ws s = false -> Str.rstrip s = s.
Proof.
  induction s as [|c s IH]; [done|]. simpl.
  intros [Hc Hs]%orb_false_iff. rewrite (IH Hs), Hc. by destruct s.
Qed.

Lemma strip_no_ws s : Str.has_ws s = false -> Str.strip s = s.
Proof.
  intros Hs. unfold Str.strip.
  assert (Str.lstrip s = s) as ->; [|by apply rstrip_no_ws].
  destruct s as [|c s]; [done|]. simpl in *.
  apply orb_false_iff in Hs as [-> _]. done.
Qed.

Lemma split_words s :
  Forall (fun w => Str.has_ws w = false /\ w <> EmptyString) (Str.split s).
Proof.
  induction s as [|c s IH]; simpl; [constructor|].
  destruct (Str.isspace c) eqn:Hc; [done|].
  destruct s as [|c' s']; [by repeat constructor; simpl; rewrite ?Hc|].
  destruct (Str.isspace c') eqn:Hc'.
  - constructor; [|done]. simpl. by rewrite Hc.
  - destruct (Str.split (String c' s')) as [|w ws].
    + repeat constructor; simpl; by rewrite ?Hc.
    + inversion IH as [|? ? [Hw _] Hws]; subst.
      constructor; [|done]. simpl. by rewrite Hc, Hw.
Qed.

Example split_demo1 :
  _split_text_into_phases "Hi there!  How are you?? Fine" 1000
  = ["Hi there. How are you. Fine."].
Proof. vm_compute. reflexivity. Qed.

Example split_demo2 :
  _split_text_into_phases "One. Two. Three." 9 = ["One. Two."; "Three."].
Proof. vm_compute. reflexivity. Qed.

Example split_demo3 :
  _split_text_into_phases "aaaa bbbbbb cc dddddddddddd ee" 10
  = ["aaaa"; "bbbbbb cc"; "dddddddddddd"; "ee."].
Proof. vm_compute. reflexivity. Qed.

Example split_demo4 :
  Re.split "a.b. c!?  d. " = ["a.b"; "c"; "d"; EmptyString].
Proof. vm_compute. reflexivity. Qed.

(** The separating space is not counted by the sentence loop: two
    sentences of five characters give a phase of eleven under a bound of
    ten. *)
Example split_demo5 :
  _split_text_into_phases "aaaa. bbbb." 10 = ["aaaa. bbbb."].
Proof. vm_compute. reflexivity. Qed.

(** ** Phase Splitter: content *)



Lemma str_concat_cons x l : Str.concat (x :: l) = x +:+ Str.concat l.
Proof. done. Qed.


Lemma words_of_app l1 l2 : words_of (l1 ++ l2) = words_of l1 ++ words_of l2.
Proof. apply flat_map_app. Qed.

Lemma words_of_singleton x : words_of [x] = Str.split x.
Proof. unfold words_of. simpl. apply List.app_nil_r. Qed.



(** *** Words *)

(** One unfolding of [Str.split]. *)
Lemma split_step c s :
  Str.split (String c s)
  = if Str.isspace c then Str.split s
    else match s with
         | EmptyString => [String c EmptyString]
         | String c' _ =>
             if Str.isspace c' then String c EmptyString :: Str.split s
             else match Str.split s with
                  | w :: ws => String c w :: ws
                  | [] => [String c EmptyString]
                  end
         end.
Proof. reflexivity. Qed.

Lemma split_head c s :
  Str.isspace c = false ->
  exists w ws, Str.split (String c s) = String c w :: ws.
Proof.
  intros Hc. rewrite split_step, Hc.
  destruct s as [|c' s']; [by eauto|].
  destruct (Str.isspace c'); [by eauto|].
  destruct (Str.split (String c' s')); by eauto.
Qed.

Lemma split_all_ws s : all_ws s = true -> Str.split s = [].
Proof.
  induction s as [|c s IH]; [done|]. simpl all_ws.
  intros [Hc Hs]%andb_true_iff. rewrite split_step, Hc. auto.
Qed.

(** A whitespace character between two strings separates their words. *)
Lemma split_app_ws a c b :
  Str.isspace c = true ->
  Str.split (a +:+ String c b) = Str.split a ++ Str.split b.
Proof.
  intros Hc. induction a as [|x a IH].
  { rewrite str_app_nil_l, split_step, Hc. done. }
  rewrite str_app_cons, (split_step x a), (split_step x (a +:+ _)).
  destruct (Str.isspace x) eqn:Hx; [done|].
  destruct a as [|y a'].
  { rewrite str_app_nil_l, Hc, split_step, Hc. done. }
  rewrite str_app_cons in *.
  destruct (Str.isspace y) eqn:Hy.
  - by rewrite IH.
  - rewrite IH. destruct (split_head y a' Hy) as (w & ws & ->). done.
Qed.

Lemma split_app_all_ws s w :
  all_ws w = true -> Str.split (s +:+ w) = Str.split s.
Proof.
  destruct w as [|c w']; [by rewrite str_app_nil_r|]. simpl all_ws.
  intros [Hc Hw]%andb_true_iff.
  by rewrite split_app_ws, (split_all_ws w'), List.app_nil_r.
Qed.

Lemma split_lstrip s : Str.split (Str.lstrip s) = Str.split s.
Proof.
  induction s as [|c s IH]; [done|]. cbn [Str.lstrip].
  destruct (Str.isspace c) eqn:Hc; [|done]. by rewrite split_step, Hc.
Qed.

Lemma rstrip_tail s :
  exists w, s = Str.rstrip s +:+ w /\ all_ws w = true.
Proof.
  induction s as [|c s (w & Hs & Hw)]; [by exists EmptyString|].
  cbn [Str.rstrip]. destruct (Str.rstrip s) as [|a r].
  - rewrite str_app_nil_l in Hs. subst w.
    destruct (Str.isspace c) eqn:Hc.
    + exists (String c s). split; [done|]. simpl. by rewrite Hc.
    + by exists s.
  - exists w. split; [|done]. rewrite str_app_cons. by f_equal.
Qed.

Lemma split_rstrip s : Str.split (Str.rstrip s) = Str.split s.
Proof.
  destruct (rstrip_tail s) as (w & Hs & Hw).
  rewrite Hs at 2. by rewrite split_app_all_ws.
Qed.

Lemma split_strip s : Str.split (Str.strip s) = Str.split s.
Proof. unfold Str.strip. by rewrite split_rstrip, split_lstrip. Qed.

Lemma split_word w :
  Str.has_ws w = false -> w <> EmptyString -> Str.split w = [w].
Proof.
  induction w as [|c w IH]; [done|]. simpl Str.has_ws.
  intros [Hc Hw]%orb_false_iff _. rewrite split_step, Hc.
  destruct w as [|c' w']; [done|].
  rewrite (IH Hw) by done. simpl in Hw.
  by apply orb_false_iff in Hw as [-> _].
Qed.

Lemma words_of_split s : words_of (Str.split s) = Str.split s.
Proof.
  pose proof (split_words s) as Hw.
  induction Hw as [|w ws [Hw Hne] _ IH]; [done|].
  unfold words_of in *. simpl. by rewrite IH, split_word.
Qed.

(** *** The loops keep the words *)

Lemma held_flush phases current :
  words_of (if negb (Str.is_empty (Str.strip current))
            then phases ++ [Str.strip current] else phases)
  = held (phases, current).
Proof.
  unfold held. simpl.
  destruct (Str.is_empty (Str.strip current)) eqn:E; simpl.
  - apply is_empty_true in E.
    by rewrite <- (split_strip current), E, List.app_nil_r.
  - by rewrite words_of_app, words_of_singleton, split_strip.
Qed.

Lemma held_step (M : Z) phases current piece :
  held (if (len current + len piece >? M) && negb (Str.is_empty current)
        then (phases ++ [Str.strip current], piece)
        else (phases,
              if negb (Str.is_empty current)
              then current +:+ " " +:+ piece else piece))
  = held (phases, current) ++ Str.split piece.
Proof.
  unfold held.
  destruct ((len current + len piece >? M) && negb (Str.is_empty current)).
  - simpl. by rewrite words_of_app, words_of_singleton, split_strip,
      <- List.app_assoc.
  - simpl. destruct current as [|c cur']; simpl negb; cbv iota.
    + by rewrite List.app_nil_r.
    + change (" " +:+ piece) with (String " " piece).
      by rewrite split_app_ws, <- List.app_assoc.
Qed.

Lemma word_step_held M st w :
  held (word_step M st w) = held st ++ Str.split w.
Proof.
  destruct st as [fp cur]. unfold word_step.
  assert ((len cur + len w + 1 >? M) = (len cur + (len w + 1) >? M)) as ->
    by (f_equal; lia).
  pose proof (held_step (M - 1) fp cur w) as Hs.
  assert ((len cur + len w >? M - 1) = (len cur + (len w + 1) >? M)) as E.
  { destruct (Z.gtb_spec (len cur + len w) (M - 1)),
             (Z.gtb_spec (len cur + (len w + 1)) M); lia || done. }
  by rewrite E in Hs.
Qed.

Lemma word_loop_held M words : forall st,
  held (foldl (word_step M) st words) = held st ++ words_of words.
Proof.
  induction words as [|w words IH]; intros st.
  { simpl. by rewrite List.app_nil_r. }
  cbn [foldl]. rewrite IH, word_step_held. unfold words_of. simpl.
  by rewrite <- List.app_assoc.
Qed.

Lemma word_chunks_words M final_phases phase :
  words_of (word_chunks M final_phases phase)
  = words_of final_phases ++ Str.split phase.
Proof.
  unfold word_chunks.
  pose proof (word_loop_held M (Str.split phase) (final_phases, EmptyString))
    as E.
  destruct (foldl _ _ _) as [fp cur].
  rewrite held_flush, E, words_of_split. unfold held. simpl.
  by rewrite List.app_nil_r.
Qed.

Lemma phase_loop_words M phases : forall final_phases,
  words_of (foldl (phase_step M) final_phases phases)
  = words_of final_phases ++ words_of phases.
Proof.
  induction phases as [|phase phases IH]; intros fp.
  { simpl. by rewrite List.app_nil_r. }
  cbn [foldl]. rewrite IH. unfold phase_step.
  destruct (very_long M phase).
  - rewrite word_chunks_words. unfold words_of. simpl.
    by rewrite <- List.app_assoc.
  - rewrite words_of_app, words_of_singleton. unfold words_of. simpl.
    by rewrite <- List.app_assoc.
Qed.

Lemma sentence_step_held M st sentence :
  held (sentence_step M st sentence)
  = held st
    ++ (if Str.is_empty (Str.strip sentence) then []
        else Str.split (terminated (Str.strip sentence))).
Proof.
  destruct st as [phases cur]. unfold sentence_step.
  destruct (Str.is_empty (Str.strip sentence)) eqn:Hs.
  { by rewrite List.app_nil_r. }
  fold (terminated (Str.strip sentence)). apply held_step.
Qed.

Lemma sentence_loop_held M sentences : forall st,
  held (foldl (sentence_step M) st sentences)
  = held st
    ++ words_of (map terminated
                     (filter (fun s => s <> EmptyString)
                             (map Str.strip sentences))).
Proof.
  induction sentences as [|x l IH]; intros st.
  { simpl. by rewrite List.app_nil_r. }
  cbn [foldl map]. rewrite IH, sentence_step_held, <- List.app_assoc. f_equal.
  rewrite filter_cons. destruct (Str.strip x) as [|c x'] eqn:Hx.
  - by rewrite decide_False by (by intros []).
  - by rewrite decide_True by done.
Qed.

(** The phases hold the words of the sentences, in order. *)
Lemma split_phases_words text M :
  words_of (_split_text_into_phases text M)
  = words_of (map terminated (sentence_content text)).
Proof.
  unfold _split_text_into_phases, sentence_content, sentence_phases.
  rewrite phase_loop_words.
  pose proof (sentence_loop_held M (Re.split text) ([], EmptyString)) as E.
  destruct (foldl _ _ _) as [phases cur].
  by rewrite held_flush, E.
Qed.


(** *** The regular-expression split drops delimiters only *)

Lemma take_drop n s : take_chars n s +:+ Re.drop n s = s.
Proof.
  revert s; induction n as [|n IH]; intros [|c s]; simpl; try done.
  by rewrite str_app_cons, IH.
Qed.

Lemma take_add a b s :
  take_chars (a + b) s = take_chars a s +:+ take_chars b (Re.drop a s).
Proof.
  revert s; induction a as [|a IH]; intros s; [by destruct s|].
  destruct s as [|c s]; [by destruct b|].
  simpl. by rewrite str_app_cons, IH.
Qed.

Lemma span_len_le p s : (Re.span_len p s <= String.length s)%nat.
Proof. induction s as [|c s IH]; simpl; [lia|]. destruct (p c); lia. Qed.

Lemma length_take_span p s :
  String.length (take_chars (Re.span_len p s) s) = Re.span_len p s.
Proof.
  induction s as [|c s IH]; simpl; [done|]. destruct (p c); simpl; lia.
Qed.

Lemma span_len_take p s r :
  Re.span_len p (take_chars (Re.span_len p s) s +:+ r)
  = (Re.span_len p s + Re.span_len p r)%nat.
Proof.
  induction s as [|c s IH]; simpl; [done|].
  destruct (p c) eqn:Hc; simpl; [|done].
  by rewrite Hc, IH.
Qed.

Lemma drop_take_span p s r :
  Re.drop (Re.span_len p s) (take_chars (Re.span_len p s) s +:+ r) = r.
Proof.
  induction s as [|c s IH]; simpl; [by destruct r|].
  destruct (p c) eqn:Hc; simpl; [done | by destruct r].
Qed.

Lemma space_not_terminal c : Str.isspace c = true -> Re.is_terminal c = false.
Proof. destruct c as [[] [] [] [] [] [] [] []]; by vm_compute. Qed.

Lemma match_len_le s : (Re.match_len s <= String.length s)%nat.
Proof.
  unfold Re.match_len. destruct (_ && _); [|lia].
  pose proof (span_len_le Re.is_terminal s) as Hp.
  pose proof (span_len_le Str.isspace
                (Re.drop (Re.span_len Re.is_terminal s) s)) as Hs.
  assert (forall n t, (n <= String.length t)%nat ->
            String.length (Re.drop n t) = (String.length t - n)%nat) as Hd.
  { clear. induction n as [|n IH]; intros [|c t] Hn; simpl in *; try lia.
    apply IH. lia. }
  rewrite Hd in Hs by done. lia.
Qed.

Lemma delimiter_take s k :
  Re.match_len s = S k -> is_delimiter (take_chars (S k) s) = true.
Proof.
  intros E. rewrite <- E. unfold Re.match_len in *.
  set (np := Re.span_len Re.is_terminal s) in *.
  set (rest := Re.drop np s) in *.
  set (ns := Re.span_len Str.isspace rest) in *.
  destruct ((0 <? np) && (0 <? ns))%nat eqn:Hpos; [|done].
  apply andb_true_iff in Hpos as [Hnp Hns].
  apply Nat.ltb_lt in Hnp, Hns.
  rewrite take_add. fold rest.
  set (P := take_chars np s). set (W := take_chars ns rest).
  assert (Re.span_len Re.is_terminal W = O) as HW.
  { subst W ns. destruct rest as [|c r]; [done|]. simpl in *.
    destruct (Str.isspace c) eqn:Hc; [|lia].
    simpl. by rewrite (space_not_terminal c Hc). }
  assert (Re.span_len Str.isspace W = ns) as HWs.
  { subst W ns.
    pose proof (span_len_take Str.isspace rest EmptyString) as H.
    rewrite str_app_nil_r in H. rewrite H. simpl. lia. }
  assert (Re.span_len Re.is_terminal (P +:+ W) = np) as H1.
  { rewrite <- (Nat.add_0_r np), <- HW. apply span_len_take. }
  assert (Re.drop np (P +:+ W) = W) as H2 by apply drop_take_span.
  assert (String.length (P +:+ W) = (np + ns)%nat) as H3.
  { rewrite str_length_app. f_equal; apply length_take_span. }
  unfold is_delimiter, Re.match_len.
  rewrite H1, H2, HWs, H3.
  apply Nat.ltb_lt in Hnp as ->. apply Nat.ltb_lt in Hns as ->. simpl.
  rewrite Nat.eqb_refl, andb_true_r.
  destruct (P +:+ W); [simpl in H3; lia | done].
Qed.

Lemma interleave_cons c piece pieces delims :
  interleave (String c piece :: pieces) delims
  = String c (interleave (piece :: pieces) delims).
Proof. by destruct delims. Qed.

Lemma split_from_lossless s : forall skip,
  (skip <= String.length s)%nat ->
  exists delims,
    length (Re.split_from skip s) = S (length delims)
    /\ Forall (fun d => is_delimiter d = true) delims
    /\ interleave (Re.split_from skip s) delims = Re.drop skip s.
Proof.
  induction s as [|c s IH]; intros skip Hskip.
  { exists []. by destruct skip. }
  destruct skip as [|k]; simpl.
  - destruct (Re.match_len (String c s)) as [|k] eqn:Hm.
    + destruct (IH O ltac:(lia)) as (ds & Hlen & Hds & E).
      destruct (Re.split_from 0 s) as [|piece pieces]; [done|].
      exists ds. split_and!; [done..|].
      rewrite interleave_cons, E. by destruct s.
    + pose proof (match_len_le (String c s)) as Hle. rewrite Hm in Hle.
      simpl in Hle.
      destruct (IH k ltac:(lia)) as (ds & Hlen & Hds & E).
      exists (take_chars (S k) (String c s) :: ds). split_and!.
      * simpl. by rewrite Hlen.
      * constructor; [by apply delimiter_take | done].
      * cbn [interleave]. rewrite E, str_app_nil_l. simpl.
        by rewrite str_app_cons, take_drop.
  - simpl in Hskip. apply IH. lia.
Qed.

(** ** Podcast Combiner *)

Section Combiner.
Context {A : Type} `{Sample A}.
Implicit Types (segments : list (AudioSegment.t A)) (st : run A).

Lemma combine_loop n (pause_audio : list A) segments : forall k acc,
  n = (k + length segments)%nat ->
  concat (foldl (combine_step n pause_audio) acc
                (zip (seq k (length segments)) segments))
  = concat acc
    ++ with_gaps pause_audio (map AudioSegment.audio_data segments).
Proof.
  induction segments as [|x l IH]; intros k acc Hn.
  { simpl. by rewrite List.app_nil_r. }
  cbn [length seq zip zip_with foldl map].
  rewrite (IH (S k)) by (simpl in Hn; lia).
  unfold combine_step. simpl in Hn.
  destruct l as [|y l'].
  - simpl in *. rewrite (proj2 (Z.ltb_ge _ _)) by lia.
    by rewrite concat_app, List.app_nil_r; simpl; rewrite List.app_nil_r.
  - rewrite (proj2 (Z.ltb_lt _ _)) by (simpl in Hn; lia).
    rewrite !concat_app. simpl. rewrite !List.app_nil_r.
    by rewrite <- !List.app_assoc.
Qed.

Lemma combine_loop_nonempty n (pause_audio : list A) segments : forall k acc,
  acc <> [] \/ segments <> [] ->
  foldl (combine_step n pause_audio) acc
        (zip (seq k (length segments)) segments) <> [].
Proof.
  induction segments as [|x l IH]; intros k acc Hne.
  { simpl. by destruct Hne. }
  cbn [length seq zip zip_with foldl]. apply IH. left.
  unfold combine_step. destruct (_ <? _); by destruct acc.
Qed.

Lemma length_with_gaps (gap : list A) waves :
  waves <> [] ->
  length (with_gaps gap waves)
  = (total_samples waves + (length waves - 1) * length gap)%nat.
Proof.
  induction waves as [|w rest IH]; [done|]. intros _.
  destruct rest as [|w' rest'].
  { simpl. lia. }
  change (with_gaps gap (w :: w' :: rest'))
    with (w ++ gap ++ with_gaps gap (w' :: rest')).
  rewrite !length_app, IH by done. simpl. lia.
Qed.

Lemma engine_combine_spec os rate pause segments output_dir st :
  segments <> [] ->
  Engine.combine os rate pause segments output_dir st
  = if sf_writable os (combined_path output_dir)
    then (mkrun (<[combined_path output_dir
                   := (with_gaps (replicate pause zero)
                         (map AudioSegment.audio_data segments), rate)]>
                   (disk st))
                (audio_segments st) (output_files st),
          Ok (combined_path output_dir))
    else (st, Raise OSError).
Proof.
  intros Hne. unfold Engine.combine, try_except, bind, lift, enumerate.
  pose proof (combine_loop (length segments) (replicate pause zero)
                segments O [] eq_refl) as Hc.
  pose proof (combine_loop_nonempty (length segments) (replicate pause zero)
                segments O [] (or_intror Hne)) as Hn.
  destruct (foldl _ _ _) as [|a l]; [done|].
  unfold np_concatenate. rewrite Hc. simpl.
  unfold sf_write. by destruct (sf_writable os _).
Qed.

End Combiner.

(** ** The generation run of the shared text *)

Section Generation.
Context {A : Type} `{Sample A}.
Variable os : Os.
Variable synth : string -> string -> res (list A).
Variable rate : positive.
Variable pause : nat.
Implicit Types (st : run A) (lines : list (list (string * string))).

Lemma try_segment_ok output_dir combine_audio i speaker dialogue rest
    segment st :
  Engine.attempt os synth rate output_dir (i, (speaker, dialogue) :: rest)
  = Some segment ->
  Engine.try_segment os synth rate output_dir combine_audio i speaker
    dialogue st
  = (Engine.record_segment rate combine_audio st segment, Ok tt).
Proof.
  unfold Engine.attempt, Engine.try_segment, Engine.record_segment.
  unfold bind, lift, sf_write, modify, ret.
  destruct (synth speaker dialogue) as [audio|e]; [|done].
  destruct (sf_writable os _); [|done].
  intros [= <-]. destruct combine_audio; simpl; [done|].
  by rewrite List.app_nil_r.
Qed.

Lemma try_segment_fail output_dir combine_audio i speaker dialogue rest st :
  Engine.attempt os synth rate output_dir (i, (speaker, dialogue) :: rest)
  = None ->
  exists e,
    Engine.try_segment os synth rate output_dir combine_audio i speaker
      dialogue st = (st, Raise e).
Proof.
  unfold Engine.attempt, Engine.try_segment.
  unfold bind, lift, sf_write, modify, ret.
  destruct (synth speaker dialogue) as [audio|e]; [|by eauto].
  destruct (sf_writable os _); [done | by eauto].
Qed.

(** A turn never raises on a line that has an entry: it records the
    segment when the line succeeds and leaves the state as it was when
    the line fails. *)
Lemma segment_turn_spec output_dir combine_audio i line_dict st :
  line_dict <> [] ->
  Engine.segment_turn os synth rate output_dir combine_audio (i, line_dict) st
  = (match Engine.attempt os synth rate output_dir (i, line_dict) with
     | Some segment => Engine.record_segment rate combine_audio st segment
     | None => st
     end, Ok tt).
Proof.
  destruct line_dict as [|[speaker dialogue] rest]; [done|]. intros _.
  unfold Engine.segment_turn, first_item, lift, try_except.
  unfold bind at 1. cbv beta iota.
  destruct (Engine.attempt _ _ _ _ _) as [segment|] eqn:E.
  - by rewrite (try_segment_ok _ combine_audio _ _ _ _ _ st E).
  - by destruct (try_segment_fail _ combine_audio _ _ _ _ st E) as [e ->].
Qed.

Lemma segment_loop_spec output_dir combine_audio lines : forall k st,
  Forall (fun line_dict => line_dict <> []) lines ->
  for_each (Engine.segment_turn os synth rate output_dir combine_audio)
           (zip (seq k (length lines)) lines) st
  = (foldl (Engine.record_segment rate combine_audio) st
           (omap (Engine.attempt os synth rate output_dir)
                 (zip (seq k (length lines)) lines)),
     Ok tt).
Proof.
  induction lines as [|line_dict lines IH]; intros k st Hne; [done|].
  inversion Hne as [|? ? Hline Hrest]; subst.
  change (zip (seq k (length (line_dict :: lines))) (line_dict :: lines))
    with ((k, line_dict) :: zip (seq (S k) (length lines)) lines).
  cbn [for_each omap list_omap].
  unfold bind at 1. rewrite segment_turn_spec by done.
  rewrite IH by done.
  by destruct (Engine.attempt _ _ _ _ _).
Qed.

Lemma recorded combine_audio segments : forall st,
  foldl (Engine.record_segment rate combine_audio) st segments
  = mkrun (Engine.store rate (disk st) segments)
          (audio_segments st ++ (if combine_audio then segments else []))
          (output_files st ++ map AudioSegment.file_path segments).
Proof.
  induction segments as [|x l IH]; intros st.
  { simpl. destruct st, combine_audio; simpl; by rewrite !List.app_nil_r. }
  cbn [foldl]. rewrite IH. unfold Engine.record_segment, Engine.store. simpl.
  destruct combine_audio; simpl; by rewrite <- !List.app_assoc.
Qed.

(** What a run of [generate] does and returns. *)
Lemma generate_spec podcast_script output_dir combine_audio st :
  mkdir os output_dir = Ok tt ->
  Forall (fun line_dict => line_dict <> []) (script podcast_script) ->
  let segments :=
    Engine.produced os synth rate output_dir (script podcast_script) in
  let paths := map AudioSegment.file_path segments in
  let written := Engine.store rate (disk st) segments in
  Engine.generate os synth rate pause podcast_script output_dir
    combine_audio st
  = if combine_audio && negb (bool_decide (segments = []))
    then
      if sf_writable os (combined_path output_dir)
      then (mkrun (<[combined_path output_dir
                     := (with_gaps (replicate pause zero)
                           (map AudioSegment.audio_data segments), rate)]>
                     written)
                  segments (paths ++ [combined_path output_dir]),
            Ok (paths ++ [combined_path output_dir]))
      else (mkrun written segments paths, Raise OSError)
    else (mkrun written (if combine_audio then segments else []) paths,
          Ok paths).
Proof.
  intros Hmk Hne segments paths written.
  unfold Engine.generate. unfold bind at 1. unfold lift at 1. rewrite Hmk.
  unfold bind at 1. unfold modify at 1.
  unfold bind at 1. unfold enumerate.
  rewrite segment_loop_spec, recorded by done.
  cbn [disk audio_segments output_files].
  fold (enumerate (script podcast_script)).
  fold (Engine.produced os synth rate output_dir (script podcast_script)).
  fold segments. fold paths. fold written. rewrite !List.app_nil_l.
  unfold bind at 1. unfold get at 1. cbn [audio_segments].
  destruct combine_audio; cbn [andb]; [|done].
  destruct (decide (segments = [])) as [E|E].
  - rewrite bool_decide_eq_true_2 by done. by rewrite E.
  - rewrite bool_decide_eq_false_2 by done. cbn [negb].
    unfold bind at 1. unfold bind at 1.
    rewrite engine_combine_spec by done.
    by destruct (sf_writable os _).
Qed.

End Generation.

(** ** Each engine is an instance of the shared text *)

Lemma for_each_ext {St B} (f g : B -> io St unit) :
  (forall x s, f x s = g x s) ->
  forall l s, for_each f l s = for_each g l s.
Proof.
  intros Hfg. induction l as [|x l IH]; intros s; [done|].
  simpl. unfold bind. rewrite Hfg. destruct (g x s) as [s' [[]|e]]; [|done].
  apply IH.
Qed.

Lemma bind_cong {St B C} (m1 m2 : io St B) (k1 k2 : B -> io St C) s :
  m1 s = m2 s ->
  (forall b s', k1 b s' = k2 b s') ->
  bind m1 k1 s = bind m2 k2 s.
Proof.
  intros Hm Hk. unfold bind. rewrite Hm.
  destruct (m2 s) as [s' [b|e]]; [apply Hk | done].
Qed.

Section Instances.
Context {A : Type} `{Sample A}.
Variable os : Os.

Lemma kokoro_combine_eq (self : PodcastTTSGenerator.t A) segments
    output_dir st :
  PodcastTTSGenerator._combine_audio_segments os self segments output_dir st
  = Engine.combine os (PodcastTTSGenerator.sample_rate self)
      (pause_samples 2 10 (PodcastTTSGenerator.sample_rate self))
      segments output_dir st.
Proof. reflexivity. Qed.

Lemma kokoro_generate_eq (self : PodcastTTSGenerator.t A)
    podcast_script output_dir combine_audio st :
  PodcastTTSGenerator.generate_podcast_audio os self podcast_script
    output_dir combine_audio st
  = Engine.generate os (PodcastTTSGenerator._generate_single_segment self)
      (PodcastTTSGenerator.sample_rate self)
      (pause_samples 2 10 (PodcastTTSGenerator.sample_rate self))
      podcast_script output_dir combine_audio st.
Proof. reflexivity. Qed.

Lemma chatterbox_combine_eq (self : ChatterboxTTSGenerator.t A)
    segments output_dir st :
  ChatterboxTTSGenerator._combine_audio_segments os self segments output_dir st
  = Engine.combine os (ChatterboxTTSGenerator.sr self)
      (pause_samples 5 10 (ChatterboxTTSGenerator.sr self))
      segments output_dir st.
Proof. reflexivity. Qed.

Lemma chatterbox_try_segment_eq (self : ChatterboxTTSGenerator.t A)
    output_dir combine_audio i speaker dialogue st :
  ChatterboxTTSGenerator.try_segment os self output_dir combine_audio i
    speaker dialogue st
  = Engine.try_segment os (chatterbox_synth self)
      (ChatterboxTTSGenerator.sr self) output_dir combine_audio i
      speaker dialogue st.
Proof.
  unfold ChatterboxTTSGenerator.try_segment, Engine.try_segment.
  unfold chatterbox_synth, bind at 1 2 5, lift.
  destruct (ChatterboxTTSGenerator.generate_phases _ _ _) as [parts|e]; [|done].
  by destruct (ChatterboxTTSGenerator.join_phases _ _).
Qed.

Lemma chatterbox_turn_eq (self : ChatterboxTTSGenerator.t A)
    output_dir combine_audio p st :
  ChatterboxTTSGenerator.segment_turn os self output_dir combine_audio p st
  = Engine.segment_turn os (chatterbox_synth self)
      (ChatterboxTTSGenerator.sr self) output_dir combine_audio p st.
Proof.
  destruct p as [i line_dict].
  unfold ChatterboxTTSGenerator.segment_turn, Engine.segment_turn.
  unfold bind, lift. destruct (first_item line_dict) as [[speaker dialogue]|e];
    [|done].
  unfold try_except. by rewrite chatterbox_try_segment_eq.
Qed.

Lemma chatterbox_generate_eq (self : ChatterboxTTSGenerator.t A)
    podcast_script output_dir combine_audio st :
  ChatterboxTTSGenerator.generate_podcast_audio os self podcast_script
    output_dir combine_audio st
  = Engine.generate os (chatterbox_synth self)
      (ChatterboxTTSGenerator.sr self)
      (pause_samples 5 10 (ChatterboxTTSGenerator.sr self))
      podcast_script output_dir combine_audio st.
Proof.
  unfold ChatterboxTTSGenerator.generate_podcast_audio, Engine.generate.
  apply bind_cong; [done|intros _ s1].
  apply bind_cong; [done|intros _ s2].
  apply bind_cong; [|done].
  apply for_each_ext, chatterbox_turn_eq.
Qed.

End Instances.

(** ** Outcome of a run *)

Section Outcome.
Context {A : Type} `{Sample A}.
Variable os : Os.
Variable synth : string -> string -> res (list A).
Variable rate : positive.
Variable pause : nat.
Implicit Types (st : run A) (lines : list (list (string * string))).

Lemma store_cons (d : gmap string (list A * positive)) x l :
  Engine.store rate d (x :: l)
  = Engine.store rate
      (<[AudioSegment.file_path x := (AudioSegment.audio_data x, rate)]> d) l.
Proof. reflexivity. Qed.

Lemma store_keeps segments : forall (d : gmap string (list A * positive)) path,
  is_Some (d !! path) -> is_Some (Engine.store rate d segments !! path).
Proof.
  induction segments as [|x l IH]; intros d path Hd; [done|].
  rewrite store_cons. apply IH.
  destruct (decide (AudioSegment.file_path x = path)) as [<-|Hne].
  - rewrite lookup_insert_eq. by eexists.
  - by rewrite lookup_insert_ne.
Qed.

Lemma store_holds segments :
  forall (d : gmap string (list A * positive)) segment,
  segment ∈ segments ->
  is_Some (Engine.store rate d segments !! AudioSegment.file_path segment).
Proof.
  induction segments as [|x l IH]; intros d segment Hin.
  { by apply elem_of_nil in Hin. }
  rewrite store_cons.
  apply elem_of_cons in Hin as [->|Hin]; [|by apply IH].
  apply store_keeps. rewrite lookup_insert_eq. by eexists.
Qed.

Lemma store_frame segments : forall (d : gmap string (list A * positive)) path,
  path ∉ map AudioSegment.file_path segments ->
  Engine.store rate d segments !! path = d !! path.
Proof.
  induction segments as [|x l IH]; intros d path Hout; [done|].
  simpl in Hout. apply not_elem_of_cons in Hout as [Hne Hout].
  rewrite store_cons, IH by done. by rewrite lookup_insert_ne.
Qed.

Lemma engine_partial_run podcast_script output_dir combine_audio st :
  mkdir os output_dir = Ok tt ->
  Forall (fun line_dict => line_dict <> []) (script podcast_script) ->
  partial_run os output_dir combine_audio
    (Engine.produced os synth rate output_dir (script podcast_script)) st
    (Engine.generate os synth rate pause podcast_script output_dir
       combine_audio st).
Proof.
  intros Hmk Hne. rewrite generate_spec by done. cbv zeta.
  set (segments := Engine.produced _ _ _ _ _).
  unfold partial_run.
  destruct (combine_audio && negb (bool_decide (segments = []))).
  - destruct (sf_writable os (combined_path output_dir)); simpl.
    + split_and!; [done..| |].
      * intros segment Hin. apply (store_holds _ (disk st)) in Hin.
        destruct (decide (combined_path output_dir
                          = AudioSegment.file_path segment)) as [<-|Hd].
        -- rewrite lookup_insert_eq. by eexists.
        -- by rewrite lookup_insert_ne.
      * intros path Hout Hc. rewrite lookup_insert_ne by done.
        by apply store_frame.
    + split_and!; [done..| |].
      * intros segment Hin. by apply store_holds.
      * intros path Hout _. by apply store_frame.
  - simpl. split_and!; [done..| |].
    + intros segment Hin. by apply store_holds.
    + intros path Hout _. by apply store_frame.
Qed.

Lemma all_succeed_produced output_dir lines : forall k,
  forallb (fun p => bool_decide
                      (is_Some (Engine.attempt os synth rate output_dir p)))
          (zip (seq k (length lines)) lines) = true ->
  map AudioSegment.file_path
      (omap (Engine.attempt os synth rate output_dir)
            (zip (seq k (length lines)) lines))
  = map (fun p : nat * list (string * string) =>
           segment_path output_dir p.1
             match p.2 with
             | (speaker, _) :: _ => speaker
             | [] => EmptyString
             end)
        (zip (seq k (length lines)) lines)
  /\ Forall (fun line_dict => line_dict <> []) lines.
Proof.
  induction lines as [|line_dict lines IH]; intros k; [done|].
  change (zip (seq k (length (line_dict :: lines))) (line_dict :: lines))
    with ((k, line_dict) :: zip (seq (S k) (length lines)) lines).
  cbn [forallb omap list_omap map].
  intros [Hline Hrest]%andb_true_iff.
  destruct (IH (S k) Hrest) as [Hpaths Hne].
  apply bool_decide_eq_true in Hline as [segment Hseg].
  rewrite Hseg. cbn [map]. rewrite Hpaths.
  unfold Engine.attempt in Hseg.
  destruct line_dict as [|[speaker dialogue] rest]; [done|].
  destruct (synth speaker dialogue); [|done].
  destruct (sf_writable os _); [|done].
  injection Hseg as <-. split; [done|]. by constructor.
Qed.

Lemma engine_all_paths podcast_script output_dir st :
  mkdir os output_dir = Ok tt ->
  Engine.all_succeed os synth rate output_dir (script podcast_script) = true ->
  (Engine.generate os synth rate pause podcast_script output_dir false st).2
  = Ok (all_paths output_dir (script podcast_script))
  /\ (script podcast_script <> [] ->
      sf_writable os (combined_path output_dir) = true ->
      (Engine.generate os synth rate pause podcast_script output_dir true st).2
      = Ok (all_paths output_dir (script podcast_script)
            ++ [combined_path output_dir]))
  /\ (script podcast_script = [] ->
      (Engine.generate os synth rate pause podcast_script output_dir true st).2
      = Ok []).
Proof.
  intros Hmk Hall. unfold Engine.all_succeed, enumerate in Hall.
  destruct (all_succeed_produced _ _ _ Hall) as [Hpaths Hne].
  rewrite !generate_spec by done. cbv zeta.
  unfold Engine.produced, all_paths, enumerate. rewrite Hpaths.
  split_and!; [done| |].
  - intros Hscript Hw. rewrite Hw.
    destruct (script podcast_script) as [|l ls] eqn:E; [done|].
    apply (f_equal length) in Hpaths. rewrite !length_map in Hpaths.
    destruct (omap _ _) as [|x xs]; [done|].
    by rewrite bool_decide_eq_false_2.
  - intros ->. done.
Qed.

End Outcome.

(** ** The two engines *)

Section Engines.
Context {A : Type} `{Sample A}.
Variable os : Os.
Variable kokoro : PodcastTTSGenerator.t A.
Variable chatterbox : ChatterboxTTSGenerator.t A.

Lemma attempt_iff_try synth rate output_dir combine_audio i speaker dialogue
    rest (st : run A) :
  is_Some (Engine.attempt os synth rate output_dir
             (i, (speaker, dialogue) :: rest))
  <-> is_ok (Engine.try_segment os synth rate output_dir combine_audio i
               speaker dialogue st).2 = true.
Proof.
  destruct (Engine.attempt _ _ _ _ _) as [segment|] eqn:E.
  - rewrite (try_segment_ok _ _ _ _ combine_audio _ _ _ _ _ st E).
    split; [done | by eexists].
  - destruct (try_segment_fail _ _ _ _ combine_audio _ _ _ _ st E) as [e ->].
    split; [by intros [? ?] | done].
Qed.

(** At each engine, a line yields a segment exactly when the [try] body
    of its turn ends without an exception. *)
Lemma kokoro_attempt_try output_dir combine_audio i speaker dialogue rest
    (st : run A) :
  is_Some (kokoro_attempt os kokoro output_dir
             (i, (speaker, dialogue) :: rest))
  <-> is_ok (PodcastTTSGenerator.try_segment os kokoro output_dir
               combine_audio i speaker dialogue st).2 = true.
Proof. apply attempt_iff_try. Qed.

Lemma chatterbox_attempt_try output_dir combine_audio i speaker dialogue rest
    (st : run A) :
  is_Some (chatterbox_attempt os chatterbox output_dir
             (i, (speaker, dialogue) :: rest))
  <-> is_ok (ChatterboxTTSGenerator.try_segment os chatterbox output_dir
               combine_audio i speaker dialogue st).2 = true.
Proof. rewrite chatterbox_try_segment_eq. apply attempt_iff_try. Qed.

(** C1. In a script of N lines, N at least one, whose every line is
    synthesized and written without error, [generate_podcast_audio]
    returns the segment paths of the N lines in script order when
    [combine_audio] is false; when it is true and the combined file can
    be written, it returns these N paths followed by the path of the
    combined podcast, N + 1 in all.  Both engines. *)
Theorem generate_returns_all_paths (podcast_script : PodcastScript)
    (output_dir : string) (st : run A) :
  mkdir os output_dir = Ok tt ->
  script podcast_script <> [] ->
  let lines := script podcast_script in
  let paths := all_paths output_dir lines in
  length paths = length lines
  /\ length (paths ++ [combined_path output_dir]) = S (length lines)
  /\ (kokoro_all_succeed os kokoro output_dir lines = true ->
      (PodcastTTSGenerator.generate_podcast_audio os kokoro podcast_script
         output_dir false st).2 = Ok paths
      /\ (sf_writable os (combined_path output_dir) = true ->
          (PodcastTTSGenerator.generate_podcast_audio os kokoro podcast_script
             output_dir true st).2
          = Ok (paths ++ [combined_path output_dir])))
  /\ (chatterbox_all_succeed os chatterbox output_dir lines = true ->
      (ChatterboxTTSGenerator.generate_podcast_audio os chatterbox
         podcast_script output_dir false st).2 = Ok paths
      /\ (sf_writable os (combined_path output_dir) = true ->
          (ChatterboxTTSGenerator.generate_podcast_audio os chatterbox
             podcast_script output_dir true st).2
          = Ok (paths ++ [combined_path output_dir]))).
Proof.
  intros Hmk Hne lines paths.
  assert (length paths = length lines) as Hlen.
  { unfold paths, all_paths, enumerate.
    rewrite length_map, length_zip, length_seq. lia. }
  split_and!.
  - done.
  - rewrite length_app, Hlen. simpl. lia.
  - intros Hall. rewrite !kokoro_generate_eq.
    destruct (engine_all_paths os _ _
                (pause_samples 2 10 (PodcastTTSGenerator.sample_rate kokoro))
                podcast_script output_dir st Hmk Hall) as (Hoff & Hon & _).
    split; [done|]. intros Hw. by apply Hon.
  - intros Hall. rewrite !chatterbox_generate_eq.
    destruct (engine_all_paths os _ _
                (pause_samples 5 10 (ChatterboxTTSGenerator.sr chatterbox))
                podcast_script output_dir st Hmk Hall) as (Hoff & Hon & _).
    split; [done|]. intros Hw. by apply Hon.
Qed.

(** C6. A line whose synthesis or write raises is skipped and the run
    goes on: whatever lines fail, a run over a script whose every line
    has an entry returns exactly the segment paths of the lines that
    succeeded, in script order, followed by the combined path when it is
    asked for and at least one line succeeded; it wrote exactly those
    files; and it raises only when the combined file cannot be written,
    never because a line failed.  A line belongs to the succeeded ones
    exactly when the [try] body of its turn ends without an exception.
    Both engines. *)
Theorem generate_skips_failed_lines (podcast_script : PodcastScript)
    (output_dir : string) (combine_audio : bool) (st : run A) :
  mkdir os output_dir = Ok tt ->
  Forall (fun line_dict => line_dict <> []) (script podcast_script) ->
  (partial_run os output_dir combine_audio
     (kokoro_produced os kokoro output_dir
        (script podcast_script)) st
     (PodcastTTSGenerator.generate_podcast_audio os kokoro podcast_script
        output_dir combine_audio st)
   /\ forall i speaker dialogue rest st',
        is_Some (kokoro_attempt os kokoro output_dir
                   (i, (speaker, dialogue) :: rest))
        <-> is_ok (PodcastTTSGenerator.try_segment os kokoro output_dir
                     combine_audio i speaker dialogue st').2 = true)
  /\ (partial_run os output_dir combine_audio
        (chatterbox_produced os chatterbox
           output_dir (script podcast_script)) st
        (ChatterboxTTSGenerator.generate_podcast_audio os chatterbox
           podcast_script output_dir combine_audio st)
      /\ forall i speaker dialogue rest st',
           is_Some (chatterbox_attempt os chatterbox output_dir
                      (i, (speaker, dialogue) :: rest))
           <-> is_ok (ChatterboxTTSGenerator.try_segment os chatterbox
                        output_dir combine_audio i speaker dialogue st').2
               = true).
Proof.
  intros Hmk Hne. split; split.
  - rewrite kokoro_generate_eq. by apply engine_partial_run.
  - intros. apply kokoro_attempt_try.
  - rewrite chatterbox_generate_eq. by apply engine_partial_run.
  - intros. apply chatterbox_attempt_try.
Qed.

(** C5. On a non-empty list of segments whose combined file can be
    written, the Podcast Combiner writes under [output_dir], as
    [complete_podcast.wav], the segments' samples put end to end with
    one silence gap between each two neighbours and none after the
    last, and returns that path; the number of samples written is the
    sum of the segments' plus one gap per pair of neighbours.  Both
    engines, with gaps of 0.2 s and 0.5 s. *)
Theorem combine_audio_segments_spec (segments : list (AudioSegment.t A))
    (output_dir : string) (st : run A) :
  segments <> [] ->
  sf_writable os (path_join output_dir "complete_podcast.wav") = true ->
  let waves := map AudioSegment.audio_data segments in
  let path := path_join output_dir "complete_podcast.wav" in
  (let rate := PodcastTTSGenerator.sample_rate kokoro in
   let gap := replicate (pause_samples 2 10 rate) zero in
   PodcastTTSGenerator._combine_audio_segments os kokoro segments
     output_dir st
   = (mkrun (<[path := (with_gaps gap waves, rate)]> (disk st))
            (audio_segments st) (output_files st), Ok path)
   /\ length (with_gaps gap waves)
      = (total_samples waves
         + (length segments - 1) * pause_samples 2 10 rate)%nat)
  /\ (let rate := ChatterboxTTSGenerator.sr chatterbox in
      let gap := replicate (pause_samples 5 10 rate) zero in
      ChatterboxTTSGenerator._combine_audio_segments os chatterbox segments
        output_dir st
      = (mkrun (<[path := (with_gaps gap waves, rate)]> (disk st))
               (audio_segments st) (output_files st), Ok path)
      /\ length (with_gaps gap waves)
         = (total_samples waves
            + (length segments - 1) * pause_samples 5 10 rate)%nat).
Proof.
  intros Hne Hw. cbv zeta.
  assert (map AudioSegment.audio_data segments <> []) as Hwaves
    by (by destruct segments).
  split; split.
  - rewrite kokoro_combine_eq, engine_combine_spec by done.
    change (combined_path output_dir)
      with (path_join output_dir "complete_podcast.wav").
    by rewrite Hw.
  - rewrite length_with_gaps by done.
    by rewrite length_map, length_replicate.
  - rewrite chatterbox_combine_eq, engine_combine_spec by done.
    change (combined_path output_dir)
      with (path_join output_dir "complete_podcast.wav").
    by rewrite Hw.
  - rewrite length_with_gaps by done.
    by rewrite length_map, length_replicate.
Qed.

End Engines.

Lemma generate_returns_all_paths_witness :
  mkdir demo_os "out" = Ok tt
  /\ script demo_script <> []
  /\ (PodcastTTSGenerator.generate_podcast_audio demo_os demo_kokoro
        demo_script "out" true fresh_run).2
     = Ok ["out/segment_001_speaker.wav"; "out/segment_002_speaker.wav";
           "out/complete_podcast.wav"]
  /\ (ChatterboxTTSGenerator.generate_podcast_audio demo_os demo_chatterbox
        demo_script "out" false fresh_run).2
     = Ok ["out/segment_001_speaker.wav"; "out/segment_002_speaker.wav"].
Proof.
  assert (script demo_script <> []) as Hne by discriminate.
  destruct (generate_returns_all_paths demo_os demo_kokoro demo_chatterbox
              demo_script "out" fresh_run eq_refl Hne) as (_ & _ & Hk & Hc).
  split; [reflexivity|]. split; [exact Hne|]. split.
  - destruct (Hk ltac:(vm_compute; reflexivity)) as (_ & Hon).
    exact (Hon eq_refl).
  - destruct (Hc ltac:(vm_compute; reflexivity)) as (Hoff & _).
    exact Hoff.
Defined.

(** The empty script, which the script generator never hands over: no
    segment is produced, nothing is combined, and the run returns no
    path, with [combine_audio] or without. *)
Example generate_on_empty_script :
  (PodcastTTSGenerator.generate_podcast_audio demo_os demo_kokoro
     empty_script "out" true fresh_run).2 = Ok []
  /\ (ChatterboxTTSGenerator.generate_podcast_audio demo_os demo_chatterbox
        empty_script "out" false fresh_run).2 = Ok [].
Proof. split; reflexivity. Qed.

(** A line without any entry is not a narration line: taking its first
    item happens before the [try] and ends the run. *)
Example generate_on_line_without_entry :
  (PodcastTTSGenerator.generate_podcast_audio demo_os demo_kokoro
     {| script := [[("Speaker", "Hello there.")]; []];
        source_document := "Test"; total_lines := 2;
        estimated_duration := "1 minute" |}
     "out" false fresh_run).2
  = Raise StopIteration.
Proof. by vm_compute. Qed.

Lemma generate_skips_failed_lines_witness :
  mkdir demo_os "out" = Ok tt
  /\ Forall (fun line_dict : list (string * string) => line_dict <> [])
            (script failing_script)
  /\ (PodcastTTSGenerator.generate_podcast_audio demo_os demo_kokoro
        failing_script "out" true fresh_run).2
     = Ok ["out/segment_001_speaker.wav"; "out/segment_003_speaker.wav";
           "out/complete_podcast.wav"]
  /\ (ChatterboxTTSGenerator.generate_podcast_audio demo_os demo_chatterbox
        failing_script "out" false fresh_run).2
     = Ok ["out/segment_001_speaker.wav"; "out/segment_003_speaker.wav"].
Proof.
  assert (Forall (fun line_dict : list (string * string) => line_dict <> [])
                 (script failing_script)) as Hlines.
  { repeat constructor; discriminate. }
  destruct (generate_skips_failed_lines demo_os demo_kokoro demo_chatterbox
              failing_script "out" true fresh_run eq_refl Hlines)
    as [[(Hk & _) _] _].
  destruct (generate_skips_failed_lines demo_os demo_kokoro demo_chatterbox
              failing_script "out" false fresh_run eq_refl Hlines)
    as [_ [(Hc & _) _]].
  split; [reflexivity|]. split; [exact Hlines|]. split; [exact Hk | exact Hc].
Defined.

Lemma combine_audio_segments_spec_witness :
  demo_segments <> []
  /\ sf_writable demo_os (path_join "out" "complete_podcast.wav") = true
  /\ PodcastTTSGenerator._combine_audio_segments demo_os demo_kokoro
       demo_segments "out" fresh_run
     = (mkrun (<["out/complete_podcast.wav"
                 := ([1; 2; 0; 0; 3], 10%positive)]> ∅)
              [] [], Ok "out/complete_podcast.wav")
  /\ length [1; 2; 0; 0; 3] = (3 + (2 - 1) * 2)%nat.
Proof.
  assert (demo_segments <> []) as Hne by discriminate.
  destruct (combine_audio_segments_spec demo_os demo_kokoro demo_chatterbox
              demo_segments "out" fresh_run Hne eq_refl) as [[Hk Hlen] _].
  split; [exact Hne|]. split; [reflexivity|]. split; [exact Hk | exact Hlen].
Defined.

(** ** Construction of the voice-cloning engine *)

Section Construction.
Context {A : Type} `{Sample A}.
Variable torch : Torch A.
Implicit Types (p : process) (device : option string).

(** What [__init__] does once the library is known to be there, by the
    outcome of the two possible loads. *)
Lemma init_spec device p :
  CHATTERBOX_AVAILABLE torch = true ->
  let dev := resolved_device torch device in
  let original := torch_load p in
  let patched := patched_torch_load original in
  let env := <["PYTORCH_ENABLE_MPS_FALLBACK" := "1"]> (environ p) in
  ChatterboxTTSGenerator.__init__ torch device p
  = match from_pretrained torch patched dev with
    | Ok m =>
        (mkprocess original env (load_calls p ++ [(dev, patched)]),
         Ok (ChatterboxTTSGenerator.mk dev original m (model_sr m) None))
    | Raise e =>
        if negb (String.eqb dev "cpu")
        then
          match from_pretrained torch patched "cpu" with
          | Ok m =>
              (mkprocess original env
                 ((load_calls p ++ [(dev, patched)]) ++ [("cpu", patched)]),
               Ok (ChatterboxTTSGenerator.mk "cpu" original m (model_sr m)
                     None))
          | Raise e' =>
              (mkprocess original env
                 ((load_calls p ++ [(dev, patched)]) ++ [("cpu", patched)]),
               Raise e')
          end
        else (mkprocess original env (load_calls p ++ [(dev, patched)]),
              Raise e)
    end.
Proof.
  intros Havail. cbv zeta.
  unfold ChatterboxTTSGenerator.__init__. rewrite Havail. cbn [negb].
  fold (resolved_device torch device).
  set (dev := resolved_device torch device).
  unfold bind, modify, ChatterboxTTSGenerator._apply_device_fixes, get, ret,
    try_finally, try_except, ChatterboxTTSGenerator.load_model,
    ChatterboxTTSGenerator._restore_torch_load, raise, bind, modify.
  cbn [torch_load environ load_calls].
  destruct (from_pretrained torch _ dev) as [m|e]; [done|].
  destruct (String.eqb dev "cpu"); cbn [negb]; [done|].
  cbn [torch_load environ load_calls].
  by destruct (from_pretrained torch _ "cpu") as [m|e'].
Qed.

(** C8. When the model fails to load on the resolved device and that
    device is not the CPU, the load is tried again on the CPU, once:
    construction succeeds with the engine's device set to the CPU when
    that load succeeds, and fails with that load's exception when it
    does not.  When the resolved device is the CPU and the load fails,
    there is no second load and the failure propagates.  The record of
    load calls shows which loads took place. *)
Theorem construction_falls_back_to_cpu device p :
  CHATTERBOX_AVAILABLE torch = true ->
  let dev := resolved_device torch device in
  let patched := patched_torch_load (torch_load p) in
  let out := ChatterboxTTSGenerator.__init__ torch device p in
  (forall e m,
     from_pretrained torch patched dev = Raise e -> dev <> "cpu" ->
     from_pretrained torch patched "cpu" = Ok m ->
     (exists self,
        out.2 = Ok self
        /\ ChatterboxTTSGenerator.device self = "cpu"
        /\ ChatterboxTTSGenerator.model self = m
        /\ ChatterboxTTSGenerator.sr self = model_sr m
        /\ ChatterboxTTSGenerator.reference_audio_path self = None)
     /\ load_calls out.1
        = load_calls p ++ [(dev, patched); ("cpu", patched)])
  /\ (forall e e',
        from_pretrained torch patched dev = Raise e -> dev <> "cpu" ->
        from_pretrained torch patched "cpu" = Raise e' ->
        out.2 = Raise e'
        /\ load_calls out.1
           = load_calls p ++ [(dev, patched); ("cpu", patched)])
  /\ (forall e,
        dev = "cpu" -> from_pretrained torch patched "cpu" = Raise e ->
        out.2 = Raise e
        /\ load_calls out.1 = load_calls p ++ [("cpu", patched)])
  /\ (forall m,
        from_pretrained torch patched dev = Ok m ->
        (exists self,
           out.2 = Ok self
           /\ ChatterboxTTSGenerator.device self = dev
           /\ ChatterboxTTSGenerator.model self = m)
        /\ load_calls out.1 = load_calls p ++ [(dev, patched)]).
Proof.
  intros Havail. cbv zeta. rewrite init_spec by done. cbv zeta.
  set (dev := resolved_device torch device).
  set (patched := patched_torch_load (torch_load p)).
  split_and!.
  - intros e m -> Hne%String.eqb_neq ->. rewrite Hne. simpl.
    rewrite <- List.app_assoc. split; [|done]. by eexists.
  - intros e e' -> Hne%String.eqb_neq ->. rewrite Hne. simpl.
    by rewrite <- List.app_assoc.
  - intros e Hdev He. rewrite Hdev in *. by rewrite He.
  - intros m ->. simpl. split; [|done]. by eexists.
Qed.

(** C9. On every path through construction, whether the library is
    missing, the load succeeds, succeeds on the CPU after a failure, or
    fails for good, the global [torch.load] is afterwards what it was
    before; and every load of the model took place with the patched
    function installed over that original. *)
Theorem construction_restores_torch_load device p :
  let out := ChatterboxTTSGenerator.__init__ torch device p in
  torch_load out.1 = torch_load p
  /\ exists calls,
       load_calls out.1 = load_calls p ++ calls
       /\ Forall (fun call : string * loader =>
                    call.2 = patched_torch_load (torch_load p)) calls.
Proof.
  cbv zeta. destruct (CHATTERBOX_AVAILABLE torch) eqn:Havail.
  - rewrite init_spec by done. cbv zeta.
    destruct (from_pretrained torch _ (resolved_device torch device)).
    + split; [done|]. eexists. split; [done|]. by repeat constructor.
    + destruct (negb _).
      * destruct (from_pretrained torch _ "cpu"); (split; [done|]);
          eexists; (split; [by rewrite <- List.app_assoc|]);
          by repeat constructor.
      * split; [done|]. eexists. split; [done|]. by repeat constructor.
  - unfold ChatterboxTTSGenerator.__init__. rewrite Havail. simpl.
    split; [done|]. exists []. by rewrite List.app_nil_r.
Qed.

End Construction.

Lemma construction_falls_back_to_cpu_witness :
  CHATTERBOX_AVAILABLE demo_torch = true
  /\ (exists self,
        (ChatterboxTTSGenerator.__init__ demo_torch None demo_process).2
        = Ok self
        /\ ChatterboxTTSGenerator.device self = "cpu")
  /\ load_calls
       (ChatterboxTTSGenerator.__init__ demo_torch None demo_process).1
     = [("cuda", patched_torch_load library_load);
        ("cpu", patched_torch_load library_load)].
Proof.
  destruct (construction_falls_back_to_cpu demo_torch None demo_process
              eq_refl) as (Hfallback & _).
  destruct (Hfallback RuntimeError demo_model eq_refl ltac:(discriminate)
              eq_refl) as [(self & Hself & Hdev & _) Hcalls].
  split; [reflexivity|]. split; [|exact Hcalls].
  exists self. split; [exact Hself | exact Hdev].
Defined.

Example construction_demo :
  torch_load (ChatterboxTTSGenerator.__init__ demo_torch (Some "mps")
                demo_process).1 = library_load.
Proof. reflexivity. Qed.

(** ** Reference audio *)

(** C7. [set_reference_audio] raises the not-found error exactly when
    nothing exists at the path, and then leaves the generator as it was;
    when the path exists it is stored as the reference path and nothing
    else changes, so that after two successful calls the second path is
    the one in force. *)
Theorem set_reference_audio_spec {A : Type} (os : Os)
    (self : ChatterboxTTSGenerator.t A) (path path' : string) :
  let out := ChatterboxTTSGenerator.set_reference_audio os path self in
  (out.2 = Raise FileNotFoundError <-> os_path_exists os path = false)
  /\ (os_path_exists os path = false -> out.1 = self)
  /\ (os_path_exists os path = true ->
      out = (ChatterboxTTSGenerator.mk
               (ChatterboxTTSGenerator.device self)
               (ChatterboxTTSGenerator.original_torch_load self)
               (ChatterboxTTSGenerator.model self)
               (ChatterboxTTSGenerator.sr self) (Some path), Ok tt))
  /\ (os_path_exists os path = true -> os_path_exists os path' = true ->
      ChatterboxTTSGenerator.reference_audio_path
        (ChatterboxTTSGenerator.set_reference_audio os path' out.1).1
      = Some path').
Proof.
  cbv zeta. unfold ChatterboxTTSGenerator.set_reference_audio, raise, modify.
  destruct (os_path_exists os path) eqn:E; simpl.
  - split_and!; [done..|]. intros _ ->. done.
  - split_and!; done.
Qed.

Lemma set_reference_audio_spec_witness :
  os_path_exists demo_os "voice.wav" = true
  /\ os_path_exists demo_os "other.wav" = true
  /\ os_path_exists demo_os "missing.wav" = false
  /\ ChatterboxTTSGenerator.reference_audio_path
       (ChatterboxTTSGenerator.set_reference_audio demo_os "other.wav"
          (ChatterboxTTSGenerator.set_reference_audio demo_os "voice.wav"
             demo_chatterbox).1).1
     = Some "other.wav"
  /\ (ChatterboxTTSGenerator.set_reference_audio demo_os "missing.wav"
        demo_chatterbox).1 = demo_chatterbox.
Proof.
  destruct (set_reference_audio_spec demo_os demo_chatterbox
              "voice.wav" "other.wav") as (_ & _ & _ & Htwice).
  destruct (set_reference_audio_spec demo_os demo_chatterbox
              "missing.wav" "other.wav") as (_ & Hmissing & _).
  split; [reflexivity|]. split; [reflexivity|]. split; [reflexivity|].
  split; [exact (Htwice eq_refl eq_refl) | exact (Hmissing eq_refl)].
Defined.

(** ** Strings without whitespace at their ends *)

Lemma last_char_app_r a b :
  b <> EmptyString -> last_char (a +:+ b) = last_char b.
Proof.
  intros Hb. induction a as [|c a IH]; [done|].
  rewrite str_app_cons. simpl. rewrite IH.
  destruct (a +:+ b) eqn:E; [|done].
  by destruct a, b.
Qed.

Lemma last_char_nonempty s : s <> EmptyString -> is_Some (last_char s).
Proof.
  induction s as [|c s IH]; [done|]. intros _.
  destruct s as [|c' s']; [by eexists|]. by apply IH.
Qed.

Lemma rstrip_last s c :
  last_char s = Some c -> Str.isspace c = false -> Str.rstrip s = s.
Proof.
  induction s as [|a s IH]; [done|].
  intros Hl Hc. cbn [Str.rstrip].
  destruct s as [|a' s'].
  - simpl in *. injection Hl as ->. by rewrite Hc.
  - rewrite IH by done. done.
Qed.

Lemma tight_strip s : tight s = true -> Str.strip s = s.
Proof.
  unfold tight. intros [Hh Hl]%andb_true_iff.
  destruct s as [|c s]; [done|].
  apply negb_true_iff in Hh.
  unfold Str.strip. cbn [Str.lstrip]. rewrite Hh.
  destruct (last_char (String c s)) as [c'|] eqn:E; [|done].
  apply negb_true_iff in Hl. by eapply rstrip_last.
Qed.

Lemma tight_nonempty s : tight s = true -> s <> EmptyString.
Proof. by destruct s. Qed.

Lemma lstrip_head s :
  Str.lstrip s = EmptyString
  \/ exists c r, Str.lstrip s = String c r /\ Str.isspace c = false.
Proof.
  induction s as [|c s IH]; [by left|]. simpl.
  destruct (Str.isspace c) eqn:Hc; [done|]. right. by eauto.
Qed.

Lemma rstrip_shape s :
  Str.rstrip s = EmptyString
  \/ exists c, last_char (Str.rstrip s) = Some c /\ Str.isspace c = false.
Proof.
  induction s as [|a s IH]; [by left|]. cbn [Str.rstrip].
  destruct (Str.rstrip s) as [|b r] eqn:E.
  - destruct (Str.isspace a) eqn:Ha; [by left|]. right. by exists a.
  - right. destruct IH as [|(c & Hc & Hs)]; [done|]. exists c. done.
Qed.

Lemma rstrip_keeps_head c s :
  Str.rstrip (String c s) = EmptyString
  \/ exists r, Str.rstrip (String c s) = String c r.
Proof.
  cbn [Str.rstrip]. destruct (Str.rstrip s).
  - destruct (Str.isspace c); [by left | right; by eauto].
  - right. by eauto.
Qed.

Lemma strip_tight s :
  Str.strip s = EmptyString \/ tight (Str.strip s) = true.
Proof.
  unfold Str.strip.
  destruct (lstrip_head s) as [->|(c & r & -> & Hc)]; [by left|].
  destruct (rstrip_keeps_head c r) as [->|[r' E]]; [by left|]. right.
  destruct (rstrip_shape (String c r)) as [E'|(c' & Hl & Hs)]; [congruence|].
  unfold tight. rewrite Hl, Hs. rewrite E. simpl. by rewrite Hc.
Qed.

Lemma tight_app a b :
  tight a = true -> tight b = true -> tight (a +:+ b) = true.
Proof.
  intros Ha Hb. pose proof (tight_nonempty _ Hb) as Hne.
  unfold tight in *. rewrite last_char_app_r by done.
  apply andb_true_iff in Ha as [Ha _], Hb as [_ Hb].
  destruct a as [|c a]; [done|]. rewrite str_app_cons. by rewrite Ha, Hb.
Qed.

Lemma tight_join a b :
  tight a = true -> tight b = true -> tight (a +:+ " " +:+ b) = true.
Proof.
  intros Ha Hb. pose proof (tight_nonempty _ Hb) as Hne.
  unfold tight in *.
  rewrite last_char_app_r by (by destruct b).
  change (" " +:+ b) with (String " " b).
  replace (last_char (String " " b)) with (last_char b) by (by destruct b).
  apply andb_true_iff in Ha as [Ha _], Hb as [_ Hb].
  destruct a as [|c a]; [done|]. rewrite str_app_cons. by rewrite Ha, Hb.
Qed.

Lemma tight_terminated s : tight s = true -> tight (terminated s) = true.
Proof.
  intros Hs. unfold terminated.
  destruct (negb _); [|done]. by apply tight_app.
Qed.

Lemma tight_word w :
  Str.has_ws w = false -> w <> EmptyString -> tight w = true.
Proof.
  intros Hw Hne. destruct (last_char_nonempty w Hne) as [c Hc].
  unfold tight. rewrite Hc. destruct w as [|a w]; [done|].
  simpl in Hw. apply orb_false_iff in Hw as [Ha Hw]. rewrite Ha. simpl.
  apply negb_true_iff.
  clear Hne. revert a Ha Hc. induction w as [|b w IH]; intros a Ha Hc.
  - simpl in Hc. by injection Hc as <-.
  - simpl in Hw. apply orb_false_iff in Hw as [Hb Hw]. by apply (IH Hw b).
Qed.

Lemma tight_words s : tight s = true -> Str.split s <> [].
Proof.
  destruct s as [|c s]; [done|]. unfold tight.
  intros [Hc%negb_true_iff _]%andb_true_iff.
  by destruct (split_head c s Hc) as (w & ws & ->).
Qed.

Lemma endswith_app_r a b suffix :
  Str.endswith b suffix = true -> Str.endswith (a +:+ b) suffix = true.
Proof.
  intros Hb. induction a as [|c a IH]; [done|].
  rewrite str_app_cons. cbn [Str.endswith]. rewrite IH.
  by destruct (String.eqb _ _).
Qed.

Lemma ends_terminal_app_r a b :
  Str.endswith_any b terminals = true ->
  Str.endswith_any (a +:+ b) terminals = true.
Proof.
  unfold Str.endswith_any, terminals. simpl. rewrite !orb_true_iff.
  intros [H|[H|[H|H]]]; [| | |done];
    apply (endswith_app_r a) in H; rewrite H; auto.
Qed.

Lemma ends_terminal_terminated s :
  Str.endswith_any (terminated s) terminals = true.
Proof.
  unfold terminated. destruct (Str.endswith_any s terminals) eqn:E; [done|].
  simpl. apply ends_terminal_app_r. done.
Qed.

(** ** Phases are tight *)

(** A piece that is tight and ends in a terminal, or only tight. *)
Lemma loop_step_tight (P : string -> Prop) (M : Z) phases current piece :
  (forall a b, P b -> P (a +:+ b)) ->
  Forall (fun p => tight p = true /\ P p) phases ->
  current = EmptyString \/ tight current = true /\ P current ->
  tight piece = true /\ P piece ->
  let st :=
    if (len current + len piece >? M) && negb (Str.is_empty current)
    then (phases ++ [Str.strip current], piece)
    else (phases,
          if negb (Str.is_empty current)
          then current +:+ " " +:+ piece else piece) in
  Forall (fun p => tight p = true /\ P p) st.1
  /\ tight st.2 = true /\ P st.2.
Proof.
  intros HP Hph Hcur [Ht Hp]. cbv zeta.
  destruct current as [|c cur'].
  { rewrite andb_false_r. simpl. done. }
  destruct Hcur as [|[Hc HPc]]; [done|].
  rewrite andb_true_r. simpl negb. cbv iota.
  destruct (_ >? _); simpl.
  - split; [|done]. apply Forall_app. split; [done|].
    constructor; [|done]. by rewrite tight_strip.
  - split; [done|]. split; [by apply tight_join|]. by apply HP, HP.
Qed.

Lemma sentence_step_tight M st sentence :
  Forall (fun p => tight p = true
                   /\ Str.endswith_any p terminals = true) st.1 ->
  st.2 = EmptyString
  \/ tight st.2 = true /\ Str.endswith_any st.2 terminals = true ->
  let st' := sentence_step M st sentence in
  Forall (fun p => tight p = true
                   /\ Str.endswith_any p terminals = true) st'.1
  /\ (st'.2 = EmptyString
      \/ tight st'.2 = true /\ Str.endswith_any st'.2 terminals = true).
Proof.
  destruct st as [phases cur]. cbn [fst snd]. intros Hph Hcur.
  unfold sentence_step.
  destruct (strip_tight sentence) as [E|Ht].
  { rewrite E. done. }
  assert (Str.is_empty (Str.strip sentence) = false) as ->
    by (by destruct (Str.strip sentence)).
  fold (terminated (Str.strip sentence)).
  pose proof (loop_step_tight
    (fun p => Str.endswith_any p terminals = true) M phases cur
    (terminated (Str.strip sentence)) ends_terminal_app_r Hph Hcur) as H.
  cbv zeta in H. destruct H as (H1 & H2 & H3).
  { split; [by apply tight_terminated | apply ends_terminal_terminated]. }
  split; [done|]. right. done.
Qed.

Lemma sentence_loop_tight M sentences : forall st,
  Forall (fun p => tight p = true
                   /\ Str.endswith_any p terminals = true) st.1 ->
  st.2 = EmptyString
  \/ tight st.2 = true /\ Str.endswith_any st.2 terminals = true ->
  let st' := foldl (sentence_step M) st sentences in
  Forall (fun p => tight p = true
                   /\ Str.endswith_any p terminals = true) st'.1
  /\ (st'.2 = EmptyString
      \/ tight st'.2 = true /\ Str.endswith_any st'.2 terminals = true).
Proof.
  induction sentences as [|x l IH]; intros st H1 H2; [done|].
  cbn [foldl]. destruct (sentence_step_tight M st x H1 H2) as [H3 H4].
  by apply IH.
Qed.

Lemma sentence_phases_tight M sentences :
  Forall (fun p => tight p = true
                   /\ Str.endswith_any p terminals = true)
         (sentence_phases M sentences).
Proof.
  unfold sentence_phases.
  pose proof (sentence_loop_tight M sentences ([], EmptyString)
                (Forall_nil_2 _) (or_introl eq_refl)) as H.
  cbv zeta in H. destruct (foldl _ _ _) as [phases cur].
  destruct H as [H1 H2]. cbn [fst snd] in *.
  destruct H2 as [->|[Ht He]]; [done|].
  rewrite (tight_strip _ Ht). destruct cur; [done|]. cbn [Str.is_empty negb].
  apply Forall_app. split; [done|]. by constructor.
Qed.

Lemma word_step_tight M st w :
  Forall (fun p => tight p = true /\ True) st.1 ->
  st.2 = EmptyString \/ tight st.2 = true /\ True ->
  tight w = true ->
  let st' := word_step M st w in
  Forall (fun p => tight p = true /\ True) st'.1
  /\ tight st'.2 = true /\ True.
Proof.
  destruct st as [fp cur]. simpl. intros Hfp Hcur Hw.
  unfold word_step.
  assert ((len cur + len w + 1 >? M) = (len cur + len w >? M - 1)) as ->.
  { destruct (Z.gtb_spec (len cur + len w + 1) M),
             (Z.gtb_spec (len cur + len w) (M - 1)); lia || done. }
  apply (loop_step_tight (fun _ => True)); auto.
Qed.

Lemma word_loop_tight M words : forall st,
  Forall (fun p => tight p = true /\ True) st.1 ->
  st.2 = EmptyString \/ tight st.2 = true /\ True ->
  Forall (fun w => tight w = true) words ->
  let st' := foldl (word_step M) st words in
  Forall (fun p => tight p = true /\ True) st'.1
  /\ (st'.2 = EmptyString \/ tight st'.2 = true /\ True).
Proof.
  induction words as [|w l IH]; intros st H1 H2 Hw; [done|].
  inversion Hw as [|? ? Hw1 Hw2]; subst.
  cbn [foldl]. destruct (word_step_tight M st w H1 H2 Hw1) as [H3 H4].
  apply IH; auto.
Qed.

Lemma word_chunks_tight M final_phases phase :
  Forall (fun p => tight p = true /\ True) final_phases ->
  Forall (fun p => tight p = true /\ True) (word_chunks M final_phases phase).
Proof.
  intros Hfp. unfold word_chunks.
  pose proof (word_loop_tight M (Str.split phase) (final_phases, EmptyString)
                Hfp (or_introl eq_refl)) as H.
  cbv zeta in H. destruct (foldl _ _ _) as [fp cur].
  destruct H as [H1 H2].
  { eapply Forall_impl; [apply split_words|].
    intros w [Hw Hne]. by apply tight_word. }
  simpl in *. destruct H2 as [->|[Ht _]]; [done|].
  rewrite (tight_strip _ Ht). destruct cur; [done|]. simpl.
  apply Forall_app. split; [done|]. by constructor.
Qed.

Lemma phase_loop_tight M phases : forall final_phases,
  Forall (fun p => tight p = true /\ True) final_phases ->
  Forall (fun p => tight p = true) phases ->
  Forall (fun p => tight p = true /\ True)
         (foldl (phase_step M) final_phases phases).
Proof.
  induction phases as [|phase l IH]; intros fp Hfp Hph; [done|].
  inversion Hph as [|? ? H1 H2]; subst.
  cbn [foldl]. apply IH; [|done]. unfold phase_step.
  destruct (very_long M phase).
  - by apply word_chunks_tight.
  - apply Forall_app. split; [done|]. by constructor.
Qed.

Lemma split_phases_tight text M :
  Forall (fun p => tight p = true) (_split_text_into_phases text M).
Proof.
  unfold _split_text_into_phases.
  eapply Forall_impl; [apply phase_loop_tight|]; [done| |by intros ? []].
  eapply Forall_impl; [apply sentence_phases_tight|]. by intros ? [].
Qed.

Lemma phase_loop_short M phases : forall final_phases,
  Forall (fun p => very_long M p = false) phases ->
  foldl (phase_step M) final_phases phases = final_phases ++ phases.
Proof.
  induction phases as [|phase l IH]; intros fp Hph.
  { by rewrite List.app_nil_r. }
  inversion Hph as [|? ? H1 H2]; subst.
  cbn [foldl]. rewrite IH by done. unfold phase_step. rewrite H1.
  by rewrite <- List.app_assoc.
Qed.

(** X1. Every phase the Phase Splitter returns is non-empty and has no
    whitespace at either end; every phase built by the sentence loop
    ends in a terminal; and when none of these is longer than 1.5 times
    [max_chars], they are returned as they are, so that every returned
    phase ends in a terminal. *)
Theorem split_phases_well_formed (text : string) (max_chars : Z) :
  Forall (fun p => p <> EmptyString /\ Str.strip p = p)
         (_split_text_into_phases text max_chars)
  /\ Forall (fun p => Str.endswith_any p terminals = true)
            (sentence_phases max_chars (Re.split text))
  /\ (Forall (fun p => very_long max_chars p = false)
             (sentence_phases max_chars (Re.split text)) ->
      _split_text_into_phases text max_chars
      = sentence_phases max_chars (Re.split text)).
Proof.
  split_and!.
  - eapply Forall_impl; [apply split_phases_tight|].
    intros p Hp. split; [by apply tight_nonempty | by apply tight_strip].
  - eapply Forall_impl; [apply sentence_phases_tight|]. by intros ? [].
  - intros Hshort. unfold _split_text_into_phases.
    by rewrite phase_loop_short.
Qed.

(** ** Blank and non-blank text *)

Lemma match_len_blank s : all_ws s = true -> Re.match_len s = O.
Proof.
  destruct s as [|c s]; [done|]. simpl all_ws.
  intros [Hc _]%andb_true_iff. unfold Re.match_len. simpl.
  by rewrite (space_not_terminal c Hc).
Qed.

Lemma re_split_blank s : all_ws s = true -> Re.split s = [s].
Proof.
  unfold Re.split. induction s as [|c s IH]; [done|]. intros Hs.
  cbn [Re.split_from]. rewrite (match_len_blank _ Hs).
  simpl in Hs. apply andb_true_iff in Hs as [_ Hs]. by rewrite IH.
Qed.

Lemma strip_blank s : all_ws s = true -> Str.strip s = EmptyString.
Proof. intros Hs. unfold Str.strip. by rewrite lstrip_all_ws. Qed.

Lemma lstrip_empty_blank s : Str.lstrip s = EmptyString -> all_ws s = true.
Proof.
  induction s as [|c s IH]; [done|]. simpl.
  destruct (Str.isspace c); [auto | done].
Qed.

Lemma strip_empty_blank s : Str.strip s = EmptyString -> all_ws s = true.
Proof.
  unfold Str.strip. intros E. apply lstrip_empty_blank.
  destruct (rstrip_tail (Str.lstrip s)) as (w & Hs & Hw).
  rewrite E, str_app_nil_l in Hs.
  destruct (lstrip_head s) as [|(c & r & Hl & Hc)]; [done|].
  rewrite Hl in Hs. subst w. simpl in Hw. by rewrite Hc in Hw.
Qed.

Lemma no_phase_iff_no_sentence text M :
  _split_text_into_phases text M = [] <-> sentence_content text = [].
Proof.
  pose proof (split_phases_words text M) as Hw.
  pose proof (split_phases_tight text M) as Ht.
  assert (Forall (fun s => tight s = true) (sentence_content text)) as Hc.
  { unfold sentence_content. apply Forall_forall.
    intros s [Hne (x & -> & _)%list_elem_of_fmap]%list_elem_of_filter.
    by destruct (strip_tight x). }
  split; intros E; rewrite E in *.
  - destruct (sentence_content text) as [|s l]; [done|].
    inversion Hc as [|? ? Hs _]; subst.
    apply tight_terminated, tight_words in Hs.
    unfold words_of in Hw. simpl in Hw.
    by destruct (Str.split (terminated s)).
  - destruct (_split_text_into_phases text M) as [|p l]; [done|].
    inversion Ht as [|? ? Hp _]; subst. apply tight_words in Hp.
    unfold words_of in Hw. simpl in Hw. by destruct (Str.split p).
Qed.

(** X2. A text of whitespace only, the empty text included, has no
    phase, whatever the bound; and the splitter returns no phase exactly
    when the text has no sentence. *)
Theorem split_blank_text (text : string) (max_chars : Z) :
  (all_ws text = true -> _split_text_into_phases text max_chars = [])
  /\ (_split_text_into_phases text max_chars = []
      <-> sentence_content text = []).
Proof.
  split; [|apply no_phase_iff_no_sentence].
  intros Hblank. apply no_phase_iff_no_sentence.
  unfold sentence_content. rewrite re_split_blank by done. simpl.
  rewrite strip_blank by done. done.
Qed.

Lemma split_blank_text_witness :
  all_ws "   " = true /\ _split_text_into_phases "   " 800 = [].
Proof.
  split; [reflexivity|].
  exact (proj1 (split_blank_text "   " 800) eq_refl).
Defined.

(** *** A text without whitespace at its ends has a sentence *)

Lemma length_drop n : forall s,
  (n <= String.length s)%nat ->
  String.length (Re.drop n s) = (String.length s - n)%nat.
Proof.
  induction n as [|n IH]; intros [|c s] Hn; simpl in *; try lia.
  apply IH. lia.
Qed.

Lemma span_len_full p s :
  Re.span_len p s = String.length s ->
  s <> EmptyString ->
  exists c, last_char s = Some c /\ p c = true.
Proof.
  induction s as [|a s IH]; [done|]. simpl. intros Hl _.
  destruct (p a) eqn:Ha; [|done]. injection Hl as Hl.
  destruct s as [|b s']; [by exists a|]. by apply IH.
Qed.

Lemma all_ws_ends_blank s : all_ws s = true -> ends_blank s = true.
Proof.
  unfold ends_blank. induction s as [|c s IH]; [done|]. simpl.
  intros [Hc Hs]%andb_true_iff. destruct s as [|c' s']; [done|]. by apply IH.
Qed.

Lemma delimiter_ends_blank d :
  is_delimiter d = true ->
  d <> EmptyString /\ ends_blank d = true.
Proof.
  unfold is_delimiter. intros [Hne Hm%Nat.eqb_eq]%andb_true_iff.
  split; [by destruct d|].
  unfold Re.match_len in Hm.
  remember (Re.span_len Re.is_terminal d) as np eqn:Hnp.
  remember (Re.drop np d) as rest eqn:Hrest.
  destruct ((0 <? np) && (0 <? Re.span_len Str.isspace rest))%nat eqn:Hpos;
    [|by destruct d].
  apply andb_true_iff in Hpos as [_ Hns%Nat.ltb_lt].
  pose proof (span_len_le Re.is_terminal d) as Hle. rewrite <- Hnp in Hle.
  pose proof (length_drop np d Hle) as Hd. rewrite <- Hrest in Hd.
  assert (rest <> EmptyString) as Hne' by (intros ->; simpl in Hns; lia).
  destruct (span_len_full Str.isspace rest) as (c & Hc & Hs); [lia|done|].
  unfold ends_blank.
  rewrite <- (take_drop np d), <- Hrest.
  rewrite last_char_app_r by done. by rewrite Hc.
Qed.

Lemma ends_blank_app a b :
  ends_blank a = true -> ends_blank b = true -> ends_blank (a +:+ b) = true.
Proof.
  intros Ha Hb. destruct b as [|c b]; [by rewrite str_app_nil_r|].
  unfold ends_blank in *. by rewrite last_char_app_r.
Qed.

Lemma interleave_ends_blank pieces : forall delims,
  Forall (fun p => all_ws p = true) pieces ->
  Forall (fun d => is_delimiter d = true) delims ->
  ends_blank (interleave pieces delims) = true.
Proof.
  induction pieces as [|p ps IH]; intros ds Hp Hd; [done|].
  inversion Hp as [|? ? Hp1 Hp2]; subst.
  destruct ds as [|d ds].
  - cbn [interleave]. apply ends_blank_app; [by apply all_ws_ends_blank|].
    clear -Hp2. induction Hp2 as [|x l Hx _ IH]; [done|].
    rewrite str_concat_cons.
    apply ends_blank_app; [by apply all_ws_ends_blank | done].
  - inversion Hd as [|? ? Hd1 Hd2]; subst. cbn [interleave].
    apply ends_blank_app; [by apply all_ws_ends_blank|].
    apply ends_blank_app; [by apply delimiter_ends_blank | by apply IH].
Qed.

Lemma tight_not_ends_blank s : tight s = true -> ends_blank s = false.
Proof.
  unfold tight, ends_blank. intros [_ H]%andb_true_iff.
  destruct (last_char s); [by apply negb_true_iff in H | done].
Qed.

Lemma tight_has_sentence text :
  tight text = true -> sentence_content text <> [].
Proof.
  intros Ht Hnone.
  destruct (split_from_lossless text O ltac:(lia)) as (ds & _ & Hds & Hi).
  fold (Re.split text) in Hi. change (Re.drop 0 text) with text in Hi.
  assert (Forall (fun p => all_ws p = true) (Re.split text)) as Hblank.
  { apply Forall_forall. intros p Hp. apply strip_empty_blank.
    destruct (decide (Str.strip p = EmptyString)) as [|Hne]; [done|].
    assert (Str.strip p ∈ sentence_content text) as Hin.
    { unfold sentence_content. apply list_elem_of_filter. split; [done|].
      by apply list_elem_of_fmap_2. }
    rewrite Hnone in Hin. by apply elem_of_nil in Hin. }
  pose proof (interleave_ends_blank _ _ Hblank Hds) as Hb.
  rewrite Hi in Hb. by rewrite tight_not_ends_blank in Hb.
Qed.

(** X3. A non-empty text without whitespace at its ends, such as every
    dialogue that went through the script validation, has at least one
    phase. *)
Theorem split_stripped_text (text : string) (max_chars : Z) :
  text <> EmptyString -> Str.strip text = text ->
  _split_text_into_phases text max_chars <> [].
Proof.
  intros Hne Hs.
  assert (tight text = true) as Ht.
  { destruct (strip_tight text) as [E|E]; rewrite Hs in E; done. }
  intros E%no_phase_iff_no_sentence. by apply tight_has_sentence in E.
Qed.

Lemma split_stripped_text_witness :
  "Hi there." <> EmptyString /\ Str.strip "Hi there." = "Hi there."
  /\ _split_text_into_phases "Hi there." 800 <> [].
Proof.
  split; [discriminate|]. split; [reflexivity|].
  apply (split_stripped_text "Hi there." 800); [discriminate | reflexivity].
Defined.

(** ** A text that fits is one phase *)

Lemma join_with_merge sep a b l :
  join_with sep (a :: b :: l) = join_with sep ((a +:+ sep +:+ b) :: l).
Proof.
  destruct l as [|c l]; [done|].
  change (join_with sep (a :: b :: c :: l))
    with (a +:+ sep +:+ b +:+ sep +:+ join_with sep (c :: l)).
  change (join_with sep ((a +:+ sep +:+ b) :: c :: l))
    with ((a +:+ sep +:+ b) +:+ sep +:+ join_with sep (c :: l)).
  by rewrite !str_app_assoc.
Qed.

Lemma len_join_head sep a l : len a <= len (join_with sep (a :: l)).
Proof.
  destruct l as [|b l]; [simpl; lia|].
  change (join_with sep (a :: b :: l))
    with (a +:+ sep +:+ join_with sep (b :: l)).
  rewrite !len_app. pose proof (len_nonneg sep).
  pose proof (len_nonneg (join_with sep (b :: l))). lia.
Qed.

Lemma sentence_loop_fits M sentences : forall current,
  tight current = true ->
  let pieces :=
    map terminated
        (filter (fun s => s <> EmptyString) (map Str.strip sentences)) in
  len (join_with " " (current :: pieces)) <= M ->
  foldl (sentence_step M) ([], current) sentences
  = ([], join_with " " (current :: pieces)).
Proof.
  induction sentences as [|x l IH]; intros cur Ht; [done|].
  cbn [map foldl]. rewrite filter_cons.
  unfold sentence_step at 2.
  destruct (strip_tight x) as [E|Hx].
  { rewrite E. rewrite decide_False by (by intros []). simpl.
    by apply IH. }
  assert (Str.strip x <> EmptyString) as Hne by (by apply tight_nonempty).
  rewrite decide_True by done.
  assert (Str.is_empty (Str.strip x) = false) as ->
    by (by destruct (Str.strip x)).
  fold (terminated (Str.strip x)).
  set (t := terminated (Str.strip x)). cbn [map]. fold t.
  intros Hlen. rewrite join_with_merge in Hlen |- *.
  pose proof (len_join_head " " (cur +:+ " " +:+ t)
                (map terminated
                   (filter (fun s => s <> EmptyString) (map Str.strip l))))
    as Hhead.
  rewrite !len_app in Hhead. change (len " ") with 1 in Hhead.
  assert ((len cur + len t >? M) = false) as ->.
  { destruct (Z.gtb_spec (len cur + len t) M); [lia | done]. }
  simpl. destruct cur as [|c cur']; [done|]. simpl.
  apply IH; [|done]. apply tight_join; [done|]. by apply tight_terminated.
Qed.

(** X4. When the sentences of a text, each with its terminal, joined by
    single spaces, fit in [max_chars], the Phase Splitter returns that
    one string as the only phase. *)
Theorem split_text_that_fits (text : string) (max_chars : Z) :
  let joined := join_with " " (map terminated (sentence_content text)) in
  sentence_content text <> [] ->
  len joined <= max_chars ->
  _split_text_into_phases text max_chars = [joined].
Proof.
  cbv zeta. unfold sentence_content, _split_text_into_phases, sentence_phases.
  generalize (Re.split text) as sentences.
  induction sentences as [|x l IH]; [done|].
  cbn [map foldl]. rewrite filter_cons. unfold sentence_step at 2.
  destruct (strip_tight x) as [E|Hx].
  { rewrite E. rewrite decide_False by (by intros []). simpl. apply IH. }
  assert (Str.strip x <> EmptyString) as Hne by (by apply tight_nonempty).
  rewrite decide_True by done.
  assert (Str.is_empty (Str.strip x) = false) as ->
    by (by destruct (Str.strip x)).
  fold (terminated (Str.strip x)).
  set (t := terminated (Str.strip x)). cbn [map]. fold t.
  intros _ Hlen. rewrite andb_false_r. cbn [Str.is_empty negb].
  assert (tight t = true) as Ht by (by apply tight_terminated).
  rewrite sentence_loop_fits by done.
  set (joined := join_with " " (t :: _)) in *.
  assert (tight joined = true) as Hj.
  { pose proof (sentence_loop_tight max_chars l ([], t) (Forall_nil_2 _))
      as H. cbv zeta in H. cbn [fst snd] in H.
    rewrite sentence_loop_fits in H by done. fold joined in H.
    destruct H as [_ [E|[H _]]]; [right; split; [done|]|..].
    - apply ends_terminal_terminated.
    - cbn [snd] in E. subst joined.
      pose proof (len_join_head " " t
        (map terminated (filter (fun s => s <> EmptyString)
                                (map Str.strip l)))) as Hh.
      rewrite E in Hh. apply tight_nonempty in Ht.
      destruct t; [done|]. unfold len in Hh. simpl in Hh. lia.
    - done. }
  rewrite (tight_strip _ Hj).
  assert (Str.is_empty joined = false) as -> by (by destruct joined).
  cbn [negb app foldl]. unfold phase_step, very_long.
  pose proof (len_nonneg joined).
  destruct (Z.gtb_spec (2 * len joined) (3 * max_chars)); [lia | done].
Qed.

Lemma split_text_that_fits_witness :
  sentence_content "Hi there!  How are you?? Fine" <> []
  /\ len "Hi there. How are you. Fine." <= 1000
  /\ _split_text_into_phases "Hi there!  How are you?? Fine" 1000
     = ["Hi there. How are you. Fine."].
Proof.
  assert (sentence_content "Hi there!  How are you?? Fine" <> []) as Hne
    by (vm_compute; discriminate).
  split; [exact Hne|]. split; [by vm_compute|].
  apply (split_text_that_fits "Hi there!  How are you?? Fine" 1000 Hne).
  by vm_compute.
Defined.

(** ** Assembly of one line in the voice-cloning engine *)

Section Assembly.
Context {A : Type} `{Sample A}.
Variable self : ChatterboxTTSGenerator.t A.

Lemma with_gaps_merge (gap a b : list A) l :
  with_gaps gap ((a ++ gap ++ b) :: l) = a ++ gap ++ with_gaps gap (b :: l).
Proof.
  destruct l as [|c l]; [done|].
  change (with_gaps gap ((a ++ gap ++ b) :: c :: l))
    with ((a ++ gap ++ b) ++ gap ++ with_gaps gap (c :: l)).
  change (with_gaps gap (b :: c :: l))
    with (b ++ gap ++ with_gaps gap (c :: l)).
  by rewrite <- !List.app_assoc.
Qed.

Lemma join_loop (gap : list A) rest : forall first,
  foldl (fun segment_audio part => segment_audio ++ gap ++ part) first rest
  = with_gaps gap (first :: rest).
Proof.
  induction rest as [|r l IH]; intros first; [done|].
  cbn [foldl]. rewrite IH, with_gaps_merge. done.
Qed.

(** X5. The waveform of a line is its phase waveforms put end to end
    with a pause of 0.3 s between each two neighbours and none after the
    last; without any phase the assembly raises [IndexError]. *)
Theorem join_phases_spec (segment_audio_parts : list (list A)) :
  let pause := pause_samples 3 10 (ChatterboxTTSGenerator.sr self) in
  (segment_audio_parts = [] ->
   ChatterboxTTSGenerator.join_phases self segment_audio_parts
   = Raise IndexError)
  /\ (segment_audio_parts <> [] ->
      ChatterboxTTSGenerator.join_phases self segment_audio_parts
      = Ok (with_gaps (replicate pause zero) segment_audio_parts)
      /\ length (with_gaps (replicate pause zero) segment_audio_parts)
         = (total_samples segment_audio_parts
            + (length segment_audio_parts - 1) * pause)%nat).
Proof.
  cbv zeta. split; [by intros ->|]. intros Hne.
  split; [|by rewrite length_with_gaps, length_replicate].
  unfold ChatterboxTTSGenerator.join_phases.
  destruct segment_audio_parts as [|first rest]; [done|].
  destruct rest as [|second rest]; [done|].
  cbn [length Nat.ltb Nat.leb]. by rewrite join_loop.
Qed.

Lemma generate_phases_prompt phases : forall acc,
  ChatterboxTTSGenerator.generate_phases self phases acc
  = match phases with
    | [] => Ok acc
    | phase :: phases' =>
        match generate (ChatterboxTTSGenerator.model self) phase
                (active_prompt self) with
        | Ok wav =>
            ChatterboxTTSGenerator.generate_phases self phases'
              (acc ++ [wav])
        | Raise e => Raise e
        end
    end.
Proof.
  intros acc. destruct phases as [|phase l]; [done|].
  cbn [ChatterboxTTSGenerator.generate_phases]. unfold active_prompt.
  destruct (ChatterboxTTSGenerator.reference_audio_path self) as [path|];
    [|done].
  by destruct (Str.is_empty path).
Qed.

Lemma generate_phases_ok phases : forall acc waves,
  ChatterboxTTSGenerator.generate_phases self phases acc = Ok waves
  <-> exists new,
        waves = acc ++ new
        /\ Forall2 (fun phase wav =>
                      generate (ChatterboxTTSGenerator.model self) phase
                        (active_prompt self) = Ok wav) phases new.
Proof.
  induction phases as [|phase l IH]; intros acc waves;
    rewrite generate_phases_prompt.
  { split.
    - intros [= <-]. exists []. by rewrite List.app_nil_r.
    - intros (new & -> & ->%Forall2_nil_inv_l). by rewrite List.app_nil_r. }
  destruct (generate _ phase _) as [wav|e] eqn:E.
  - rewrite IH. split.
    + intros (new & -> & Hnew). exists (wav :: new).
      split; [by rewrite <- List.app_assoc | by constructor].
    + intros (new & -> & Hnew).
      apply Forall2_cons_inv_l in Hnew as (w & new' & Hw & Hnew' & ->).
      rewrite E in Hw. injection Hw as <-.
      exists new'. by rewrite <- List.app_assoc.
  - split; [done|]. intros (new & _ & Hnew).
    apply Forall2_cons_inv_l in Hnew as (w & new' & Hw & _). congruence.
Qed.

Lemma generate_phases_raise phases : forall acc e,
  ChatterboxTTSGenerator.generate_phases self phases acc = Raise e
  <-> exists before phase after,
        phases = before ++ phase :: after
        /\ Forall (fun p =>
                     is_ok (generate (ChatterboxTTSGenerator.model self) p
                              (active_prompt self)) = true) before
        /\ generate (ChatterboxTTSGenerator.model self) phase
             (active_prompt self) = Raise e.
Proof.
  induction phases as [|phase l IH]; intros acc e;
    rewrite generate_phases_prompt.
  { split; [done|]. intros (b & p & a & Hl & _). by destruct b. }
  destruct (generate _ phase _) as [wav|e'] eqn:E.
  - rewrite IH. split.
    + intros (b & p & a & -> & Hb & Hp). exists (phase :: b), p, a.
      split_and!; [done| |done]. constructor; [by rewrite E | done].
    + intros (b & p & a & Hl & Hb & Hp). destruct b as [|x b].
      * simpl in Hl. injection Hl as <- <-. congruence.
      * simpl in Hl. injection Hl as <- ->.
        inversion Hb; subst. by exists b, p, a.
  - split.
    + intros [= <-]. exists [], phase, l. by split_and!.
    + intros (b & p & a & Hl & Hb & Hp). destruct b as [|x b].
      * simpl in Hl. injection Hl as <- <-. congruence.
      * simpl in Hl. injection Hl as <- ->.
        inversion Hb as [|? ? Hx _]; subst. by rewrite E in Hx.
Qed.


End Assembly.

(** X7. After [set_reference_audio] has accepted a non-empty path, every
    phase is generated with that path as audio prompt, whatever
    reference was set before; an engine without reference path generates
    every phase without prompt. *)
Theorem reference_audio_in_force {A : Type} (os : Os)
    (self : ChatterboxTTSGenerator.t A) (path : string) :
  (os_path_exists os path = true -> path <> EmptyString ->
   let self' := (ChatterboxTTSGenerator.set_reference_audio os path self).1 in
   ChatterboxTTSGenerator.model self' = ChatterboxTTSGenerator.model self
   /\ forall phases waves,
        ChatterboxTTSGenerator.generate_phases self' phases [] = Ok waves
        <-> Forall2 (fun phase wav =>
                       generate (ChatterboxTTSGenerator.model self) phase
                         (Some path) = Ok wav) phases waves)
  /\ (ChatterboxTTSGenerator.reference_audio_path self = None ->
      forall phases waves,
        ChatterboxTTSGenerator.generate_phases self phases [] = Ok waves
        <-> Forall2 (fun phase wav =>
                       generate (ChatterboxTTSGenerator.model self) phase
                         None = Ok wav) phases waves).
Proof.
  split.
  - intros Hex Hne. cbv zeta.
    unfold ChatterboxTTSGenerator.set_reference_audio, modify. rewrite Hex.
    simpl. split; [done|]. intros phases waves.
    rewrite generate_phases_ok. unfold active_prompt. simpl.
    assert (Str.is_empty path = false) as -> by (by destruct path). simpl.
    split; [by intros (new & -> & Hnew) | intros Hw; by exists waves].
  - intros Hnone phases waves.
    rewrite generate_phases_ok. unfold active_prompt. rewrite Hnone.
    split; [by intros (new & -> & Hnew) | intros Hw; by exists waves].
Qed.

Lemma join_phases_spec_witness :
  [[4; 5]; [6]] <> []
  /\ ChatterboxTTSGenerator.join_phases demo_chatterbox [[4; 5]; [6]]
     = Ok [4; 5; 0; 0; 0; 6].
Proof.
  assert ([[4; 5]; [6]] <> []) as Hne by discriminate.
  split; [exact Hne|].
  exact (proj1 (proj2 (join_phases_spec demo_chatterbox [[4; 5]; [6]]) Hne)).
Defined.

Lemma reference_audio_in_force_witness :
  os_path_exists demo_os "voice.wav" = true
  /\ "voice.wav" <> EmptyString
  /\ (ChatterboxTTSGenerator.generate_phases
        (ChatterboxTTSGenerator.set_reference_audio demo_os "voice.wav"
           demo_chatterbox).1 ["Hi."] [] = Ok [[4; 5]]
      <-> Forall2 (fun phase wav => generate demo_model phase
                                      (Some "voice.wav") = Ok wav)
                  ["Hi."] [[4; 5]]).
Proof.
  assert ("voice.wav" <> EmptyString) as Hne by discriminate.
  split; [reflexivity|]. split; [exact Hne|].
  exact (proj2 (proj1 (reference_audio_in_force demo_os demo_chatterbox
                         "voice.wav") eq_refl Hne) ["Hi."] [[4; 5]]).
Defined.

(** ** Blank dialogue *)

Lemma clean_blank text : all_ws text = true -> _clean_text_for_tts text = ".".
Proof.
  intros Hws. unfold _clean_text_for_tts, Str.strip.
  by rewrite (lstrip_all_ws _ Hws).
Qed.

(** X8. A line whose dialogue is empty or whitespace only is never
    synthesized by the voice-cloning engine: it has no phase, the
    assembly raises [IndexError] without the model being asked, and the
    line yields no segment.  The fixed-voice engine synthesizes such a
    line as the text of a lone full stop. *)
Theorem blank_dialogue {A : Type} `{Sample A} (os : Os)
    (kokoro : PodcastTTSGenerator.t A) (chatterbox : ChatterboxTTSGenerator.t A)
    (output_dir : string) (i : nat) (speaker dialogue : string)
    (rest : list (string * string)) :
  all_ws dialogue = true ->
  chatterbox_synth chatterbox speaker dialogue = Raise IndexError
  /\ chatterbox_attempt os chatterbox output_dir
       (i, (speaker, dialogue) :: rest) = None
  /\ PodcastTTSGenerator._generate_single_segment kokoro speaker dialogue
     = PodcastTTSGenerator._generate_single_segment kokoro speaker ".".
Proof.
  intros Hblank.
  assert (chatterbox_synth chatterbox speaker dialogue = Raise IndexError)
    as Hsynth.
  { unfold chatterbox_synth.
    assert (_split_text_into_phases dialogue 800 = []) as ->.
    { apply no_phase_iff_no_sentence. unfold sentence_content.
      rewrite re_split_blank by done. simpl. by rewrite strip_blank. }
    done. }
  split_and!; [done| |].
  - unfold chatterbox_attempt, Engine.attempt. by rewrite Hsynth.
  - unfold PodcastTTSGenerator._generate_single_segment.
    by rewrite (clean_blank _ Hblank).
Qed.

Lemma blank_dialogue_witness :
  all_ws "  " = true
  /\ chatterbox_synth demo_chatterbox "Speaker" "  " = Raise IndexError
  /\ PodcastTTSGenerator._generate_single_segment demo_kokoro "Speaker" "  "
     = Ok [1; 2; 3].
Proof.
  destruct (blank_dialogue demo_os demo_kokoro demo_chatterbox "out" 0
              "Speaker" "  " [] eq_refl) as (Hc & _ & Hk).
  split; [reflexivity|]. split; [exact Hc|]. rewrite Hk. reflexivity.
Defined.

(** ** One line in the fixed-voice engine *)

Lemma clean_text_terminal text :
  exists c, last_char (_clean_text_for_tts text) = Some c
            /\ Re.is_terminal c = true.
Proof.
  unfold _clean_text_for_tts.
  set (clean_text := Str.replace "??" "?" _).
  destruct (Str.endswith_any clean_text terminals) eqn:E; simpl.
  - by apply endswith_terminal_last.
  - exists "."%char. split; [apply last_char_app | done].
Qed.

(** X9. The waveform of a line in the fixed-voice engine is the chunks
    the pipeline yields for the cleaned text and the default voice, put
    end to end; no chunk at all is a [ValueError] and an exception of
    the pipeline is passed on.  The speaker plays no part, and the
    pipeline is only ever asked about texts that end in a terminal, with
    the default voice: two generators that agree there yield the same
    waveforms. *)
Theorem single_segment_spec {A : Type} (self : PodcastTTSGenerator.t A)
    (speaker text : string) :
  PodcastTTSGenerator._generate_single_segment self speaker text
  = match PodcastTTSGenerator.pipeline self (_clean_text_for_tts text)
            (PodcastTTSGenerator.default_voice self) with
    | Ok [] => Raise ValueError
    | Ok chunks => Ok (concat chunks)
    | Raise e => Raise e
    end
  /\ forall (self' : PodcastTTSGenerator.t A) (speaker' : string),
       PodcastTTSGenerator.default_voice self'
       = PodcastTTSGenerator.default_voice self ->
       (forall t c, last_char t = Some c -> Re.is_terminal c = true ->
          PodcastTTSGenerator.pipeline self' t
            (PodcastTTSGenerator.default_voice self)
          = PodcastTTSGenerator.pipeline self t
              (PodcastTTSGenerator.default_voice self)) ->
       PodcastTTSGenerator._generate_single_segment self' speaker' text
       = PodcastTTSGenerator._generate_single_segment self speaker text.
Proof.
  split.
  - unfold PodcastTTSGenerator._generate_single_segment.
    destruct (PodcastTTSGenerator.pipeline _ _ _) as [chunks|e]; [|done].
    destruct chunks as [|a [|b l]]; [done| |done].
    simpl. by rewrite List.app_nil_r.
  - intros self' speaker' Hvoice Hagree.
    unfold PodcastTTSGenerator._generate_single_segment.
    destruct (clean_text_terminal text) as (c & Hc & Ht).
    by rewrite Hvoice, (Hagree _ c Hc Ht).
Qed.

(** ** File names *)

Lemma pretty_N_char_digit x :
  (x < 10)%N ->
  is_digit (pretty_N_char x) = true
  /\ N.of_nat (default O (Ascii.is_nat (pretty_N_char x))) = x.
Proof.
  intros Hx.
  assert (x = 0 \/ x = 1 \/ x = 2 \/ x = 3 \/ x = 4 \/ x = 5 \/ x = 6
          \/ x = 7 \/ x = 8 \/ x = 9)%N as H by lia.
  destruct H as [->|[->|[->|[->|[->|[->|[->|[->|[->| ->]]]]]]]]]; done.
Qed.

Lemma digits_value_acc s : forall acc,
  digits_value acc s
  = (acc * 10 ^ N.of_nat (String.length s) + digits_value 0 s)%N.
Proof.
  induction s as [|c s IH]; intros acc.
  { simpl. lia. }
  cbn [digits_value String.length]. rewrite IH, (IH (0 * 10 + _)%N).
  rewrite Nat2N.inj_succ, N.pow_succ_r'. lia.
Qed.

Lemma pretty_N_go_digits x : forall s,
  all_digits s = true ->
  all_digits (pretty_N_go x s) = true
  /\ digits_value 0 (pretty_N_go x s)
     = (x * 10 ^ N.of_nat (String.length s) + digits_value 0 s)%N.
Proof.
  induction (N.lt_wf_0 x) as [x _ IH]; intros s Hs.
  assert (x = 0 \/ 0 < x)%N as [->|Hx] by lia.
  { rewrite pretty_N_go_0. split; [done | lia]. }
  rewrite pretty_N_go_step by done.
  destruct (pretty_N_char_digit (x `mod` 10)) as [Hd Hv].
  { by apply N.mod_lt. }
  destruct (IH (x `div` 10)%N) with (s := String (pretty_N_char (x `mod` 10)) s)
    as [H1 H2].
  { by apply N.div_lt. }
  { simpl. by rewrite Hd, Hs. }
  split; [done|]. rewrite H2.
  cbn [digits_value String.length]. rewrite digits_value_acc, Hv.
  rewrite Nat2N.inj_succ, N.pow_succ_r'.
  pose proof (N.div_mod x 10 ltac:(lia)) as Hdm. nia.
Qed.

Lemma pretty_nat_digits (n : nat) :
  all_digits (pretty n) = true /\ digits_value 0 (pretty n) = N.of_nat n.
Proof.
  unfold pretty, pretty_nat, pretty, pretty_N.
  destruct (decide (N.of_nat n = 0%N)) as [->|Hn]; [done|].
  destruct (pretty_N_go_digits (N.of_nat n) EmptyString eq_refl) as [H1 H2].
  split; [done|]. rewrite H2. simpl. lia.
Qed.

Lemma zeros_digits k s :
  all_digits s = true ->
  all_digits (zeros k +:+ s) = true
  /\ digits_value 0 (zeros k +:+ s) = digits_value 0 s.
Proof.
  intros Hs. induction k as [|k [IH1 IH2]]; [done|].
  cbn [zeros]. rewrite str_app_cons. split; [by simpl; rewrite IH1|].
  change (digits_value 0 (String "0" ?x)) with (digits_value 0 x).
  exact IH2.
Qed.

Lemma format_03d_digits n :
  all_digits (format_03d n) = true
  /\ digits_value 0 (format_03d n) = N.of_nat n.
Proof.
  unfold format_03d. destruct (pretty_nat_digits n) as [H1 H2].
  destruct (zeros_digits (3 - String.length (pretty n)) _ H1) as [H3 H4].
  split; [done|]. by rewrite H4.
Qed.

Lemma digits_prefix a : forall b c r c' r',
  all_digits a = true -> all_digits b = true ->
  is_digit c = false -> is_digit c' = false ->
  a +:+ String c r = b +:+ String c' r' -> a = b.
Proof.
  induction a as [|x a IH]; intros [|y b] c r c' r' Ha Hb Hc Hc' E.
  - done.
  - rewrite str_app_nil_l, str_app_cons in E. injection E as -> _.
    simpl in Hb. by rewrite Hc in Hb.
  - rewrite str_app_nil_l, str_app_cons in E. injection E as -> _.
    simpl in Ha. by rewrite Hc' in Ha.
  - rewrite !str_app_cons in E. injection E as -> E.
    simpl in Ha, Hb. apply andb_true_iff in Ha as [_ Ha], Hb as [_ Hb].
    f_equal. exact (IH _ _ _ _ _ Ha Hb Hc Hc' E).
Qed.

Lemma segment_filename_index i j speaker speaker' :
  segment_filename i speaker = segment_filename j speaker' -> i = j.
Proof.
  unfold segment_filename. intros E.
  apply (inj (String.app "segment_")) in E.
  change ("_" +:+ ?x) with (String "_" x) in E.
  destruct (format_03d_digits (i + 1)) as [H1 H2].
  destruct (format_03d_digits (j + 1)) as [H3 H4].
  apply digits_prefix in E; [|done..].
  rewrite E in H2. rewrite H2 in H4. lia.
Qed.

(** The directory part [os.path.join] puts before a relative name. *)
Lemma path_join_relative a b :
  String.prefix "/" b = false ->
  path_join a b
  = (if Str.is_empty a || Str.endswith a "/" then a else a +:+ "/") +:+ b.
Proof.
  intros Hb. unfold path_join. rewrite Hb.
  destruct (_ || _); [done|]. by rewrite str_app_assoc.
Qed.

Lemma segment_path_index output_dir i j speaker speaker' :
  segment_path output_dir i speaker = segment_path output_dir j speaker' ->
  i = j.
Proof.
  unfold segment_path. rewrite !path_join_relative by reflexivity.
  intros E%(inj (String.app _)). by eapply segment_filename_index.
Qed.

Lemma segment_path_not_combined output_dir i speaker :
  segment_path output_dir i speaker <> combined_path output_dir.
Proof.
  unfold segment_path, combined_path.
  rewrite !path_join_relative by reflexivity.
  intros E%(inj (String.app _)). discriminate E.
Qed.

(** X10. Within one output directory, the segment files of two different
    script positions have different paths, whatever the speakers, and
    no segment file has the path of the combined podcast: a run never
    writes one of its files over another. *)
Theorem segment_paths_distinct (output_dir : string) (i j : nat)
    (speaker speaker' : string) :
  (segment_path output_dir i speaker = segment_path output_dir j speaker' ->
   i = j)
  /\ segment_path output_dir i speaker <> combined_path output_dir
  /\ (i <> j ->
      segment_filename i speaker <> segment_filename j speaker').
Proof.
  split_and!.
  - apply segment_path_index.
  - apply segment_path_not_combined.
  - intros Hij E. by apply segment_filename_index in E.
Qed.

(** ** The files a run leaves on disk *)

Section Files.
Context {A : Type} `{Sample A}.
Variable os : Os.
Variable synth : string -> string -> res (list A).
Variable rate : positive.
Variable pause : nat.
Implicit Types (st : run A) (lines : list (list (string * string))).

Lemma attempt_path output_dir i line_dict segment :
  Engine.attempt os synth rate output_dir (i, line_dict) = Some segment ->
  exists speaker,
    AudioSegment.file_path segment = segment_path output_dir i speaker.
Proof.
  unfold Engine.attempt.
  destruct line_dict as [|[speaker dialogue] rest]; [done|].
  destruct (synth speaker dialogue); [|done].
  destruct (sf_writable os _); [|done].
  intros [= <-]. by exists speaker.
Qed.

Lemma produced_paths_from output_dir lines : forall k path,
  path ∈ map AudioSegment.file_path
         (omap (Engine.attempt os synth rate output_dir)
               (zip (seq k (length lines)) lines)) ->
  exists j speaker,
    (k <= j)%nat /\ path = segment_path output_dir j speaker.
Proof.
  induction lines as [|line_dict lines IH]; intros k path Hin.
  { by apply elem_of_nil in Hin. }
  change (zip (seq k (length (line_dict :: lines))) (line_dict :: lines))
    with ((k, line_dict) :: zip (seq (S k) (length lines)) lines) in Hin.
  cbn [omap list_omap] in Hin.
  destruct (Engine.attempt _ _ _ _ (k, line_dict)) as [segment|] eqn:E.
  - cbn [map] in Hin. apply elem_of_cons in Hin as [->|Hin].
    + destruct (attempt_path _ _ _ _ E) as [speaker ->].
      exists k, speaker. split; [lia | done].
    + destruct (IH _ _ Hin) as (j & speaker & Hj & ->).
      exists j, speaker. split; [lia | done].
  - destruct (IH _ _ Hin) as (j & speaker & Hj & ->).
    exists j, speaker. split; [lia | done].
Qed.

Lemma produced_paths_nodup output_dir lines : forall k,
  NoDup (map AudioSegment.file_path
           (omap (Engine.attempt os synth rate output_dir)
                 (zip (seq k (length lines)) lines))).
Proof.
  induction lines as [|line_dict lines IH]; intros k; [constructor|].
  change (zip (seq k (length (line_dict :: lines))) (line_dict :: lines))
    with ((k, line_dict) :: zip (seq (S k) (length lines)) lines).
  cbn [omap list_omap].
  destruct (Engine.attempt _ _ _ _ (k, line_dict)) as [segment|] eqn:E;
    [|apply IH].
  cbn [map]. constructor; [|apply IH].
  intros Hin. destruct (attempt_path _ _ _ _ E) as [speaker Hp].
  destruct (produced_paths_from _ _ _ _ Hin) as (j & speaker' & Hj & Hp').
  rewrite Hp in Hp'.
  apply segment_path_index in Hp'. lia.
Qed.

Lemma produced_not_combined output_dir lines :
  combined_path output_dir
  ∉ map AudioSegment.file_path
      (Engine.produced os synth rate output_dir lines).
Proof.
  intros Hin. destruct (produced_paths_from _ _ _ _ Hin) as (j & sp & _ & E).
  symmetry in E. by apply segment_path_not_combined in E.
Qed.

Lemma store_lookup segments :
  forall (d : gmap string (list A * positive)) segment,
  NoDup (map AudioSegment.file_path segments) ->
  segment ∈ segments ->
  Engine.store rate d segments !! AudioSegment.file_path segment
  = Some (AudioSegment.audio_data segment, rate).
Proof.
  induction segments as [|x l IH]; intros d segment Hnd Hin.
  { by apply elem_of_nil in Hin. }
  cbn [map] in Hnd. apply NoDup_cons in Hnd as [Hx Hnd].
  rewrite store_cons.
  apply elem_of_cons in Hin as [->|Hin]; [|by apply IH].
  rewrite store_frame by done. by rewrite lookup_insert_eq.
Qed.

Lemma attempt_produced output_dir lines i line_dict segment :
  lines !! i = Some line_dict ->
  Engine.attempt os synth rate output_dir (i, line_dict) = Some segment ->
  segment ∈ Engine.produced os synth rate output_dir lines.
Proof.
  intros Hi E. unfold Engine.produced, enumerate.
  apply list_elem_of_omap. exists (i, line_dict). split; [|done].
  apply list_elem_of_lookup. exists i.
  apply lookup_zip_Some. split; [|done].
  apply lookup_seq. split; [done|]. by eapply lookup_lt_Some.
Qed.

Lemma engine_line_file podcast_script output_dir combine_audio st
    i speaker dialogue rest audio :
  mkdir os output_dir = Ok tt ->
  Forall (fun line_dict => line_dict <> []) (script podcast_script) ->
  script podcast_script !! i = Some ((speaker, dialogue) :: rest) ->
  synth speaker dialogue = Ok audio ->
  sf_writable os (segment_path output_dir i speaker) = true ->
  disk (Engine.generate os synth rate pause podcast_script output_dir
          combine_audio st).1 !! segment_path output_dir i speaker
  = Some (audio, rate).
Proof.
  intros Hmk Hne Hi Hs Hw.
  set (segment := AudioSegment.mk speaker dialogue audio
                    (Qmake (Z.of_nat (length audio)) rate)
                    (segment_path output_dir i speaker)).
  assert (segment ∈ Engine.produced os synth rate output_dir
                      (script podcast_script)) as Hin.
  { eapply attempt_produced; [done|].
    unfold Engine.attempt. by rewrite Hs, Hw. }
  assert (Engine.store rate (disk st)
            (Engine.produced os synth rate output_dir (script podcast_script))
          !! segment_path output_dir i speaker = Some (audio, rate)) as Hl.
  { apply (store_lookup _ (disk st) segment); [|done].
    apply produced_paths_nodup. }
  rewrite generate_spec by done. cbv zeta.
  destruct (combine_audio && _); [|done].
  destruct (sf_writable os (combined_path output_dir)); [|done].
  cbn [fst disk]. rewrite lookup_insert_ne; [done|].
  intros E. symmetry in E. by apply segment_path_not_combined in E.
Qed.

Lemma engine_combined_file podcast_script output_dir st :
  mkdir os output_dir = Ok tt ->
  Forall (fun line_dict => line_dict <> []) (script podcast_script) ->
  let segments :=
    Engine.produced os synth rate output_dir (script podcast_script) in
  let out := Engine.generate os synth rate pause podcast_script output_dir
               true st in
  segments <> [] ->
  sf_writable os (combined_path output_dir) = true ->
  disk out.1 !! combined_path output_dir
  = Some (with_gaps (replicate pause zero)
            (map AudioSegment.audio_data segments), rate)
  /\ audio_segments out.1 = segments.
Proof.
  intros Hmk Hne segments out Hsegs Hw. unfold out.
  rewrite generate_spec by done. cbv zeta. fold segments.
  rewrite bool_decide_eq_false_2, Hw by done. cbn [andb negb fst disk].
  by rewrite lookup_insert_eq.
Qed.

End Files.

Section Disk.
Context {A : Type} `{Sample A}.
Variable os : Os.
Variable kokoro : PodcastTTSGenerator.t A.
Variable chatterbox : ChatterboxTTSGenerator.t A.

(** X11. When a run ends, the segment file of every line whose waveform
    was synthesized and written holds exactly that waveform at the
    engine's sample rate: no later line and not the combined file is
    written over it, whether or not other lines failed and whether or
    not the combined write raised.  Both engines. *)
Theorem line_file_holds_waveform (podcast_script : PodcastScript)
    (output_dir : string) (combine_audio : bool) (st : run A)
    (i : nat) (speaker dialogue : string) (rest : list (string * string))
    (audio : list A) :
  mkdir os output_dir = Ok tt ->
  Forall (fun line_dict => line_dict <> []) (script podcast_script) ->
  script podcast_script !! i = Some ((speaker, dialogue) :: rest) ->
  sf_writable os (segment_path output_dir i speaker) = true ->
  (PodcastTTSGenerator._generate_single_segment kokoro speaker dialogue
   = Ok audio ->
   disk (PodcastTTSGenerator.generate_podcast_audio os kokoro podcast_script
           output_dir combine_audio st).1
   !! segment_path output_dir i speaker
   = Some (audio, PodcastTTSGenerator.sample_rate kokoro))
  /\ (chatterbox_synth chatterbox speaker dialogue = Ok audio ->
      disk (ChatterboxTTSGenerator.generate_podcast_audio os chatterbox
              podcast_script output_dir combine_audio st).1
      !! segment_path output_dir i speaker
      = Some (audio, ChatterboxTTSGenerator.sr chatterbox)).
Proof.
  intros Hmk Hne Hi Hw. split; intros Hs.
  - rewrite kokoro_generate_eq. by eapply engine_line_file.
  - rewrite chatterbox_generate_eq. by eapply engine_line_file.
Qed.

(** X12. A run with [combine_audio] in which at least one line succeeded
    and the combined file can be written leaves in
    [complete_podcast.wav] the waveforms of the succeeded lines, in
    script order, with one pause of zeros (0.2 s resp. 0.5 s) between
    each two neighbours; failed lines contribute neither samples nor a
    pause.  Both engines. *)
Theorem combined_file_holds_succeeded (podcast_script : PodcastScript)
    (output_dir : string) (st : run A) :
  mkdir os output_dir = Ok tt ->
  Forall (fun line_dict => line_dict <> []) (script podcast_script) ->
  sf_writable os (combined_path output_dir) = true ->
  (let rate := PodcastTTSGenerator.sample_rate kokoro in
   let segments :=
     kokoro_produced os kokoro output_dir (script podcast_script) in
   segments <> [] ->
   disk (PodcastTTSGenerator.generate_podcast_audio os kokoro podcast_script
           output_dir true st).1
   !! combined_path output_dir
   = Some (with_gaps (replicate (pause_samples 2 10 rate) zero)
             (map AudioSegment.audio_data segments), rate))
  /\ (let rate := ChatterboxTTSGenerator.sr chatterbox in
      let segments :=
        chatterbox_produced os chatterbox output_dir
          (script podcast_script) in
      segments <> [] ->
      disk (ChatterboxTTSGenerator.generate_podcast_audio os chatterbox
              podcast_script output_dir true st).1
      !! combined_path output_dir
      = Some (with_gaps (replicate (pause_samples 5 10 rate) zero)
                (map AudioSegment.audio_data segments), rate)).
Proof.
  intros Hmk Hne Hw. split; intros rate segments Hsegs.
  - rewrite kokoro_generate_eq. by apply engine_combined_file.
  - rewrite chatterbox_generate_eq. by apply engine_combined_file.
Qed.

End Disk.

Lemma line_file_holds_waveform_witness :
  mkdir demo_os "out" = Ok tt
  /\ Forall (fun line_dict : list (string * string) => line_dict <> [])
            (script failing_script)
  /\ script failing_script !! 2%nat = Some [("Speaker", "Bye.")]
  /\ sf_writable demo_os (segment_path "out" 2 "Speaker") = true
  /\ disk (PodcastTTSGenerator.generate_podcast_audio demo_os demo_kokoro
             failing_script "out" true fresh_run).1
     !! "out/segment_003_speaker.wav" = Some ([1; 2; 3], 10%positive)
  /\ disk (ChatterboxTTSGenerator.generate_podcast_audio demo_os
             demo_chatterbox failing_script "out" true fresh_run).1
     !! "out/segment_003_speaker.wav" = Some ([4; 5], 10%positive).
Proof.
  assert (Forall (fun line_dict : list (string * string) => line_dict <> [])
                 (script failing_script)) as Hlines.
  { repeat constructor; discriminate. }
  destruct (line_file_holds_waveform demo_os demo_kokoro demo_chatterbox
              failing_script "out" true fresh_run 2 "Speaker" "Bye." []
              [1; 2; 3] eq_refl Hlines eq_refl eq_refl) as [Hk _].
  destruct (line_file_holds_waveform demo_os demo_kokoro demo_chatterbox
              failing_script "out" true fresh_run 2 "Speaker" "Bye." []
              [4; 5] eq_refl Hlines eq_refl eq_refl) as [_ Hc].
  split; [reflexivity|]. split; [exact Hlines|].
  split; [reflexivity|]. split; [reflexivity|].
  split; [exact (Hk eq_refl) | exact (Hc eq_refl)].
Defined.

Lemma combined_file_holds_succeeded_witness :
  mkdir demo_os "out" = Ok tt
  /\ Forall (fun line_dict : list (string * string) => line_dict <> [])
            (script failing_script)
  /\ sf_writable demo_os (combined_path "out") = true
  /\ kokoro_produced demo_os demo_kokoro "out" (script failing_script) <> []
  /\ disk (PodcastTTSGenerator.generate_podcast_audio demo_os demo_kokoro
             failing_script "out" true fresh_run).1
     !! "out/complete_podcast.wav"
     = Some ([1; 2; 3; 0; 0; 1; 2; 3], 10%positive).
Proof.
  assert (Forall (fun line_dict : list (string * string) => line_dict <> [])
                 (script failing_script)) as Hlines.
  { repeat constructor; discriminate. }
  assert (kokoro_produced demo_os demo_kokoro "out" (script failing_script)
          <> []) as Hsegs.
  { vm_compute. discriminate. }
  destruct (combined_file_holds_succeeded demo_os demo_kokoro demo_chatterbox
              failing_script "out" fresh_run eq_refl Hlines eq_refl)
    as [Hk _].
  split; [reflexivity|]. split; [exact Hlines|]. split; [reflexivity|].
  split; [exact Hsegs | exact (Hk Hsegs)].
Defined.

(** ** Script validation *)

Lemma strip_idem s : Str.strip (Str.strip s) = Str.strip s.
Proof.
  destruct (strip_tight s) as [->|Ht]; [done|]. by apply tight_strip.
Qed.

Lemma strip_empty_iff s : Str.strip s = EmptyString <-> all_ws s = true.
Proof. split; [apply strip_empty_blank | apply strip_blank]. Qed.

Lemma is_empty_strip s : Str.is_empty (Str.strip s) = all_ws s.
Proof.
  destruct (all_ws s) eqn:E.
  - by rewrite strip_blank.
  - destruct (Str.strip s) eqn:E'; [|done].
    apply strip_empty_blank in E'. congruence.
Qed.

(** The speaker and the dialogue one kept item yields. *)
Lemma kept_entry_clean speaker dialogue :
  all_ws dialogue = false ->
  clean_line
    [(if negb (bool_decide (Str.lower (Str.strip speaker) ∈ ["speaker"]))
      then "Speaker" else Str.strip speaker,
      if negb (Str.endswith_any (Str.strip dialogue) ["."; "!"; "?"])
      then Str.strip dialogue +:+ "." else Str.strip dialogue)].
Proof.
  intros Hd. eexists _, _. split; [done|].
  assert (tight (Str.strip dialogue) = true) as Ht.
  { destruct (strip_tight dialogue) as [E|E]; [|done].
    apply strip_empty_blank in E. congruence. }
  apply tight_terminated in Ht as Ht'.
  pose proof (ends_terminal_terminated (Str.strip dialogue)) as He.
  change (tight (if negb (Str.endswith_any (Str.strip dialogue)
                            ["."; "!"; "?"])
                 then Str.strip dialogue +:+ "." else Str.strip dialogue)
          = true) in Ht'.
  change (Str.endswith_any
            (if negb (Str.endswith_any (Str.strip dialogue) ["."; "!"; "?"])
             then Str.strip dialogue +:+ "." else Str.strip dialogue)
            terminals = true) in He.
  split_and!.
  - destruct (bool_decide _) eqn:E; [|done].
    apply bool_decide_eq_true in E. by apply list_elem_of_singleton in E.
  - destruct (negb (bool_decide _)); [reflexivity | apply strip_idem].
  - by apply tight_nonempty.
  - by apply tight_strip.
  - done.
Qed.

Lemma validate_loop_ok script : forall acc cleaned,
  PodcastScriptGenerator.validate_loop script acc = inr cleaned ->
  exists new,
    cleaned = acc ++ new /\ Forall clean_line new
    /\ length new = length (filter (fun item => usable item = true) script)
    /\ Forall (fun item => ill_typed item = false) script.
Proof.
  induction script as [|item script IH]; intros acc cleaned.
  { intros [= <-]. exists []. by rewrite List.app_nil_r. }
  assert (forall cleaned',
            PodcastScriptGenerator.validate_loop script acc = inr cleaned' ->
            usable item = false -> ill_typed item = false ->
            exists new,
              cleaned' = acc ++ new /\ Forall clean_line new
              /\ length new
                 = length (filter (fun item => usable item = true)
                             (item :: script))
              /\ Forall (fun item => ill_typed item = false)
                   (item :: script)) as Hskip.
  { intros cleaned' Hl Hu Hi. destruct (IH _ _ Hl) as (new & -> & ? & ? & ?).
    exists new. rewrite filter_cons_False by congruence.
    split_and!; [done..|]. by constructor. }
  cbn [PodcastScriptGenerator.validate_loop].
  destruct item as [[|[speaker [dialogue|]] [|second rest]]|];
    try (intros Hl; by apply Hskip); try done.
  rewrite is_empty_strip. destruct (all_ws dialogue) eqn:Hd.
  { intros Hl. apply Hskip; [done| |done]. simpl. by rewrite Hd. }
  intros Hl. destruct (IH _ _ Hl) as (new & -> & Hnew & Hlen & Hty).
  eexists (_ :: new). rewrite <- List.app_assoc. split; [done|].
  rewrite filter_cons_True by (simpl; by rewrite Hd).
  split_and!; [|by simpl; rewrite Hlen|by constructor].
  constructor; [|done]. by apply kept_entry_clean.
Qed.

Lemma validate_loop_raise script : forall acc e,
  PodcastScriptGenerator.validate_loop script acc = inl e ->
  e = ScriptAttributeError /\ Exists (fun item => ill_typed item = true) script.
Proof.
  induction script as [|item script IH]; intros acc e; [done|].
  cbn [PodcastScriptGenerator.validate_loop].
  destruct item as [[|[speaker [dialogue|]] [|second rest]]|];
    try (intros [-> Hex]%IH; split; [done|]; by apply Exists_cons_tl).
  - destruct (Str.is_empty _);
      intros [-> Hex]%IH; (split; [done|]); by apply Exists_cons_tl.
  - intros [= <-]. split; [done|]. by apply Exists_cons_hd.
Qed.

Lemma validate_loop_clean lines : forall acc,
  Forall clean_line lines ->
  PodcastScriptGenerator.validate_loop (map as_item lines) acc
  = inr (acc ++ lines).
Proof.
  induction lines as [|line lines IH]; intros acc Hc.
  { by rewrite List.app_nil_r. }
  inversion Hc as [|? ? Hline Hrest]; subst.
  destruct Hline as (speaker & dialogue & -> & Hlow & Hsp & Hne & Hsd & Hend).
  cbn [map as_item fst snd PodcastScriptGenerator.validate_loop].
  rewrite Hsp, Hsd, Hlow.
  rewrite bool_decide_eq_true_2 by (by apply list_elem_of_singleton).
  destruct dialogue as [|c d]; [done|]. cbn [Str.is_empty negb].
  unfold terminals in Hend. rewrite Hend. cbn [negb].
  rewrite IH by done. by rewrite <- List.app_assoc.
Qed.

(** X13. A script that comes out of the validation has at least two
    lines and no more lines than the input has items; every line is a
    single entry whose speaker lowers to [speaker] and whose dialogue is
    not empty, has no whitespace at its ends and ends in [.], [!] or
    [?]. *)
Theorem validated_script_shape (script : list json_item)
    (cleaned : list (list (string * string))) :
  PodcastScriptGenerator._validate_and_clean_script script = inr cleaned ->
  (2 <= length cleaned <= length script)%nat
  /\ Forall clean_line cleaned.
Proof.
  unfold PodcastScriptGenerator._validate_and_clean_script.
  destruct (PodcastScriptGenerator.validate_loop script []) as [e|l] eqn:E;
    [done|].
  destruct (length l <? 2)%nat eqn:Hlen; [done|]. intros [= <-].
  apply Nat.ltb_ge in Hlen.
  destruct (validate_loop_ok _ _ _ E) as (new & -> & Hnew & Hn & _).
  rewrite List.app_nil_l in *. split; [|done]. split; [done|].
  rewrite Hn. apply length_filter.
Qed.

(** X14. What the validation ends with, by the items of the input.  It
    raises [AttributeError] exactly when some single-entry object has a
    value that is not a string.  Otherwise the items that are not
    single-entry objects, and those whose string is blank, are dropped
    without an error and each other item gives one line: it raises
    [ValueError] exactly when fewer than two items are left, and returns
    as many lines as items are left when there are two or more. *)
Theorem validation_outcome (script : list json_item) :
  let out := PodcastScriptGenerator._validate_and_clean_script script in
  let kept := length (filter (fun item => usable item = true) script) in
  (out = inl ScriptAttributeError
   <-> Exists (fun item => ill_typed item = true) script)
  /\ (out = inl ScriptValueError
      <-> Forall (fun item => ill_typed item = false) script
          /\ (kept < 2)%nat)
  /\ (forall cleaned, out = inr cleaned -> length cleaned = kept).
Proof.
  cbv zeta. unfold PodcastScriptGenerator._validate_and_clean_script.
  destruct (PodcastScriptGenerator.validate_loop script []) as [e|l] eqn:E.
  - destruct (validate_loop_raise _ _ _ E) as [-> Hex]. split_and!.
    + done.
    + split; [done|]. intros [Hall _].
      apply Exists_exists in Hex as (item & Hin & Hi).
      rewrite Forall_forall in Hall. specialize (Hall _ Hin). congruence.
    + done.
  - destruct (validate_loop_ok _ _ _ E) as (new & -> & _ & Hn & Hty).
    rewrite List.app_nil_l. rewrite <- Hn. split_and!.
    + split; [by destruct (_ <? _)%nat|].
      intros (item & Hin & Hi)%Exists_exists.
      rewrite Forall_forall in Hty. specialize (Hty _ Hin). congruence.
    + destruct (length new <? 2)%nat eqn:Hlen.
      * apply Nat.ltb_lt in Hlen. done.
      * apply Nat.ltb_ge in Hlen. split; [done|]. intros [_ ?]. lia.
    + intros cleaned. destruct (_ <? _)%nat; [done|]. by intros [= <-].
Qed.

(** X15. The validation changes nothing in a script it has validated:
    given the lines it returned, it returns them again. *)
Theorem validation_idempotent (script : list json_item)
    (cleaned : list (list (string * string))) :
  PodcastScriptGenerator._validate_and_clean_script script = inr cleaned ->
  PodcastScriptGenerator._validate_and_clean_script (map as_item cleaned)
  = inr cleaned.
Proof.
  unfold PodcastScriptGenerator._validate_and_clean_script at 1.
  destruct (PodcastScriptGenerator.validate_loop script []) as [e|l] eqn:E;
    [done|].
  destruct (length l <? 2)%nat eqn:Hlen; [done|]. intros [= <-].
  destruct (validate_loop_ok _ _ _ E) as (new & -> & Hnew & _).
  rewrite List.app_nil_l in *.
  unfold PodcastScriptGenerator._validate_and_clean_script.
  rewrite validate_loop_clean by done. by rewrite List.app_nil_l, Hlen.
Qed.

Lemma validated_script_shape_witness :
  PodcastScriptGenerator._validate_and_clean_script demo_items
  = inr (script demo_script)
  /\ (2 <= length (script demo_script) <= length demo_items)%nat
  /\ Forall clean_line (script demo_script).
Proof.
  split; [reflexivity|].
  exact (validated_script_shape demo_items (script demo_script) eq_refl).
Defined.

Lemma validation_idempotent_witness :
  PodcastScriptGenerator._validate_and_clean_script demo_items
  = inr (script demo_script)
  /\ PodcastScriptGenerator._validate_and_clean_script
       (map as_item (script demo_script))
     = inr (script demo_script).
Proof.
  split; [reflexivity|].
  exact (validation_idempotent demo_items (script demo_script) eq_refl).
Defined.

(** ** A validated script in the generators *)

Lemma replace_space_free s : forall t,
  Str.lower s = t -> Str.replace " " "_" t = t -> Str.replace " " "_" s = s.
Proof.
  unfold Str.replace, Str.lower.
  induction s as [|c s IH]; intros t Ht Hr; [done|].
  cbn [Str.map_chars] in Ht. subst t.
  cbn [Str.replace_from String.prefix] in Hr |- *.
  destruct (ascii_dec " " (Str.lower_char c)) as [E|E].
  { replace (String.prefix EmptyString (Str.map_chars Str.lower_char s))
      with true in Hr by (by destruct (Str.map_chars _ _)).
    rewrite <- E in Hr. discriminate Hr. }
  injection Hr as Hr.
  destruct (ascii_dec " " c) as [<-|E']; [by destruct E|].
  f_equal. exact (IH _ eq_refl Hr).
Qed.

Lemma clean_line_filename i speaker :
  Str.lower speaker = "speaker" ->
  segment_filename i speaker
  = "segment_" +:+ format_03d (i + 1) +:+ "_speaker.wav".
Proof.
  intros Hl. unfold segment_filename.
  by rewrite (replace_space_free speaker "speaker" Hl eq_refl), Hl.
Qed.

Section Validated.
Context {A : Type} `{Sample A}.
Variable os : Os.
Variable chatterbox : ChatterboxTTSGenerator.t A.

(** X16. A validated script has what the generators rely on.  Every line
    has an entry, so no run ends on a line without one; the segment
    file of line [i] is named [segment_NNN_speaker.wav] with [NNN] the
    position counted from one; and every dialogue has at least one
    phase.  So in the voice-cloning engine the synthesis of a line can
    fail only with an exception the model raised on one of its phases,
    and a line yields no segment only then or when its segment file
    cannot be written. *)
Theorem validated_script_runs (items : list json_item)
    (podcast_script : PodcastScript) (output_dir : string) :
  PodcastScriptGenerator._validate_and_clean_script items
  = inr (script podcast_script) ->
  Forall (fun line_dict => line_dict <> []) (script podcast_script)
  /\ forall i line_dict,
       script podcast_script !! i = Some line_dict ->
       exists speaker dialogue,
         line_dict = [(speaker, dialogue)]
         /\ segment_path output_dir i speaker
            = path_join output_dir
                ("segment_" +:+ format_03d (i + 1) +:+ "_speaker.wav")
         /\ _split_text_into_phases dialogue 800 <> []
         /\ (forall e,
               chatterbox_synth chatterbox speaker dialogue = Raise e ->
               exists phase,
                 phase ∈ _split_text_into_phases dialogue 800
                 /\ generate (ChatterboxTTSGenerator.model chatterbox) phase
                      (active_prompt chatterbox) = Raise e)
         /\ (chatterbox_attempt os chatterbox output_dir (i, line_dict)
             = None ->
             sf_writable os (segment_path output_dir i speaker) = false
             \/ exists phase e,
                  phase ∈ _split_text_into_phases dialogue 800
                  /\ generate (ChatterboxTTSGenerator.model chatterbox)
                       phase (active_prompt chatterbox) = Raise e).
Proof.
  unfold PodcastScriptGenerator._validate_and_clean_script.
  destruct (PodcastScriptGenerator.validate_loop items []) as [e|l] eqn:E;
    [done|].
  destruct (length l <? 2)%nat; [done|]. intros [= <-].
  destruct (validate_loop_ok _ _ _ E) as (new & -> & Hnew & _).
  rewrite List.app_nil_l. split.
  { eapply Forall_impl; [exact Hnew|].
    by intros line (speaker & dialogue & -> & _). }
  intros i line_dict Hi.
  rewrite Forall_forall in Hnew.
  destruct (Hnew line_dict) as (speaker & dialogue & -> & Hlow & _ & Hne
                                & Hs & _).
  { by eapply list_elem_of_lookup_2. }
  exists speaker, dialogue. split; [done|].
  assert (_split_text_into_phases dialogue 800 <> []) as Hphases.
  { assert (tight dialogue = true) as Ht.
    { destruct (strip_tight dialogue) as [E'|E']; rewrite Hs in E'; done. }
    intros E'%no_phase_iff_no_sentence. by apply tight_has_sentence in E'. }
  assert (forall e,
            chatterbox_synth chatterbox speaker dialogue = Raise e ->
            exists phase,
              phase ∈ _split_text_into_phases dialogue 800
              /\ generate (ChatterboxTTSGenerator.model chatterbox) phase
                   (active_prompt chatterbox) = Raise e) as Hsynth.
  { intros e. unfold chatterbox_synth.
    destruct (ChatterboxTTSGenerator.generate_phases _ _ _) as [parts|e']
      eqn:Hg.
    - apply generate_phases_ok in Hg as (waves & -> & Hf).
      rewrite List.app_nil_l.
      destruct (_split_text_into_phases dialogue 800) as [|p ps]; [done|].
      apply Forall2_cons_inv_l in Hf as (w & ws & _ & _ & ->).
      unfold ChatterboxTTSGenerator.join_phases.
      by destruct (_ <? _)%nat.
    - intros [= <-].
      apply generate_phases_raise in Hg as (b & p & a & -> & _ & Hp).
      exists p. split; [|done]. apply elem_of_app. right. by left. }
  split_and!; [|done|done|].
  { unfold segment_path. by rewrite clean_line_filename. }
  unfold chatterbox_attempt, Engine.attempt.
  destruct (chatterbox_synth chatterbox speaker dialogue) as [audio|e]
    eqn:Hs'.
  - destruct (sf_writable os _); [done | by left].
  - intros _. right. destruct (Hsynth e eq_refl) as (phase & Hin & Hp).
    by exists phase, e.
Qed.

End Validated.

Lemma validated_script_runs_witness :
  PodcastScriptGenerator._validate_and_clean_script demo_items
  = inr (script demo_script)
  /\ Forall (fun line_dict : list (string * string) => line_dict <> [])
            (script demo_script)
  /\ exists speaker dialogue,
       [("Speaker", "Bye.")] = [(speaker, dialogue)]
       /\ segment_path "out" 1 speaker = "out/segment_002_speaker.wav"
       /\ _split_text_into_phases dialogue 800 <> [].
Proof.
  destruct (validated_script_runs demo_os demo_chatterbox demo_items
              demo_script "out" eq_refl) as [Hne Hlines].
  destruct (Hlines 1%nat [("Speaker", "Bye.")] eq_refl)
    as (speaker & dialogue & E & Hpath & Hphases & _).
  split; [reflexivity|]. split; [exact Hne|].
  exists speaker, dialogue. split; [exact E|].
  split; [exact Hpath | exact Hphases].
Defined.

(** ** What construction leaves behind *)

Section Constructed.
Context {A : Type} `{Sample A}.
Variable torch : Torch A.
Implicit Types (p : process) (device : option string).

(** X17. Without the Chatterbox library construction raises
    [ImportError] and touches nothing.  With it, construction sets
    [PYTORCH_ENABLE_MPS_FALLBACK] to [1] in the environment of the
    process, over any value it had, and leaves every other variable as
    it was; this holds on every path, also when the model cannot be
    loaded and construction fails. *)
Theorem construction_environment device p :
  let out := ChatterboxTTSGenerator.__init__ torch device p in
  (CHATTERBOX_AVAILABLE torch = false -> out = (p, Raise ImportError))
  /\ (CHATTERBOX_AVAILABLE torch = true ->
      environ out.1 !! "PYTORCH_ENABLE_MPS_FALLBACK" = Some "1"
      /\ forall name,
           name <> "PYTORCH_ENABLE_MPS_FALLBACK" ->
           environ out.1 !! name = environ p !! name).
Proof.
  cbv zeta. split.
  { intros Hno. unfold ChatterboxTTSGenerator.__init__. by rewrite Hno. }
  intros Havail. rewrite init_spec by done. cbv zeta.
  assert (forall (calls : list (string * loader))
                 (r : res (ChatterboxTTSGenerator.t A)),
            environ
              (mkprocess (torch_load p)
                 (<["PYTORCH_ENABLE_MPS_FALLBACK" := "1"]> (environ p))
                 calls, r).1 !! "PYTORCH_ENABLE_MPS_FALLBACK" = Some "1"
            /\ forall name,
                 name <> "PYTORCH_ENABLE_MPS_FALLBACK" ->
                 environ
                   (mkprocess (torch_load p)
                      (<["PYTORCH_ENABLE_MPS_FALLBACK" := "1"]> (environ p))
                      calls, r).1 !! name = environ p !! name) as Henv.
  { intros calls r. cbn [fst environ]. split.
    - by rewrite lookup_insert_eq.
    - intros name Hname. by rewrite lookup_insert_ne. }
  destruct (from_pretrained torch _ (resolved_device torch device));
    [apply Henv|].
  destruct (negb _); [|apply Henv].
  destruct (from_pretrained torch _ "cpu"); apply Henv.
Qed.

(** X18. An engine that construction returns is consistent with the load
    that produced it: its device is the resolved device or the CPU and
    is the device of the last load call, its model is what that load
    returned, its sample rate is the model's, it stores as original
    [torch.load] the function in place before construction, and it has
    no reference audio. *)
Theorem constructed_engine_consistent device p
    (self : ChatterboxTTSGenerator.t A) :
  let out := ChatterboxTTSGenerator.__init__ torch device p in
  let patched := patched_torch_load (torch_load p) in
  out.2 = Ok self ->
  (ChatterboxTTSGenerator.device self = resolved_device torch device
   \/ ChatterboxTTSGenerator.device self = "cpu")
  /\ last (load_calls out.1)
     = Some (ChatterboxTTSGenerator.device self, patched)
  /\ from_pretrained torch patched (ChatterboxTTSGenerator.device self)
     = Ok (ChatterboxTTSGenerator.model self)
  /\ ChatterboxTTSGenerator.sr self
     = model_sr (ChatterboxTTSGenerator.model self)
  /\ ChatterboxTTSGenerator.original_torch_load self = torch_load p
  /\ ChatterboxTTSGenerator.reference_audio_path self = None.
Proof.
  cbv zeta. destruct (CHATTERBOX_AVAILABLE torch) eqn:Havail.
  2:{ unfold ChatterboxTTSGenerator.__init__. by rewrite Havail. }
  rewrite init_spec by done. cbv zeta.
  destruct (from_pretrained torch _ (resolved_device torch device))
    as [m|e] eqn:E.
  { intros [= <-]. cbn. rewrite last_snoc. by split_and!; [left|..]. }
  destruct (negb _); [|done].
  destruct (from_pretrained torch _ "cpu") as [m|e'] eqn:E'; [|done].
  intros [= <-]. cbn. rewrite last_snoc. by split_and!; [right|..].
Qed.

End Constructed.

Lemma constructed_engine_consistent_witness :
  (ChatterboxTTSGenerator.__init__ demo_torch None demo_process).2
  = Ok demo_chatterbox
  /\ last (load_calls
             (ChatterboxTTSGenerator.__init__ demo_torch None
                demo_process).1)
     = Some ("cpu", patched_torch_load library_load)
  /\ from_pretrained demo_torch (patched_torch_load library_load) "cpu"
     = Ok demo_model.
Proof.
  destruct (constructed_engine_consistent demo_torch None demo_process
              demo_chatterbox eq_refl) as (_ & Hlast & Hload & _).
  split; [reflexivity|]. split; [exact Hlast | exact Hload].
Defined.

(** ** Construction of the fixed-voice engine *)

Lemma bind_ok {St B C} (m : io St B) (k : B -> io St C) s s' a :
  m s = (s', Ok a) -> bind m k s = k a s'.
Proof. unfold bind. by intros ->. Qed.

Lemma bind_raise {St B C} (m : io St B) (k : B -> io St C) s s' e :
  m s = (s', Raise e) -> bind m k s = (s', Raise e).
Proof. unfold bind. by intros ->. Qed.

Section KokoroConstruction.
Context {A : Type}.
Variable kokoro : Kokoro A.
Implicit Types (h : host).

(** [setdefault] on the environment alone. *)
Lemma setdefault_eq name value h :
  KokoroInit.setdefault name value h
  = (mkhost (match os_environ h !! name with
             | Some _ => os_environ h
             | None => <[name := value]> (os_environ h)
             end) (calls h), Ok tt).
Proof.
  unfold KokoroInit.setdefault, modify.
  destruct h as [env cs]. cbn [os_environ calls].
  by destruct (env !! name).
Qed.

Lemma setdefault_lookup name value (env : gmap string string) name' :
  match env !! name with
  | Some _ => env
  | None => <[name := value]> env
  end !! name'
  = match env !! name' with
    | Some v => Some v
    | None => if String.eqb name' name then Some value else None
    end.
Proof.
  destruct (env !! name) as [v|] eqn:E.
  - destruct (env !! name') as [v'|] eqn:E'; [done|].
    destruct (String.eqb_spec name' name) as [->|]; [congruence | done].
  - destruct (String.eqb_spec name' name) as [->|Hne].
    + by rewrite lookup_insert_eq, E.
    + rewrite lookup_insert_ne by done. by destruct (env !! name').
Qed.

Lemma mkdir_parents_eq path h :
  KokoroInit.mkdir_parents kokoro path h
  = (mkhost (os_environ h) (calls h ++ [Mkdir path]),
     path_mkdir kokoro path).
Proof. reflexivity. Qed.

(** What [_configure_cache_dirs] does when the directories can be made. *)
Lemma configure_ok h :
  cache_dirs_ok kokoro h ->
  let root := KokoroInit.cache_root kokoro h in
  let out := KokoroInit._configure_cache_dirs kokoro h in
  out.2 = Ok tt
  /\ calls out.1
     = calls h ++ [Mkdir root; Mkdir (path_div kokoro root "huggingface");
                   Mkdir (path_div kokoro root "kokoro")]
  /\ forall name,
       os_environ out.1 !! name
       = match os_environ h !! name with
         | Some v => Some v
         | None => cache_default kokoro h name
         end.
Proof.
  intros (H1 & H2 & H3). cbv zeta.
  unfold KokoroInit._configure_cache_dirs.
  rewrite (bind_ok _ _ h h h) by reflexivity.
  erewrite bind_ok; [|by rewrite mkdir_parents_eq, H1].
  erewrite bind_ok; [|by rewrite mkdir_parents_eq, H2].
  erewrite bind_ok; [|by rewrite mkdir_parents_eq, H3].
  erewrite bind_ok; [|apply setdefault_eq].
  erewrite bind_ok; [|apply setdefault_eq].
  rewrite setdefault_eq. cbn [fst snd os_environ calls].
  split; [done|]. split; [by rewrite <- !List.app_assoc|].
  intros name. rewrite !setdefault_lookup. unfold cache_default.
  destruct (os_environ h !! name); [done|].
  destruct (String.eqb name "HF_HOME"); [done|].
  by destruct (String.eqb name "KOKORO_HOME").
Qed.

(** When a directory cannot be made the environment is not touched. *)
Lemma configure_fail h :
  ~ cache_dirs_ok kokoro h ->
  let out := KokoroInit._configure_cache_dirs kokoro h in
  is_ok out.2 = false /\ os_environ out.1 = os_environ h.
Proof.
  intros Hno. cbv zeta.
  unfold KokoroInit._configure_cache_dirs.
  rewrite (bind_ok _ _ h h h) by reflexivity.
  destruct (path_mkdir kokoro (KokoroInit.cache_root kokoro h))
    as [[]|e1] eqn:H1;
    [|by erewrite bind_raise; [|by rewrite mkdir_parents_eq, H1]].
  erewrite bind_ok; [|by rewrite mkdir_parents_eq, H1].
  destruct (path_mkdir kokoro
              (path_div kokoro (KokoroInit.cache_root kokoro h)
                 "huggingface")) as [[]|e2] eqn:H2;
    [|by erewrite bind_raise; [|by rewrite mkdir_parents_eq, H2]].
  erewrite bind_ok; [|by rewrite mkdir_parents_eq, H2].
  destruct (path_mkdir kokoro
              (path_div kokoro (KokoroInit.cache_root kokoro h) "kokoro"))
    as [[]|e3] eqn:H3;
    [|by erewrite bind_raise; [|by rewrite mkdir_parents_eq, H3]].
  by destruct Hno.
Qed.

Lemma cache_dirs_dec h : cache_dirs_ok kokoro h \/ ~ cache_dirs_ok kokoro h.
Proof.
  unfold cache_dirs_ok. cbv zeta.
  destruct (path_mkdir kokoro (KokoroInit.cache_root kokoro h)) as [[]|];
    [|right; by intros (? & _)].
  destruct (path_mkdir kokoro (path_div kokoro _ "huggingface")) as [[]|];
    [|right; by intros (_ & ? & _)].
  destruct (path_mkdir kokoro (path_div kokoro _ "kokoro")) as [[]|];
    [by left | right; by intros (_ & _ & ?)].
Qed.

Lemma cache_default_names h name value :
  cache_default kokoro h name = Some value ->
  name = "HF_HOME" \/ name = "KOKORO_HOME" \/ name = "KOKORO_REPO_ID".
Proof.
  unfold cache_default.
  destruct (String.eqb_spec name "HF_HOME"); [by left|].
  destruct (String.eqb_spec name "KOKORO_HOME"); [by right; left|].
  destruct (String.eqb_spec name "KOKORO_REPO_ID"); [by right; right|done].
Qed.

(** X19. [_configure_cache_dirs] succeeds exactly when the cache root and
    its two subdirectories can be made; when it fails the environment
    is as it was.  When it succeeds, each of [HF_HOME], [KOKORO_HOME]
    and [KOKORO_REPO_ID] keeps the value it had if it had one and
    otherwise gets its default (the subdirectory [huggingface] resp.
    [kokoro] of the cache root, the repository [hexgrad/Kokoro-82M]),
    and no other variable changes; running it once more changes
    nothing in the environment. *)
Theorem configure_cache_dirs_spec (h : host) :
  let out := KokoroInit._configure_cache_dirs kokoro h in
  (is_ok out.2 = true <-> cache_dirs_ok kokoro h)
  /\ (is_ok out.2 = false -> os_environ out.1 = os_environ h)
  /\ (is_ok out.2 = true ->
      (forall name,
         os_environ out.1 !! name
         = match os_environ h !! name with
           | Some value => Some value
           | None => cache_default kokoro h name
           end)
      /\ os_environ (KokoroInit._configure_cache_dirs kokoro out.1).1
         = os_environ out.1).
Proof.
  cbv zeta. destruct (cache_dirs_dec h) as [Hok|Hno].
  - destruct (configure_ok h Hok) as (Hr & _ & Henv). rewrite Hr.
    split_and!; [done..|]. intros _. split; [done|].
    set (h1 := (KokoroInit._configure_cache_dirs kokoro h).1) in *.
    destruct (cache_dirs_dec h1) as [Hok1|Hno1];
      [|by destruct (configure_fail h1 Hno1)].
    destruct (configure_ok h1 Hok1) as (_ & _ & Henv1).
    apply map_eq. intros name. rewrite Henv1.
    destruct (os_environ h1 !! name) as [v|] eqn:E; [done|].
    destruct (cache_default kokoro h1 name) as [v|] eqn:Hd; [|done].
    rewrite Henv in E.
    destruct (os_environ h !! name); [done|].
    apply cache_default_names in Hd as [->|[->| ->]]; discriminate E.
  - destruct (configure_fail h Hno) as [Hr Henv]. rewrite Hr.
    split_and!; [|done..]. split; [done|]. intros Hok. by destruct Hno.
Qed.

(** The two best-effort steps: they never raise and leave the
    environment alone. *)
Lemma ensure_spacy_spec h :
  exists new,
    KokoroInit._ensure_spacy_model kokoro h
    = (mkhost (os_environ h) (calls h ++ new), Ok tt)
    /\ (new = [] \/ new = [SpacyDownload "en_core_web_sm"]).
Proof.
  unfold KokoroInit._ensure_spacy_model.
  destruct (is_package kokoro) as [p|].
  2:{ exists []. rewrite List.app_nil_r. by destruct h; split; [|left]. }
  destruct (p "en_core_web_sm").
  { exists []. rewrite List.app_nil_r. by destruct h; split; [|left]. }
  exists [SpacyDownload "en_core_web_sm"]. split; [|by right].
  unfold try_except, bind, KokoroInit.call, modify, lift, ret.
  by destruct (spacy_download kokoro _) as [[]|].
Qed.

Lemma warm_cache_spec h :
  exists new,
    KokoroInit._warm_kokoro_cache kokoro h
    = (mkhost (os_environ h) (calls h ++ new), Ok tt)
    /\ (new = []
        \/ new = [SnapshotDownload
                    (KokoroInit.getenv h "KOKORO_REPO_ID"
                       "hexgrad/Kokoro-82M")
                    (os_environ h !! "HF_HOME")]).
Proof.
  unfold KokoroInit._warm_kokoro_cache.
  destruct (snapshot_download kokoro) as [download|].
  2:{ exists []. rewrite List.app_nil_r. by destruct h; split; [|left]. }
  eexists [_]. split; [|by right].
  unfold try_except, bind, get, KokoroInit.call, modify, lift, ret.
  by destruct (download _ _) as [[]|].
Qed.

(** X20. Construction of the fixed-voice engine.  Without Kokoro it
    raises [ImportError] and touches nothing.  With Kokoro, when the
    cache directories cannot be made it fails and leaves the
    environment as it was.  When they can, its outcome is that of the
    one [KPipeline] call, made last, for the given language and the
    repository named by [KOKORO_REPO_ID] (the default repository when
    the variable is not set): the engine has the given sample rate,
    that pipeline and the voice [af_heart].  The spaCy download and the
    prefetch never make construction fail, and a prefetch asks for the
    same repository as the pipeline, with the [HF_HOME] in force as its
    cache directory. *)
Theorem kokoro_construction (lang_code : string) (sample_rate : positive)
    (h : host) :
  let out := KokoroInit.__init__ kokoro lang_code sample_rate h in
  let repo_id := KokoroInit.getenv h "KOKORO_REPO_ID" "hexgrad/Kokoro-82M" in
  let hf_home :=
    KokoroInit.getenv h "HF_HOME"
      (path_div kokoro (KokoroInit.cache_root kokoro h) "huggingface") in
  (KPipeline kokoro = None -> out = (h, Raise ImportError))
  /\ (KPipeline kokoro <> None -> ~ cache_dirs_ok kokoro h ->
      is_ok out.2 = false /\ os_environ out.1 = os_environ h)
  /\ (forall K,
        KPipeline kokoro = Some K -> cache_dirs_ok kokoro h ->
        out.2 = match K lang_code repo_id with
                | Ok pipeline =>
                    Ok (PodcastTTSGenerator.mk sample_rate pipeline
                          "af_heart")
                | Raise e => Raise e
                end
        /\ exists new,
             calls out.1 = calls h ++ new
             /\ last new = Some (KPipelineCall lang_code repo_id)
             /\ forall repo cache_dir,
                  SnapshotDownload repo cache_dir ∈ new ->
                  repo = repo_id /\ cache_dir = Some hf_home).
Proof.
  cbv zeta. unfold KokoroInit.__init__. split_and!.
  - by intros ->.
  - destruct (KPipeline kokoro) as [K|]; [|done]. intros _ Hno.
    destruct (configure_fail h Hno) as [Hr Henv].
    destruct (KokoroInit._configure_cache_dirs kokoro h) as [h1 [[]|e]] eqn:E;
      [done|].
    by erewrite bind_raise.
  - intros K -> Hok.
    destruct (configure_ok h Hok) as (Hr & Hcalls & Henv).
    destruct (KokoroInit._configure_cache_dirs kokoro h) as [h1 r1] eqn:E.
    cbn [fst snd] in Hr, Hcalls, Henv. subst r1.
    erewrite bind_ok by exact E.
    destruct (ensure_spacy_spec h1) as (new2 & E2 & Hnew2).
    erewrite bind_ok by exact E2.
    set (h2 := mkhost (os_environ h1) (calls h1 ++ new2)).
    destruct (warm_cache_spec h2) as (new3 & E3 & Hnew3).
    erewrite bind_ok by exact E3.
    set (h3 := mkhost (os_environ h2) (calls h2 ++ new3)).
    rewrite (bind_ok _ _ h3 h3 h3) by reflexivity.
    assert (KokoroInit.getenv h1 "KOKORO_REPO_ID" "hexgrad/Kokoro-82M"
            = KokoroInit.getenv h "KOKORO_REPO_ID" "hexgrad/Kokoro-82M")
      as Hrepo.
    { unfold KokoroInit.getenv. rewrite Henv.
      by destruct (os_environ h !! "KOKORO_REPO_ID"). }
    assert (os_environ h1 !! "HF_HOME"
            = Some (KokoroInit.getenv h "HF_HOME"
                      (path_div kokoro (KokoroInit.cache_root kokoro h)
                         "huggingface"))) as Hhf.
    { unfold KokoroInit.getenv. rewrite Henv.
      by destruct (os_environ h !! "HF_HOME"). }
    change (KokoroInit.getenv h3 "KOKORO_REPO_ID" "hexgrad/Kokoro-82M")
      with (KokoroInit.getenv h1 "KOKORO_REPO_ID" "hexgrad/Kokoro-82M").
    rewrite Hrepo.
    set (repo_id := KokoroInit.getenv h "KOKORO_REPO_ID" _) in *.
    unfold bind, KokoroInit.call, modify, lift, ret.
    assert (exists new,
              calls h3 ++ [KPipelineCall lang_code repo_id] = calls h ++ new
              /\ last new = Some (KPipelineCall lang_code repo_id)
              /\ forall repo cache_dir,
                   SnapshotDownload repo cache_dir ∈ new ->
                   repo = repo_id
                   /\ cache_dir
                      = Some (KokoroInit.getenv h "HF_HOME"
                                (path_div kokoro
                                   (KokoroInit.cache_root kokoro h)
                                   "huggingface"))) as Hlog.
    { eexists. unfold h3, h2. cbn [calls]. rewrite Hcalls.
      rewrite <- !List.app_assoc. split; [done|].
      split; [by rewrite !List.app_assoc, last_snoc|].
      intros repo cache_dir Hin.
      rewrite !elem_of_app, !elem_of_cons, elem_of_nil in Hin.
      destruct Hin as [[?|[?|[?|[]]]]|[Hin|[Hin|[?|[]]]]]; try done.
      - destruct Hnew2 as [->| ->]; [by apply elem_of_nil in Hin|].
        by apply list_elem_of_singleton in Hin.
      - destruct Hnew3 as [->| ->]; [by apply elem_of_nil in Hin|].
        apply list_elem_of_singleton in Hin. injection Hin as -> ->.
        cbn [os_environ]. by rewrite Hhf. }
    destruct (K lang_code repo_id); cbn [fst snd]; by split.
Qed.

End KokoroConstruction.

Lemma kokoro_construction_witness :
  cache_dirs_ok demo_host_kokoro demo_host
  /\ is_ok (KokoroInit.__init__ demo_host_kokoro "a" 24000 demo_host).2
     = true
  /\ exists new,
       calls (KokoroInit.__init__ demo_host_kokoro "a" 24000 demo_host).1
       = new
       /\ last new = Some (KPipelineCall "a" "hexgrad/Kokoro-82M")
       /\ forall repo cache_dir,
            SnapshotDownload repo cache_dir ∈ new ->
            repo = "hexgrad/Kokoro-82M" /\ cache_dir = Some "/data/hf".
Proof.
  assert (cache_dirs_ok demo_host_kokoro demo_host) as Hok.
  { by split_and!. }
  destruct (kokoro_construction demo_host_kokoro "a" 24000 demo_host)
    as (_ & _ & Hinit).
  destruct (Hinit _ eq_refl Hok) as (Hout & new & Hcalls & Hlast & Hpre).
  split; [exact Hok|]. split; [by rewrite Hout|].
  exists new. split; [exact Hcalls|]. split; [exact Hlast | exact Hpre].
Defined.

(** ** Text that needs no cleaning *)

Lemma replace_absent old new s :
  occurs old s = false -> Str.replace old new s = s.
Proof.
  unfold Str.replace. induction s as [|c s IH]; [done|].
  cbn [occurs Str.replace_from].
  intros [Hp Hs]%orb_false_iff. rewrite Hp. f_equal. by apply IH.
Qed.

(** X21. A text without whitespace at its ends that ends in [.], [!] or
    [?] and contains none of [...], [!!] and [??] is passed to the
    Kokoro pipeline as it is. *)
Theorem clean_text_unchanged (text : string) :
  Str.strip text = text ->
  Str.endswith_any text terminals = true ->
  occurs "..." text = false -> occurs "!!" text = false ->
  occurs "??" text = false ->
  _clean_text_for_tts text = text.
Proof.
  intros Hs He H1 H2 H3. unfold _clean_text_for_tts. cbv zeta.
  rewrite Hs, (replace_absent "..." "." text H1).
  rewrite (replace_absent "!!" "!" text H2).
  rewrite (replace_absent "??" "?" text H3). by rewrite He.
Qed.

Lemma clean_text_unchanged_witness :
  Str.strip "Hello there." = "Hello there."
  /\ Str.endswith_any "Hello there." terminals = true
  /\ occurs "..." "Hello there." = false
  /\ occurs "!!" "Hello there." = false
  /\ occurs "??" "Hello there." = false
  /\ _clean_text_for_tts "Hello there." = "Hello there.".
Proof.
  split_and!; [reflexivity..|].
  apply (clean_text_unchanged "Hello there."); reflexivity.
Defined.

(** ** Failures of the combiner and of a run *)

Section Failures.
Context {A : Type} `{Sample A}.
Variable os : Os.
Variable kokoro : PodcastTTSGenerator.t A.
Variable chatterbox : ChatterboxTTSGenerator.t A.

Lemma engine_no_segment synth rate pause podcast_script output_dir
    (st : run A) :
  mkdir os output_dir = Ok tt ->
  Forall (fun line_dict => line_dict <> []) (script podcast_script) ->
  Engine.produced os synth rate output_dir (script podcast_script) = [] ->
  (Engine.generate os synth rate pause podcast_script output_dir true st).2
  = Ok [].
Proof.
  intros Hmk Hne Hnone. rewrite generate_spec by done. cbv zeta.
  by rewrite Hnone.
Qed.

(** X22. On the empty list the Podcast Combiner raises the [ValueError]
    of [np.concatenate] and changes nothing.  A run never calls it so:
    when no line of the script yields a segment, a run with
    [combine_audio] does not combine and returns the empty list without
    an error.  Both engines. *)
Theorem combine_audio_segments_empty (podcast_script : PodcastScript)
    (output_dir : string) (st : run A) :
  (PodcastTTSGenerator._combine_audio_segments os kokoro [] output_dir st
   = (st, Raise ValueError)
   /\ ChatterboxTTSGenerator._combine_audio_segments os chatterbox []
        output_dir st = (st, Raise ValueError))
  /\ (mkdir os output_dir = Ok tt ->
      Forall (fun line_dict => line_dict <> []) (script podcast_script) ->
      (kokoro_produced os kokoro output_dir (script podcast_script) = [] ->
       (PodcastTTSGenerator.generate_podcast_audio os kokoro podcast_script
          output_dir true st).2 = Ok [])
      /\ (chatterbox_produced os chatterbox output_dir
            (script podcast_script) = [] ->
          (ChatterboxTTSGenerator.generate_podcast_audio os chatterbox
             podcast_script output_dir true st).2 = Ok [])).
Proof.
  split; [done|]. intros Hmk Hne.
  rewrite kokoro_generate_eq, chatterbox_generate_eq.
  split; intros Hnone; by apply engine_no_segment.
Qed.

Lemma for_each_app {St B} (f : B -> io St unit) l1 l2 s :
  for_each f (l1 ++ l2) s
  = bind (for_each f l1) (fun _ => for_each f l2) s.
Proof.
  revert s. induction l1 as [|x l IH]; intros s; [done|].
  cbn [app for_each]. unfold bind.
  destruct (f x s) as [s' [[]|e]]; [|done]. rewrite IH. done.
Qed.

Lemma enumerate_app {B} (l1 l2 : list B) :
  enumerate (l1 ++ l2)
  = enumerate l1 ++ zip (seq (length l1) (length l2)) l2.
Proof.
  unfold enumerate. rewrite length_app, seq_app.
  by rewrite zip_with_app by (by rewrite length_seq).
Qed.

Lemma engine_generate_aborts synth rate pause podcast_script output_dir
    combine_audio (st : run A) :
  (forall e,
     mkdir os output_dir = Raise e ->
     Engine.generate os synth rate pause podcast_script output_dir
       combine_audio st = (st, Raise e))
  /\ (forall before after,
        mkdir os output_dir = Ok tt ->
        script podcast_script = before ++ [] :: after ->
        Forall (fun line_dict => line_dict <> []) before ->
        let out := Engine.generate os synth rate pause podcast_script
                     output_dir combine_audio st in
        out.2 = Raise StopIteration
        /\ output_files out.1
           = map AudioSegment.file_path
               (Engine.produced os synth rate output_dir before)
        /\ disk out.1 !! combined_path output_dir
           = disk st !! combined_path output_dir).
Proof.
  split.
  { intros e Hmk. unfold Engine.generate.
    erewrite bind_raise; [done|]. unfold lift. by rewrite Hmk. }
  intros before after Hmk Hs Hne. cbv zeta. unfold Engine.generate.
  erewrite bind_ok by (unfold lift; by rewrite Hmk).
  erewrite bind_ok by reflexivity.
  rewrite Hs, enumerate_app.
  erewrite bind_raise; [|].
  2:{ rewrite for_each_app. unfold enumerate.
      erewrite bind_ok by (by apply segment_loop_spec).
      reflexivity. }
  rewrite recorded. cbn [fst snd output_files disk]. split_and!; [done..|].
  apply store_frame, produced_not_combined.
Qed.

(** X23. A run that cannot go on writes no combined file and returns
    nothing.  When the output directory cannot be made, the error is
    raised before any line is looked at and the state is as it was.
    When a line of the script has no entry, the run ends there with
    [StopIteration]: the lines before it were handled as usual, the
    lines after it are not looked at.  Both engines. *)
Theorem run_aborts (podcast_script : PodcastScript) (output_dir : string)
    (combine_audio : bool) (st : run A) :
  (forall e,
     mkdir os output_dir = Raise e ->
     PodcastTTSGenerator.generate_podcast_audio os kokoro podcast_script
       output_dir combine_audio st = (st, Raise e)
     /\ ChatterboxTTSGenerator.generate_podcast_audio os chatterbox
          podcast_script output_dir combine_audio st = (st, Raise e))
  /\ (forall before after,
        mkdir os output_dir = Ok tt ->
        script podcast_script = before ++ [] :: after ->
        Forall (fun line_dict => line_dict <> []) before ->
        (let out := PodcastTTSGenerator.generate_podcast_audio os kokoro
                      podcast_script output_dir combine_audio st in
         out.2 = Raise StopIteration
         /\ output_files out.1
            = map AudioSegment.file_path
                (kokoro_produced os kokoro output_dir before)
         /\ disk out.1 !! combined_path output_dir
            = disk st !! combined_path output_dir)
        /\ (let out := ChatterboxTTSGenerator.generate_podcast_audio os
                         chatterbox podcast_script output_dir combine_audio
                         st in
            out.2 = Raise StopIteration
            /\ output_files out.1
               = map AudioSegment.file_path
                   (chatterbox_produced os chatterbox output_dir before)
            /\ disk out.1 !! combined_path output_dir
               = disk st !! combined_path output_dir)).
Proof.
  split.
  - intros e Hmk. rewrite kokoro_generate_eq, chatterbox_generate_eq.
    split; by apply (proj1 (engine_generate_aborts _ _ _ _ _ _ _)).
  - intros before after Hmk Hs Hne. cbv zeta.
    rewrite kokoro_generate_eq, chatterbox_generate_eq.
    split; by eapply (proj2 (engine_generate_aborts _ _ _ _ _ _ _)).
Qed.

End Failures.

Lemma run_aborts_witness :
  mkdir demo_os "out" = Ok tt
  /\ script broken_script
     = [[("Speaker", "Hello there.")]] ++ [] :: [[("Speaker", "Bye.")]]
  /\ (PodcastTTSGenerator.generate_podcast_audio demo_os demo_kokoro
        broken_script "out" true fresh_run).2 = Raise StopIteration
  /\ output_files
       (PodcastTTSGenerator.generate_podcast_audio demo_os demo_kokoro
          broken_script "out" true fresh_run).1
     = ["out/segment_001_speaker.wav"].
Proof.
  destruct (run_aborts demo_os demo_kokoro demo_chatterbox broken_script
              "out" true fresh_run) as [_ Hstop].
  destruct (Hstop [[("Speaker", "Hello there.")]] [[("Speaker", "Bye.")]]
              eq_refl eq_refl ltac:(by repeat constructor))
    as [(Hr & Hfiles & _) _].
  split; [reflexivity|]. split; [reflexivity|].
  split; [exact Hr | exact Hfiles].
Defined.

Lemma combine_audio_segments_empty_witness :
  mkdir demo_os "out" = Ok tt
  /\ Forall (fun line_dict : list (string * string) => line_dict <> [])
            (script silent_script)
  /\ kokoro_produced demo_os demo_kokoro "out" (script silent_script) = []
  /\ (PodcastTTSGenerator.generate_podcast_audio demo_os demo_kokoro
        silent_script "out" true fresh_run).2 = Ok [].
Proof.
  assert (Forall (fun line_dict : list (string * string) => line_dict <> [])
                 (script silent_script)) as Hlines.
  { repeat constructor; discriminate. }
  destruct (combine_audio_segments_empty demo_os demo_kokoro demo_chatterbox
              silent_script "out" fresh_run) as [_ Hrun].
  destruct (Hrun eq_refl Hlines) as [Hk _].
  split; [reflexivity|]. split; [exact Hlines|]. split; [reflexivity|].
  exact (Hk eq_refl).
Defined.

(** ** Phase Splitter: how the phases are grouped *)

Section Greedy.
Variable f : string -> string.
Variable B : Z.





End Greedy.












(** The chunks of the witness, spelled out. *)
Example split_phases_bound_demo :
  built_from 10 "aaaa bbbbbb cc dddddddddddd ee"
    "aaaa bbbbbb cc dddddddddddd ee."
  /\ chunk_of 10 "aaaa bbbbbb cc dddddddddddd ee." "bbbbbb cc"
  /\ chunk_of 10 "aaaa bbbbbb cc dddddddddddd ee." "dddddddddddd".
Proof.
  split_and!.
  - exists [], ["aaaa bbbbbb cc dddddddddddd ee"], [].
    split_and!; [by vm_compute | done | by vm_compute |]. right. by eexists.
  - exists ["aaaa"], ["bbbbbb"; "cc"], ["dddddddddddd"; "ee."].
    split_and!; [by vm_compute | done | by vm_compute |]. left. by vm_compute.
  - exists ["aaaa"; "bbbbbb"; "cc"], ["dddddddddddd"], ["ee."].
    split_and!; [by vm_compute | done | by vm_compute |]. right.
    split; [by eexists | by vm_compute].
Qed.


(** ** Phase Splitter: content, stated on the text *)












(** *** What is kept of a piece *)











Example split_content_demo :
  interleave ["Who"; "Me"; "Yes"] ["? "; "!  "] = "Who? Me!  Yes"
  /\ cut_at_delimiters ["Who"; "Me"; "Yes"] ["? "; "!  "]
  /\ map kept ["Who"; "Me"; "Yes"] = ["Who."; "Me."; "Yes."]
  /\ _split_text_into_phases "Who? Me!  Yes" 800 = ["Who. Me. Yes."].
Proof.
  split_and!; try by vm_compute.
  cbn. split_and!; try done.
  - by exists "?", " ".
  - by exists "!", "  ".
Qed.

